(** * webidl2js: the Transformer pipeline (lib/transformer.js)

    A shallow embedding of [Transformer]: registration of sources and
    modules, source collection, document loading, the two-pass model builder
    and the emission driver, followed by the properties of the pipeline. *)

From Stdlib Require Import String Ascii List Bool Arith Lia Permutation.
From stdpp Require Import base option list gmap strings.
Import ListNotations.

Open Scope string_scope.
Open Scope list_scope.

(** ** Strings *)

(** The quote and newline characters of the emitted preamble. *)
Definition dquote : string := String "034"%char EmptyString.
Definition newline : string := String "010"%char EmptyString.

(** [s.endsWith(suffix)] *)
Fixpoint endsWith (s suffix : string) : bool :=
  if decide (s = suffix) then true
  else match s with
       | EmptyString => false
       | String _ s' => endsWith s' suffix
       end.

(** [s.replace(/\\/g, "/")] *)
Fixpoint replace_backslashes (s : string) : string :=
  match s with
  | EmptyString => EmptyString
  | String c s' =>
      String (if decide (c = "\"%char) then "/"%char else c) (replace_backslashes s')
  end.

(** [if (p[0] !== ".") p = "./" + p] *)
Definition force_relative (p : string) : string :=
  match p with
  | String "." _ => p
  | _ => "./" ++ p
  end.

(** ** Exceptions and the state-and-exception monad

    A JavaScript call either returns or throws; in both cases the mutations
    it made so far to the objects it was handed remain. *)

Inductive Error : Type :=
| TypeError (msg : string)
| GenericError (msg : string)
| SyntaxError
| IOError (path : string).

Inductive Result (A : Type) : Type :=
| Ok (a : A)
| Throw (e : Error).
Arguments Ok {A} a.
Arguments Throw {A} e.

#[global] Instance Error_eq_dec : EqDecision Error.
Proof. solve_decision. Defined.

#[global] Instance Result_eq_dec {A} `{EqDecision A} : EqDecision (Result A).
Proof. solve_decision. Defined.

Definition is_ok {A} (r : Result A) : bool :=
  match r with Ok _ => true | Throw _ => false end.

Definition M (S A : Type) : Type := S -> Result A * S.

Definition ret {S A} (a : A) : M S A := fun s => (Ok a, s).
Definition throw {S A} (e : Error) : M S A := fun s => (Throw e, s).
Definition bind {S A B} (c : M S A) (k : A -> M S B) : M S B :=
  fun s => match c s with
           | (Ok a, s') => k a s'
           | (Throw e, s') => (Throw e, s')
           end.
Definition get_state {S} : M S S := fun s => (Ok s, s).
Definition modify_state {S} (f : S -> S) : M S unit := fun s => (Ok tt, f s).
Definition lift_result {S A} (r : Result A) : M S A := fun s => (r, s).

Notation "x <- c ;; k" := (bind c (fun x => k))
  (at level 100, c at next level, right associativity).
Notation "c ;;; k" := (bind c (fun _ => k))
  (at level 100, right associativity).

(** [for (const x of l) body(x)] *)
Fixpoint for_each {S A} (body : A -> M S unit) (l : list A) : M S unit :=
  match l with
  | [] => ret tt
  | x :: l' => body x ;;; for_each body l'
  end.

Definition result_bind {A B} (r : Result A) (k : A -> Result B) : Result B :=
  match r with
  | Ok a => k a
  | Throw e => Throw e
  end.

(** [Promise.all(l.map(f))] once every promise has settled: the array of
    results in the order of [l], or a rejection.  Which of several failing
    promises rejects first is a race; the model reports the first one in list
    order, and no statement below depends on the payload of the error. *)
Fixpoint map_result {A B} (f : A -> Result B) (l : list A) : Result (list B) :=
  match l with
  | [] => Ok []
  | x :: l' =>
      match f x with
      | Throw e => Throw e
      | Ok y => match map_result f l' with
                | Throw e => Throw e
                | Ok ys => Ok (y :: ys)
                end
      end
  end.

(** ** JavaScript [Map] with string keys

    A [Map] iterates in insertion order, and [set] on a key already present
    replaces the value where it stands. *)

Module JSMap.
Section JSMap.
Context {V : Type}.

Fixpoint get (k : string) (m : list (string * V)) : option V :=
  match m with
  | [] => None
  | (k', v) :: m' => if decide (k = k') then Some v else get k m'
  end.

Definition has (k : string) (m : list (string * V)) : bool :=
  match get k m with Some _ => true | None => false end.

Fixpoint set (k : string) (v : V) (m : list (string * V)) : list (string * V) :=
  match m with
  | [] => [(k, v)]
  | (k', v') :: m' =>
      if decide (k = k') then (k', v) :: m' else (k', v') :: set k v m'
  end.

(** In-place mutation of the object stored under [k]. *)
Fixpoint mutate (k : string) (f : V -> V) (m : list (string * V)) : list (string * V) :=
  match m with
  | [] => []
  | (k', v) :: m' =>
      if decide (k = k') then (k', f v) :: m' else (k', v) :: mutate k f m'
  end.

Definition keys (m : list (string * V)) : list string := map fst m.
Definition values (m : list (string * V)) : list V := map snd m.
End JSMap.
End JSMap.

Abbreviation JSMap V := (list (string * V)).

(** [a && f(a)] on a value that is [undefined] or a string: [undefined] and
    the empty string are falsy and are the result themselves. *)
Definition and_then (a : option string) (f : string -> string) : option string :=
  match a with
  | None => None
  | Some s => if decide (s = EmptyString) then Some s else Some (f s)
  end.

(** [!a] on a value that is [undefined] or a string. *)
Definition falsy (a : option string) : bool :=
  match a with
  | None => true
  | Some s => bool_decide (s = EmptyString)
  end.

(** ** Data model *)

Section Pipeline.
(** Members and extended attributes of the parser's syntax tree are opaque
    to the transformer. *)
Context {Member ExtAttr : Type}.

(** An instruction record of the parser ([webidl2]): [type] discriminates;
    [partial], [name], [members], [extAttrs] are read on interfaces and
    dictionaries, [target] and [implements] on [implements] statements. *)
Record Instruction : Type := {
  type : string;
  partial : bool;
  name : string;
  members : list Member;
  extAttrs : list ExtAttr;
  target : string;
  implements : string
}.

(** Entries of [this.sources]. *)
Record Source : Type := { src_idlPath : string; src_impl : string }.

(** Entries of [files] in [_collectSources]. *)
Record FileEntry : Type := {
  idlPath : string;
  file_impl : option string;
  file_genPath : option string
}.

(** Entries of [zipped] in [_readFiles]. *)
Record LoadedDocument : Type := {
  idlContent : string;
  content_impl : option string;
  content_genPath : option string
}.

(** Entries of [parsed] in [_parse]. *)
Record ParsedDocument : Type := {
  idl : list Instruction;
  impl : option string;
  genPath : option string
}.

Record Interface : Type := {
  iface_name : string;
  iface_idl : Instruction;
  implDir : option string;
  iface_path : option string;
  mixins : list string
}.

Record Dictionary : Type := {
  dict_name : string;
  dict_idl : Instruction;
  dict_path : option string
}.

Record Typedef : Type := {
  td_name : string;
  td_idl : Instruction
}.

Record Context : Type := {
  implSuffix : string;
  interfaces : JSMap Interface;
  dictionaries : JSMap Dictionary;
  typedefs : JSMap Typedef;
  customTypes : JSMap string
}.

(** Modelled from the spec: the constructor of [constructs/interface.js],
    which this development does not embed.  An Interface entry is keyed
    by its declared name and bound to the document's implementation
    directory and output path hint; no mixin is recorded yet. *)
Definition new_Interface (instruction : Instruction)
    (opts_implDir opts_path : option string) : Interface :=
  {| iface_name := name instruction;
     iface_idl := instruction;
     implDir := opts_implDir;
     iface_path := opts_path;
     mixins := [] |}.

(** Modelled from the spec: [Interface.prototype.implements] of
    [constructs/interface.js]; it records that the interface also exposes
    the members of [source], to be resolved later by the generator. *)
Definition Interface_implements (source : string) (obj : Interface) : Interface :=
  {| iface_name := iface_name obj;
     iface_idl := iface_idl obj;
     implDir := implDir obj;
     iface_path := iface_path obj;
     mixins := mixins obj ++ [source] |}.

(** Modelled from the spec: the constructor of [constructs/dictionary.js];
    dictionaries carry no implementation directory. *)
Definition new_Dictionary (instruction : Instruction)
    (opts_path : option string) : Dictionary :=
  {| dict_name := name instruction;
     dict_idl := instruction;
     dict_path := opts_path |}.

(** Modelled from the spec: the constructor of [constructs/typedef.js]. *)
Definition new_Typedef (instruction : Instruction) : Typedef :=
  {| td_name := name instruction; td_idl := instruction |}.

(** Modelled from the spec: [Context.prototype.initialize] of [context.js];
    the registry of a build starts empty. *)
Definition Context_initialize (ctx : Context) : Context :=
  {| implSuffix := implSuffix ctx;
     interfaces := [];
     dictionaries := [];
     typedefs := [];
     customTypes := [] |}.

(** [idl.members.push(...ms); idl.extAttrs.push(...eas)] *)
Definition push_members (ms : list Member) (eas : list ExtAttr)
    (instruction : Instruction) : Instruction :=
  {| type := type instruction;
     partial := partial instruction;
     name := name instruction;
     members := members instruction ++ ms;
     extAttrs := extAttrs instruction ++ eas;
     target := target instruction;
     implements := implements instruction |}.

Definition Interface_push (ms : list Member) (eas : list ExtAttr)
    (obj : Interface) : Interface :=
  {| iface_name := iface_name obj;
     iface_idl := push_members ms eas (iface_idl obj);
     implDir := implDir obj;
     iface_path := iface_path obj;
     mixins := mixins obj |}.

Definition Dictionary_push (ms : list Member) (eas : list ExtAttr)
    (obj : Dictionary) : Dictionary :=
  {| dict_name := dict_name obj;
     dict_idl := push_members ms eas (dict_idl obj);
     dict_path := dict_path obj |}.

Definition set_interfaces (f : JSMap Interface -> JSMap Interface) (ctx : Context) : Context :=
  {| implSuffix := implSuffix ctx;
     interfaces := f (interfaces ctx);
     dictionaries := dictionaries ctx;
     typedefs := typedefs ctx;
     customTypes := customTypes ctx |}.

Definition set_dictionaries (f : JSMap Dictionary -> JSMap Dictionary) (ctx : Context) : Context :=
  {| implSuffix := implSuffix ctx;
     interfaces := interfaces ctx;
     dictionaries := f (dictionaries ctx);
     typedefs := typedefs ctx;
     customTypes := customTypes ctx |}.

Definition set_typedefs (f : JSMap Typedef -> JSMap Typedef) (ctx : Context) : Context :=
  {| implSuffix := implSuffix ctx;
     interfaces := interfaces ctx;
     dictionaries := dictionaries ctx;
     typedefs := f (typedefs ctx);
     customTypes := customTypes ctx |}.

Definition set_customTypes (f : JSMap string -> JSMap string) (ctx : Context) : Context :=
  {| implSuffix := implSuffix ctx;
     interfaces := interfaces ctx;
     dictionaries := dictionaries ctx;
     typedefs := typedefs ctx;
     customTypes := f (customTypes ctx) |}.


(** ** External collaborators

    The modules the transformer requires and the constructs it
    instantiates: Node's [path], [require.resolve] and [__dirname], the
    parser [webidl2], [JSON.parse] restricted to what [_collectSources]
    reads of a package descriptor, the formatter [prettier], and the
    operations of the generator constructs used by [_writeFiles]. *)

Record Webidl2jsSection : Type := {
  pkg_interface : string;
  pkg_idl : list string
}.

Record PackageJSON : Type := { webidl2js : option Webidl2jsSection }.

Class Collaborators : Type := {
  path_join : string -> string -> string;
  path_posix_join : string -> string -> string;
  path_resolve : string -> string -> string;
  path_relative : string -> string -> string;
  path_dirname : string -> string;
  __dirname : string;
  require_resolve : string -> Result string;
  webidl_parse : string -> Result (list Instruction);
  JSON_parse : string -> Result PackageJSON;
  prettier_format : string -> Result string;
  Context_implSuffix : option string -> string;
  Interface_imported : Interface -> bool;
  Interface_toString : Context -> Interface -> string;
  Dictionary_imported : Dictionary -> bool;
  Dictionary_toString : Context -> Dictionary -> string
}.

(** Modelled from the spec: the constructor of [context.js]; it keeps the
    implementation suffix and starts with an empty registry. *)
Definition new_Context `{Collaborators} (opts_implSuffix : option string) : Context :=
  {| implSuffix := Context_implSuffix opts_implSuffix;
     interfaces := [];
     dictionaries := [];
     typedefs := [];
     customTypes := [] |}.

(** ** The file system ([pn/fs])

    Which file or directory a path names is the operating system's matter:
    two spellings ([out/utils.js], [./out/utils.js]) can name one location.
    [fs_locate] is that resolution, [fs_parent] the location of the directory
    holding a location and [fs_entry] the name under which it is listed
    there; [fs_denied] tells the paths it does not let the process write
    (permissions, a read-only volume, a name it does not take).  Directories
    with their listings and files with their contents are kept by location.
    [fs_writes] is the sequence of [writeFile] calls that succeeded, oldest
    first, with the paths as they were passed. *)

Record FS : Type := {
  fs_locate : string -> string;
  fs_parent : string -> string;
  fs_entry : string -> string;
  fs_denied : string -> bool;
  fs_dirs : gmap string (list string);
  fs_files : gmap string string;
  fs_writes : list (string * string)
}.

(** [(yield fs.stat(p)).isDirectory()] *)
Definition fs_stat (fs : FS) (p : string) : Result bool :=
  match fs_dirs fs !! fs_locate fs p with
  | Some _ => Ok true
  | None => match fs_files fs !! fs_locate fs p with
            | Some _ => Ok false
            | None => Throw (IOError p)
            end
  end.

Definition fs_readdir (fs : FS) (p : string) : Result (list string) :=
  match fs_dirs fs !! fs_locate fs p with
  | Some l => Ok l
  | None => Throw (IOError p)
  end.

Definition fs_readFile (fs : FS) (p : string) : Result string :=
  match fs_dirs fs !! fs_locate fs p with
  | Some _ => Throw (IOError p)
  | None => match fs_files fs !! fs_locate fs p with
            | Some c => Ok c
            | None => Throw (IOError p)
            end
  end.

(** A listing once [name] has been created in the directory.  Where a new
    name stands in a listing is the operating system's choice; it is put
    last here, and no statement below depends on the place. *)
Definition fs_link (name : string) (listing : list string) : list string :=
  if decide (name ∈ listing) then listing else listing ++ [name].

(** [fs.writeFile(p, content)] creates or overwrites the file and lists it
    in its directory; it fails on the empty path, on a path the operating
    system denies, on a directory, and when the directory that is to hold
    the file does not exist. *)
Definition fs_writeFile (p content : string) : M FS unit :=
  fun fs =>
    let location := fs_locate fs p in
    if decide (p = EmptyString) then (Throw (IOError p), fs)
    else if fs_denied fs p then (Throw (IOError p), fs)
    else match fs_dirs fs !! location with
         | Some _ => (Throw (IOError p), fs)
         | None =>
             match fs_dirs fs !! fs_parent fs location with
             | None => (Throw (IOError p), fs)
             | Some listing =>
                 (Ok tt, {| fs_locate := fs_locate fs;
                            fs_parent := fs_parent fs;
                            fs_entry := fs_entry fs;
                            fs_denied := fs_denied fs;
                            fs_dirs := <[fs_parent fs location :=
                                           fs_link (fs_entry fs location) listing]>
                                         (fs_dirs fs);
                            fs_files := <[location := content]> (fs_files fs);
                            fs_writes := fs_writes fs ++ [(p, content)] |})
             end
         end.

(** ** The transformer *)

Record Options : Type := {
  suppressErrors : bool;
  utilPath : option string;
  opt_implSuffix : option string
}.

Record Transformer : Type := {
  ctx : Context;
  options : Options;
  sources : list Source;
  modules : JSMap string
}.

(** [new Transformer(opts)]: [opts] may leave any option out. *)
Definition new_Transformer `{Collaborators} (opts_implSuffix : option string)
    (opts_suppressErrors : option bool) (opts_utilPath : option string) : Transformer :=
  {| ctx := new_Context opts_implSuffix;
     options := {| suppressErrors := default false opts_suppressErrors;
                   utilPath := opts_utilPath;
                   opt_implSuffix := opts_implSuffix |};
     sources := [];
     modules := [] |}.

Definition set_ctx (f : Context -> Context) (t : Transformer) : Transformer :=
  {| ctx := f (ctx t); options := options t;
     sources := sources t; modules := modules t |}.

Definition set_utilPath (u : option string) (t : Transformer) : Transformer :=
  {| ctx := ctx t;
     options := {| suppressErrors := suppressErrors (options t);
                   utilPath := u;
                   opt_implSuffix := opt_implSuffix (options t) |};
     sources := sources t; modules := modules t |}.

Definition set_sources (f : list Source -> list Source) (t : Transformer) : Transformer :=
  {| ctx := ctx t; options := options t;
     sources := f (sources t); modules := modules t |}.

Definition set_modules (f : JSMap string -> JSMap string) (t : Transformer) : Transformer :=
  {| ctx := ctx t; options := options t;
     sources := sources t; modules := f (modules t) |}.

(** A computation on [this.ctx] run inside a method of the transformer. *)
Definition on_ctx {A} (c : M Context A) : M Transformer A :=
  fun t => let '(r, ctx') := c (ctx t) in (r, set_ctx (fun _ => ctx') t).

(** Arguments of the public methods, as far as [typeof] tells them apart. *)
Inductive JSValue : Type :=
| JSUndefined
| JSString (s : string)
| JSOther.

Definition addSource (idl impl : JSValue) : M Transformer unit :=
  match idl with
  | JSString idl =>
      match impl with
      | JSString impl =>
          modify_state (set_sources
            (fun l => l ++ [ {| src_idlPath := idl; src_impl := impl |} ]))
      | _ => throw (TypeError "impl path has to be a string")
      end
  | _ => throw (TypeError "idl path has to be a string")
  end.

(** The default of [packageJSONPath] is computed first, when the argument is
    [undefined]; [path.posix.join] rejects a non-string segment. *)
Definition addModule `{Collaborators} (moduleName packageJSONPath : JSValue)
    : M Transformer unit :=
  packageJSONPath <-
    match packageJSONPath with
    | JSUndefined =>
        match moduleName with
        | JSString m =>
            lift_result (result_bind
              (require_resolve (path_posix_join m "package.json"))
              (fun p => Ok (JSString p)))
        | _ => throw (TypeError "Path must be a string")
        end
    | v => ret v
    end ;;
  match moduleName with
  | JSString moduleName =>
      match packageJSONPath with
      | JSString packageJSONPath =>
          modify_state (set_modules (JSMap.set moduleName packageJSONPath))
      | _ => throw (TypeError "package.json path has to be a string")
      end
  | _ => throw (TypeError "module name has to be a string")
  end.

(** ** Source collector *)

(** Body of the coroutine started for one entry of [this.sources]
    (lines 55-73): what it pushes onto [files] once it has run through. *)
Definition collect_source `{Collaborators} (fs : FS) (src : Source)
    : Result (list FileEntry) :=
  result_bind (fs_stat fs (src_idlPath src)) (fun isDirectory =>
    if isDirectory : bool then
      result_bind (fs_readdir fs (src_idlPath src)) (fun folderContents =>
        Ok (map (fun file => {| idlPath := path_join (src_idlPath src) file;
                                file_impl := Some (src_impl src);
                                file_genPath := None |})
                (filter (fun file => endsWith file ".idl" = true) folderContents)))
    else
      Ok [ {| idlPath := src_idlPath src;
              file_impl := Some (src_impl src);
              file_genPath := None |} ]).

(** Body of the coroutine started for one entry of [this.modules]
    (lines 77-90). *)
Definition collect_module `{Collaborators} (fs : FS) (entry : string * string)
    : Result (list FileEntry) :=
  let '(modName, packageJSON) := entry in
  result_bind (fs_readFile fs packageJSON) (fun text =>
  result_bind (JSON_parse text) (fun pkg =>
    match webidl2js pkg with
    | None => Ok []
    | Some section =>
        let modPath := path_dirname packageJSON in
        let genPath := path_posix_join modName (pkg_interface section) in
        Ok (map (fun file => {| idlPath := path_resolve modPath file;
                                file_impl := None;
                                file_genPath := Some genPath |})
                (pkg_idl section))
    end)).

(** The coroutines push onto the shared [files] as they complete.  [order]
    lists the indices of [promises] in order of completion; the first
    rejection rejects [Promise.all] and with it the collection. *)
Fixpoint settle (order : list nat) (promises : list (Result (list FileEntry)))
    (files : list FileEntry) : Result (list FileEntry) :=
  match order with
  | [] => Ok files
  | i :: order' =>
      match promises !! i with
      | Some (Ok pushed) => settle order' promises (files ++ pushed)
      | Some (Throw e) => Throw e
      | None => settle order' promises files
      end
  end.

Definition _collectSources `{Collaborators} (order : list nat) (t : Transformer) (fs : FS)
    : Result (list FileEntry) :=
  let promises := map (collect_source fs) (sources t)
                  ++ map (collect_module fs) (modules t) in
  settle order promises [].

(** ** Document loader *)

Definition _readFiles (files : list FileEntry) (fs : FS) : Result (list LoadedDocument) :=
  result_bind (map_result (fun f => fs_readFile fs (idlPath f)) files) (fun fileContents =>
    Ok (omap (fun i =>
                match fileContents !! i, files !! i with
                | Some content, Some f =>
                    Some {| idlContent := content;
                            content_impl := file_impl f;
                            content_genPath := file_genPath f |}
                | _, _ => None
                end)
             (seq 0 (length files)))).

(** ** Model builder: [_parse] *)

Section ModelBuilder.
Context `{Collaborators}.
Variable suppress : bool.
Variable outputDir : string.

(** Body of the first loop (lines 122-157). *)
Definition pass1_instruction (file : ParsedDocument) (instruction : Instruction)
    : M Context unit :=
  if decide (type instruction = "interface") then
    if partial instruction then ret tt
    else
      let obj := new_Interface instruction
                   (and_then (impl file) (path_resolve outputDir))
                   (and_then (genPath file)
                      (fun g => path_join g (name instruction ++ ".js"))) in
      modify_state (set_interfaces (JSMap.set (iface_name obj) obj)) ;;;
      modify_state (set_customTypes (JSMap.set (iface_name obj) "interface"))
  else if decide (type instruction = "implements") then ret tt
  else if decide (type instruction = "dictionary") then
    if partial instruction then ret tt
    else
      let obj := new_Dictionary instruction
                   (and_then (genPath file)
                      (fun g => path_join g (name instruction ++ ".js"))) in
      modify_state (set_dictionaries (JSMap.set (dict_name obj) obj)) ;;;
      modify_state (set_customTypes (JSMap.set (dict_name obj) "dictionary"))
  else if decide (type instruction = "typedef") then
    let obj := new_Typedef instruction in
    modify_state (set_typedefs (JSMap.set (td_name obj) obj))
  else if suppress then ret tt
  else throw (GenericError ("Can't convert type '" ++ type instruction ++ "'")).

(** Body of the second loop (lines 164-198).  Reading a property of
    [undefined], the result of [get] on a missing key, is a TypeError. *)
Definition pass2_instruction (instruction : Instruction) : M Context unit :=
  if decide (type instruction = "interface") then
    if negb (partial instruction) then ret tt
    else
      ctx <- get_state ;;
      if suppress && negb (JSMap.has (name instruction) (interfaces ctx))
      then ret tt
      else match JSMap.get (name instruction) (interfaces ctx) with
           | None => throw (TypeError "Cannot read property 'idl' of undefined")
           | Some _ =>
               modify_state (set_interfaces
                 (JSMap.mutate (name instruction)
                    (Interface_push (members instruction) (extAttrs instruction))))
           end
  else if decide (type instruction = "dictionary") then
    if negb (partial instruction) then ret tt
    else
      ctx <- get_state ;;
      if suppress && negb (JSMap.has (name instruction) (dictionaries ctx))
      then ret tt
      else match JSMap.get (name instruction) (dictionaries ctx) with
           | None => throw (TypeError "Cannot read property 'idl' of undefined")
           | Some _ =>
               modify_state (set_dictionaries
                 (JSMap.mutate (name instruction)
                    (Dictionary_push (members instruction) (extAttrs instruction))))
           end
  else if decide (type instruction = "implements") then
    ctx <- get_state ;;
    if suppress && negb (JSMap.has (target instruction) (interfaces ctx))
    then ret tt
    else match JSMap.get (target instruction) (interfaces ctx) with
         | None => throw (TypeError "Cannot read property 'implements' of undefined")
         | Some _ =>
             modify_state (set_interfaces
               (JSMap.mutate (target instruction)
                  (Interface_implements (implements instruction))))
         end
  else ret tt.

Definition pass1 (parsed : list ParsedDocument) : M Context unit :=
  for_each (fun file => for_each (pass1_instruction file) (idl file)) parsed.

Definition pass2 (parsed : list ParsedDocument) : M Context unit :=
  for_each (fun file => for_each pass2_instruction (idl file)) parsed.

(** [contents.map(content => ({ idl: webidl.parse(...), ... }))] *)
Definition parse_contents (contents : list LoadedDocument) : Result (list ParsedDocument) :=
  map_result (fun content =>
                result_bind (webidl_parse (idlContent content)) (fun instructions =>
                  Ok {| idl := instructions;
                        impl := content_impl content;
                        genPath := content_genPath content |}))
             contents.
End ModelBuilder.

Definition _parse `{Collaborators} (outputDir : string) (contents : list LoadedDocument)
    : M Transformer unit :=
  parsed <- lift_result (parse_contents contents) ;;
  t <- get_state ;;
  on_ctx (pass1 (suppressErrors (options t)) outputDir parsed ;;;
          pass2 (suppressErrors (options t)) parsed).

(** ** Emission driver *)

Record World : Type := { this : Transformer; disk : FS }.

Definition on_this {A} (c : M Transformer A) : M World A :=
  fun w => let '(r, t') := c (this w) in (r, {| this := t'; disk := disk w |}).

Definition on_disk {A} (c : M FS A) : M World A :=
  fun w => let '(r, fs') := c (disk w) in (r, {| this := this w; disk := fs' |}).

Definition _prettify `{Collaborators} (source : string) : Result string :=
  prettier_format source.

(** [path.relative(from, to).replace(/\\/g, "/")]; [path.relative] rejects
    an argument that is not a string. *)
Definition relative_slashes `{Collaborators} (from : string) (to : option string)
    : Result string :=
  match to with
  | None => Throw (TypeError "Path must be a string")
  | Some to => Ok (replace_backslashes (path_relative from to))
  end.

(** The template literal of lines 227-234. *)
Definition interface_module (relativeUtils source implFile : string) : string :=
  newline ++ "        " ++ dquote ++ "use strict" ++ dquote ++ ";" ++ newline
  ++ newline
  ++ "        const conversions = require(" ++ dquote ++ "webidl-conversions"
  ++ dquote ++ ");" ++ newline
  ++ "        const utils = require(" ++ dquote ++ relativeUtils ++ dquote ++ ");"
  ++ newline
  ++ "        " ++ source ++ newline
  ++ "        const Impl = require(" ++ dquote ++ implFile ++ ".js" ++ dquote ++ ");"
  ++ newline
  ++ "      ".

(** The template literal of lines 253-259. *)
Definition dictionary_module (relativeUtils source : string) : string :=
  newline ++ "        " ++ dquote ++ "use strict" ++ dquote ++ ";" ++ newline
  ++ newline
  ++ "        const conversions = require(" ++ dquote ++ "webidl-conversions"
  ++ dquote ++ ");" ++ newline
  ++ "        const utils = require(" ++ dquote ++ relativeUtils ++ dquote ++ ");"
  ++ newline
  ++ "        " ++ source ++ newline
  ++ "      ".

(** The text written for one interface (lines 214-236). *)
Definition interface_source `{Collaborators} (outputDir : string) (t : Transformer)
    (obj : Interface) : Result string :=
  let source := Interface_toString (ctx t) obj in
  result_bind (relative_slashes outputDir (implDir obj)) (fun implDir =>
    let implFile := force_relative (implDir ++ "/" ++ iface_name obj ++ implSuffix (ctx t)) in
    result_bind (relative_slashes outputDir (utilPath (options t))) (fun relativeUtils =>
      let relativeUtils := force_relative relativeUtils in
      _prettify (interface_module relativeUtils source implFile))).

(** The text written for one dictionary (lines 246-261). *)
Definition dictionary_source `{Collaborators} (outputDir : string) (t : Transformer)
    (obj : Dictionary) : Result string :=
  let source := Dictionary_toString (ctx t) obj in
  result_bind (relative_slashes outputDir (utilPath (options t))) (fun relativeUtils =>
    let relativeUtils := force_relative relativeUtils in
    _prettify (dictionary_module relativeUtils source)).

Definition write_interface `{Collaborators} (outputDir : string) (obj : Interface)
    : M World unit :=
  if Interface_imported obj then ret tt
  else
    w <- get_state ;;
    source <- lift_result (interface_source outputDir (this w) obj) ;;
    on_disk (fs_writeFile (path_join outputDir (iface_name obj ++ ".js")) source).

Definition write_dictionary `{Collaborators} (outputDir : string) (obj : Dictionary)
    : M World unit :=
  if Dictionary_imported obj then ret tt
  else
    w <- get_state ;;
    source <- lift_result (dictionary_source outputDir (this w) obj) ;;
    on_disk (fs_writeFile (path_join outputDir (dict_name obj ++ ".js")) source).

(** [fs.writeFile] rejects a path that is [undefined]. *)
Definition _writeFiles `{Collaborators} (outputDir : string) : M World unit :=
  w <- get_state ;;
  utilsText <- lift_result (fs_readFile (disk w) (path_resolve __dirname "output/utils.js")) ;;
  match utilPath (options (this w)) with
  | None => throw (TypeError "path must be a string or Buffer")
  | Some p => on_disk (fs_writeFile p utilsText)
  end ;;;
  for_each (write_interface outputDir) (JSMap.values (interfaces (ctx (this w)))) ;;;
  for_each (write_dictionary outputDir) (JSMap.values (dictionaries (ctx (this w)))).

(** [generate(outputDir)], run to the settlement of the promise it returns.
    [order] is the order in which the coroutines of [_collectSources]
    complete during this call. *)
Definition generate `{Collaborators} (outputDir : string) (order : list nat) : M World unit :=
  on_this (t <- get_state ;;
           if falsy (utilPath (options t))
           then modify_state (set_utilPath (Some (path_join outputDir "utils.js")))
           else ret tt) ;;;
  on_this (modify_state (set_ctx Context_initialize)) ;;;
  w <- get_state ;;
  sources <- lift_result (_collectSources order (this w) (disk w)) ;;
  contents <- lift_result (_readFiles sources (disk w)) ;;
  on_this (_parse outputDir contents) ;;;
  _writeFiles outputDir.
End Pipeline.
Arguments Instruction : clear implicits.
Arguments ParsedDocument : clear implicits.
Arguments Interface : clear implicits.
Arguments Dictionary : clear implicits.
Arguments Typedef : clear implicits.
Arguments Context : clear implicits.
Arguments Transformer : clear implicits.
Arguments Collaborators : clear implicits.
Arguments World : clear implicits.

(** ** Vocabulary of the properties *)

Section Vocabulary.
Context {Member ExtAttr : Type}.
Local Abbreviation Instruction := (Instruction Member ExtAttr).
Local Abbreviation ParsedDocument := (ParsedDocument Member ExtAttr).
Local Abbreviation Interface := (Interface Member ExtAttr).
Local Abbreviation Context := (Context Member ExtAttr).

(** The instructions of all documents in processing order, each with the
    document it comes from. *)
Definition instructions (parsed : list ParsedDocument)
    : list (ParsedDocument * Instruction) :=
  flat_map (fun file => map (pair file) (idl file)) parsed.

(** A full (non-partial) declaration of kind [kind] named [n]. *)
Definition full_decl (kind n : string) (p : ParsedDocument * Instruction) : Prop :=
  type p.2 = kind /\ partial p.2 = false /\ name p.2 = n.

(** A partial declaration of kind [kind] named [n]. *)
Definition partial_decl (kind n : string) (p : ParsedDocument * Instruction) : Prop :=
  type p.2 = kind /\ partial p.2 = true /\ name p.2 = n.

(** A full interface or dictionary named [n]: what the combined index
    records. *)
Definition custom_decl (n : string) (p : ParsedDocument * Instruction) : Prop :=
  full_decl "interface" n p \/ full_decl "dictionary" n p.

Definition typedef_decl (n : string) (p : ParsedDocument * Instruction) : Prop :=
  type p.2 = "typedef" /\ name p.2 = n.

(** An [implements] statement whose target is [n]. *)
Definition implements_decl (n : string) (p : ParsedDocument * Instruction) : Prop :=
  type p.2 = "implements" /\ target p.2 = n.

(** An instruction kind the first loop has no case for. *)
Definition unrecognized (i : Instruction) : Prop :=
  type i <> "interface" /\ type i <> "implements"
  /\ type i <> "dictionary" /\ type i <> "typedef".

#[global] Instance full_decl_dec kind n p : Decision (full_decl kind n p).
Proof. unfold full_decl. apply _. Defined.
#[global] Instance partial_decl_dec kind n p : Decision (partial_decl kind n p).
Proof. unfold partial_decl. apply _. Defined.
#[global] Instance custom_decl_dec n p : Decision (custom_decl n p).
Proof. unfold custom_decl. apply _. Defined.
#[global] Instance typedef_decl_dec n p : Decision (typedef_decl n p).
Proof. unfold typedef_decl. apply _. Defined.
#[global] Instance implements_decl_dec n p : Decision (implements_decl n p).
Proof. unfold implements_decl. apply _. Defined.
#[global] Instance unrecognized_dec i : Decision (unrecognized i).
Proof. unfold unrecognized. apply _. Defined.

(** What the second loop does at one instruction to the interface
    registered under [n], and to the dictionary registered under [n]. *)
Definition merge_interface (n : string) (p : ParsedDocument * Instruction)
    (obj : Interface) : Interface :=
  if decide (partial_decl "interface" n p)
  then Interface_push (members p.2) (extAttrs p.2) obj
  else if decide (implements_decl n p)
       then Interface_implements (implements p.2) obj
       else obj.

Definition merge_dictionary (n : string) (p : ParsedDocument * Instruction)
    (obj : Dictionary Member ExtAttr) : Dictionary Member ExtAttr :=
  if decide (partial_decl "dictionary" n p)
  then Dictionary_push (members p.2) (extAttrs p.2) obj
  else obj.

(** The members contributed to [n] by partial declarations, in processing
    order, and the mixins recorded on [n]. *)
Definition partial_members (kind n : string)
    (l : list (ParsedDocument * Instruction)) : list Member :=
  flat_map (fun p => members p.2) (filter (partial_decl kind n) l).

Definition partial_extAttrs (kind n : string)
    (l : list (ParsedDocument * Instruction)) : list ExtAttr :=
  flat_map (fun p => extAttrs p.2) (filter (partial_decl kind n) l).

Definition recorded_mixins (n : string)
    (l : list (ParsedDocument * Instruction)) : list string :=
  map (fun p => implements p.2) (filter (implements_decl n) l).

(** What the second loop needs of the registry to get past an
    instruction without [suppressErrors]. *)
Definition resolvable (c : Context) (i : Instruction) : Prop :=
  (type i = "interface" -> partial i = true ->
     JSMap.has (name i) (interfaces c) = true)
  /\ (type i = "dictionary" -> partial i = true ->
        JSMap.has (name i) (dictionaries c) = true)
  /\ (type i = "implements" ->
        JSMap.has (target i) (interfaces c) = true).

#[global] Instance resolvable_dec c i : Decision (resolvable c i).
Proof. unfold resolvable. apply _. Defined.

(** Two registries with the same interface and dictionary names: they
    resolve the same instructions. *)
Definition same_names (c c' : Context) : Prop :=
  (forall n, JSMap.has n (interfaces c') = JSMap.has n (interfaces c))
  /\ (forall n, JSMap.has n (dictionaries c') = JSMap.has n (dictionaries c)).

(** The input with the instruction at position [k] of document [d] left
  out. *)
Definition omit_instruction (d k : nat) (parsed : list ParsedDocument)
  : list ParsedDocument :=
alter (fun doc => {| idl := delete k (idl doc);
                     impl := impl doc;
                     genPath := genPath doc |}) d parsed.

(** An instruction of one of the error classes, for the input [parsed]
  resolved on top of the registry [c]: an unrecognized kind, a partial
  interface or dictionary without a full definition, or an [implements]
  statement whose target is no registered interface. *)
Definition offending (c : Context) (parsed : list ParsedDocument)
  (i : Instruction) : Prop :=
unrecognized i
\/ (type i = "interface" /\ partial i = true
    /\ JSMap.has (name i) (interfaces c) = false
    /\ Forall (fun p => ~ full_decl "interface" (name i) p) (instructions parsed))
\/ (type i = "dictionary" /\ partial i = true
    /\ JSMap.has (name i) (dictionaries c) = false
    /\ Forall (fun p => ~ full_decl "dictionary" (name i) p) (instructions parsed))
\/ (type i = "implements"
    /\ JSMap.has (target i) (interfaces c) = false
    /\ Forall (fun p => ~ full_decl "interface" (target i) p) (instructions parsed)).

(** A registry in which nothing is registered yet, as [ctx.initialize()]
    leaves it. *)
Definition fresh_registry (c : Context) : Prop :=
  interfaces c = [] /\ dictionaries c = [] /\ typedefs c = [] /\ customTypes c = [].

(** The three kind-specific maps share no name. *)
Definition kinds_disjoint (c : Context) : Prop :=
  forall n,
    (JSMap.has n (interfaces c) = true -> JSMap.has n (dictionaries c) = false)
    /\ (JSMap.has n (interfaces c) = true -> JSMap.has n (typedefs c) = false)
    /\ (JSMap.has n (dictionaries c) = true -> JSMap.has n (typedefs c) = false).

(** The combined index agrees with the kind-specific maps: a name it
    records as an interface is in the interfaces map and in no other, and
    likewise for dictionaries; every interface and dictionary is recorded. *)
Definition index_consistent (c : Context) : Prop :=
  forall n,
    (JSMap.get n (customTypes c) = Some "interface" <->
       JSMap.has n (interfaces c) = true)
    /\ (JSMap.get n (customTypes c) = Some "dictionary" <->
          JSMap.has n (dictionaries c) = true).
(** What the coroutine of index [i] has pushed, if it ran through. *)
Definition settled (promises : list (Result (list FileEntry))) (i : nat)
  : option (list FileEntry) :=
match promises !! i with
| Some (Ok pushed) => Some pushed
| _ => None
end.

(** The entries of a directory source as the specification words them: one
  per directly-contained file whose name ends in the IDL extension,
  subdirectories yielding none. *)
Definition directory_entries_of_files `{!Collaborators Member ExtAttr}
  (fs : FS) (src : Source) (folderContents : list string) : list FileEntry :=
map (fun file => {| idlPath := path_join (src_idlPath src) file;
                    file_impl := Some (src_impl src);
                    file_genPath := None |})
    (filter (fun file => endsWith file ".idl" = true
                         /\ fs_stat fs (path_join (src_idlPath src) file) = Ok false)
            folderContents).
(** The utility path a call of [generate] works with. *)
Definition effective_utilPath `{!Collaborators Member ExtAttr}
  (outputDir : string) (t : Transformer Member ExtAttr) : string :=
match utilPath (options t) with
| Some p => if decide (p = EmptyString) then path_join outputDir "utils.js" else p
| None => path_join outputDir "utils.js"
end.

(** The state in which [generate] enters its phases. *)
Definition entered `{!Collaborators Member ExtAttr}
  (outputDir : string) (t : Transformer Member ExtAttr) : Transformer Member ExtAttr :=
set_ctx Context_initialize
  (set_utilPath (Some (effective_utilPath outputDir t)) t).

(** [writes] are the files written for the interfaces [objs] that are not
  imported, in order: each at [<outputDir>/<name>.js], holding the text
  [interface_source] makes for it. *)
Definition interface_files `{!Collaborators Member ExtAttr}
  (outputDir : string) (t : Transformer Member ExtAttr)
  (objs : list Interface) (writes : list (string * string)) : Prop :=
Forall2 (fun obj wr =>
           wr.1 = path_join outputDir (iface_name obj ++ ".js")
           /\ interface_source outputDir t obj = Ok wr.2)
        (filter (fun obj => Interface_imported obj = false) objs) writes.

Definition dictionary_files `{!Collaborators Member ExtAttr}
  (outputDir : string) (t : Transformer Member ExtAttr)
  (objs : list (Dictionary Member ExtAttr)) (writes : list (string * string)) : Prop :=
Forall2 (fun obj wr =>
           wr.1 = path_join outputDir (dict_name obj ++ ".js")
           /\ dictionary_source outputDir t obj = Ok wr.2)
        (filter (fun obj => Dictionary_imported obj = false) objs) writes.

End Vocabulary.

(** ** Further vocabulary *)

Section Requirements.
Context {Member ExtAttr : Type}.
Local Abbreviation Instruction := (Instruction Member ExtAttr).
Local Abbreviation ParsedDocument := (ParsedDocument Member ExtAttr).

(** What strict mode asks of an instruction, in terms of the input alone:
    its kind is one the first loop knows, a partial interface or dictionary
    comes with a full declaration of its kind and name somewhere in the
    input, and the target of an [implements] statement with a full
    interface. *)
Definition well_resolved (l : list (ParsedDocument * Instruction))
    (i : Instruction) : Prop :=
  ~ unrecognized i
  /\ (type i = "interface" -> partial i = true ->
        Exists (full_decl "interface" (name i)) l)
  /\ (type i = "dictionary" -> partial i = true ->
        Exists (full_decl "dictionary" (name i)) l)
  /\ (type i = "implements" -> Exists (full_decl "interface" (target i)) l).

(** The first character of a path is a dot; a path holds no backslash. *)
Definition starts_with_dot (p : string) : Prop :=
  exists rest, p = String "."%char rest.

Fixpoint no_backslash (p : string) : Prop :=
  match p with
  | EmptyString => True
  | String c p' => c <> "\"%char /\ no_backslash p'
  end.
End Requirements.

(** * The entry of a bundle: [binding.bootstrap] ([src/unnamed/part_000])

    [allExports] is the object that the generated modules are added to; it is
    kept as the list of its own enumerable properties in the order of
    [Object.keys].  Of an exported module the code reads [obj.expose] and,
    there, the entry of the global interface. *)

Module binding.
Section binding.
Context {Value : Type}.

(** A property of the global object. *)
Inductive Property : Type :=
| DataProperty (value : Value) (writable enumerable configurable : bool)
| AccessorProperty (enumerable configurable : bool).

Definition configurable (current : Property) : bool :=
  match current with
  | DataProperty _ _ _ c => c
  | AccessorProperty _ c => c
  end.

Record Global : Type := {
  properties : gmap string Property;
  extensible : bool
}.

(** Whether [Object.defineProperty(global, exposed, { configurable: true, ... })]
    is allowed: a property that exists has to be configurable, one that does
    not needs an extensible object. *)
Definition definable (global : Global) (exposed : string) : bool :=
  match properties global !! exposed with
  | Some current => configurable current
  | None => extensible global
  end.

Definition define (exposed : string) (value : Value) (global : Global) : Global :=
  {| properties := <[exposed := DataProperty value true false true]> (properties global);
     extensible := extensible global |}.

(** [Object.defineProperty(global, exposed, { writable: true, enumerable: false,
    configurable: true, value })] (lines 10-15).  It throws a TypeError when
    the definition is not allowed; the wording of the message is the
    engine's, and no statement below depends on it. *)
Definition defineProperty (exposed : string) (value : Value) : M Global unit :=
  fun global =>
    if definable global exposed then (Ok tt, define exposed value global)
    else (Throw (TypeError ("Cannot redefine property: " ++ exposed)), global).

(** What [obj.expose[globalInterface]] is, as far as line 8 and line 9 tell:
    an object, with its own enumerable properties in the order of
    [Object.keys]; [null], whose [typeof] is ["object"] as well; or a value
    whose [typeof] is something else, [undefined] for a missing entry. *)
Inductive Exposure : Type :=
| ExposedObject (entries : list (string * Value))
| ExposedNull
| NotAnObject.

(** An exported module; [expose] is [None] when [obj.expose] is [undefined]
    or [null], so that reading a property of it throws. *)
Record Export : Type := {
  expose : option (string -> Exposure)
}.

(** Body of the outer loop (lines 7-17). *)
Definition bootstrap_export (globalInterface : string) (obj : Export) : M Global unit :=
  match expose obj with
  | None => throw (TypeError "Cannot read property of undefined")
  | Some expose =>
      match expose globalInterface with
      | ExposedObject entries =>
          for_each (fun entry => defineProperty entry.1 entry.2) entries
      | ExposedNull => throw (TypeError "Cannot convert undefined or null to object")
      | NotAnObject => ret tt
      end
  end.

Definition bootstrap (allExports : list (string * Export)) (globalInterface : string)
    : M Global unit :=
  for_each (fun export => bootstrap_export globalInterface export.2) allExports.

(** ** Vocabulary *)

(** The export can be read and does not expose [null]. *)
Definition exposable (globalInterface : string) (obj : Export) : bool :=
  match expose obj with
  | None => false
  | Some expose =>
      match expose globalInterface with
      | ExposedNull => false
      | _ => true
      end
  end.

(** Everything exposed on the global interface, in the order of the loops. *)
Definition exposures (allExports : list (string * Export)) (globalInterface : string)
    : list (string * Value) :=
  flat_map (fun export =>
              match expose export.2 with
              | Some expose =>
                  match expose globalInterface with
                  | ExposedObject entries => entries
                  | _ => []
                  end
              | None => []
              end)
           allExports.

Definition defined (entries : list (string * Value)) (global : Global) : Global :=
  foldl (fun global entry => define entry.1 entry.2 global) global entries.

End binding.
Arguments Property : clear implicits.
Arguments Global : clear implicits.
Arguments Exposure : clear implicits.
Arguments Export : clear implicits.
End binding.

(** ** Concrete collaborators and inputs

    A small instance of the collaborators, used to run the transformer on
    concrete inputs: paths are joined with a slash, the parser and the
    descriptor reader are given by tables from text to syntax, the formatter
    is the identity, and a construct counts as imported when it carries an
    output path hint. *)

Module Demo.

Definition lookup_table {A} (table : list (string * A)) (text : string) : Result A :=
  match JSMap.get text table with
  | Some a => Ok a
  | None => Throw SyntaxError
  end.

Definition slash (a b : string) : string := a ++ "/" ++ b.

(** The path up to its last slash. *)
Fixpoint before_last_slash (p : string) : option string :=
  match p with
  | EmptyString => None
  | String c p' =>
      match before_last_slash p' with
      | Some d => Some (String c d)
      | None => if decide (c = "/"%char) then Some EmptyString else None
      end
  end.

Definition dirname (p : string) : string := default "." (before_last_slash p).

Definition collaborators
    (idl_table : list (string * list (Instruction string string)))
    (json_table : list (string * PackageJSON)) : Collaborators string string :=
  {| path_join := slash;
     path_posix_join := slash;
     path_resolve := slash;
     path_relative := fun from to => to;
     path_dirname := dirname;
     __dirname := "lib";
     require_resolve := fun request => Ok ("node_modules/" ++ request)%string;
     webidl_parse := lookup_table idl_table;
     JSON_parse := lookup_table json_table;
     prettier_format := fun source => Ok source;
     Context_implSuffix := default EmptyString;
     Interface_imported := fun obj => bool_decide (is_Some (iface_path obj));
     Interface_toString := fun _ obj => ("class " ++ iface_name obj)%string;
     Dictionary_imported := fun obj => bool_decide (is_Some (dict_path obj));
     Dictionary_toString := fun _ obj => ("dictionary " ++ dict_name obj)%string |}.

Definition interface_ (partial : bool) (name : string) (members : list string)
    : Instruction string string :=
  {| type := "interface"; partial := partial; name := name; members := members;
     extAttrs := []; target := EmptyString; implements := EmptyString |}.

Definition dictionary_ (partial : bool) (name : string) (members : list string)
    : Instruction string string :=
  {| type := "dictionary"; partial := partial; name := name; members := members;
     extAttrs := []; target := EmptyString; implements := EmptyString |}.

Definition typedef_ (name : string) : Instruction string string :=
  {| type := "typedef"; partial := false; name := name; members := [];
     extAttrs := []; target := EmptyString; implements := EmptyString |}.

Definition implements_ (target source : string) : Instruction string string :=
  {| type := "implements"; partial := false; name := EmptyString; members := [];
     extAttrs := []; target := target; implements := source |}.

Definition other_ (type : string) (name : string) : Instruction string string :=
  {| type := type; partial := false; name := name; members := [];
     extAttrs := []; target := EmptyString; implements := EmptyString |}.

Definition document (text : string) : LoadedDocument :=
  {| idlContent := text; content_impl := Some "impl"; content_genPath := None |}.

(** One document declaring an interface, a dictionary and a typedef of the
    same name. *)
Definition collision_table : list (string * list (Instruction string string)) :=
  [ ("interface Foo {}; dictionary Foo {}; typedef long Foo;",
     [ interface_ false "Foo" []; dictionary_ false "Foo" []; typedef_ "Foo" ]) ].

(** The documents of the end-to-end scenario, and one with an [enum]. *)
Definition scenario_table : list (string * list (Instruction string string)) :=
  [ ("interface Foo { long x; };", [ interface_ false "Foo" ["x"] ]);
    ("partial interface Foo { long y; }; interface Bar { }; Bar implements Foo;",
     [ interface_ true "Foo" ["y"]; interface_ false "Bar" [];
       implements_ "Bar" "Foo" ]);
    ("interface Foo { long x; }; enum E { };",
     [ interface_ false "Foo" ["x"]; other_ "enum" "E" ]);
    ("interface Foo { long x; };;",
     [ interface_ false "Foo" ["x"] ]);
    ("interface Bar { }; Bar implements Missing;",
     [ interface_ false "Bar" []; implements_ "Bar" "Missing" ]) ].

(** [./a/b] and [a/b] name one location. *)
Definition locate (p : string) : string :=
  match p with
  | String "." (String "/" rest) => rest
  | _ => p
  end.

(** The path after its last slash. *)
Fixpoint after_last_slash (p : string) : string :=
  match p with
  | EmptyString => EmptyString
  | String c p' =>
      match before_last_slash p' with
      | Some _ => after_last_slash p'
      | None => if decide (c = "/"%char) then p' else p
      end
  end.

Definition file_system (dirs : list (string * list string))
    (files : list (string * string)) : FS :=
  {| fs_locate := locate; fs_parent := dirname; fs_entry := after_last_slash;
     fs_denied := fun _ => false;
     fs_dirs := list_to_map dirs; fs_files := list_to_map files; fs_writes := [] |}.

(** A directory [idl] holding two IDL files, a text file and a subdirectory
    whose name ends in [.idl]; a single file without the extension; a
    template of the utility module; and two empty directories [out] and
    [dist] to generate into. *)
Definition volume : FS :=
  file_system
    [ (".", ["idl"; "single.webidl"; "lib"; "node_modules"; "out"; "dist"]);
      ("idl", ["A.idl"; "notes.txt"; "B.idl"; "sub.idl"]);
      ("idl/sub.idl", ["C.idl"]);
      ("lib", ["output"]);
      ("lib/output", ["utils.js"]);
      ("node_modules", ["dep"; "plain"]);
      ("node_modules/dep", ["package.json"]);
      ("node_modules/plain", ["package.json"]);
      ("out", []);
      ("dist", []) ]
    [ ("idl/A.idl", "interface Foo { long x; };");
      ("idl/B.idl",
       "partial interface Foo { long y; }; interface Bar { }; Bar implements Foo;");
      ("idl/notes.txt", "notes");
      ("idl/sub.idl/C.idl", "interface Baz { };");
      ("single.webidl", "interface Foo { long x; };");
      ("lib/output/utils.js", "module.exports = {};");
      ("node_modules/dep/package.json", "{ webidl2js: ... }");
      ("node_modules/plain/package.json", "{ }") ].

Definition json_table : list (string * PackageJSON) :=
  [ ("{ webidl2js: ... }",
     {| webidl2js := Some {| pkg_interface := "generated";
                             pkg_idl := ["x.idl"; "y.idl"] |} |});
    ("{ }", {| webidl2js := None |}) ].

Definition transformer (env : Collaborators string string) (suppress : bool)
    : Transformer string string :=
  @new_Transformer _ _ env None (Some suppress) None.

(** A transformer with the two files of the scenario registered, on the
    disk above. *)
Definition world (env : Collaborators string string) : World string string :=
  {| this := ((addSource (JSString "idl/A.idl") (JSString "impl") ;;;
               addSource (JSString "idl/B.idl") (JSString "impl"))
                (transformer env false)).2;
     disk := volume |}.

End Demo.

(** Further sample inputs. *)
Module Samples.

Definition table : list (string * list (Instruction string string)) :=
  [ ("dictionary Init { long a; }; typedef long N; partial dictionary Init { long b; };",
     [ Demo.dictionary_ false "Init" ["a"]; Demo.typedef_ "N";
       Demo.dictionary_ true "Init" ["b"] ]);
    ("interface Foo { long x; };", [ Demo.interface_ false "Foo" ["x"] ]);
    ("interface Bar { }; enum E { }; interface Baz { };",
     [ Demo.interface_ false "Bar" []; Demo.other_ "enum" "E";
       Demo.interface_ false "Baz" [] ]) ].

Definition env : Collaborators string string := Demo.collaborators table Demo.json_table.

Definition parsed_init : ParsedDocument string string :=
  {| idl := [ Demo.dictionary_ false "Init" ["a"]; Demo.typedef_ "N";
              Demo.dictionary_ true "Init" ["b"] ];
     impl := Some "impl"; genPath := None |}.

Definition parsed_foo : ParsedDocument string string :=
  {| idl := [ Demo.interface_ false "Foo" ["x"] ];
     impl := Some "impl"; genPath := None |}.

Definition parsed_enum : ParsedDocument string string :=
  {| idl := [ Demo.interface_ false "Bar" []; Demo.other_ "enum" "E";
              Demo.interface_ false "Baz" [] ];
     impl := Some "impl"; genPath := None |}.

Definition init_text : string :=
  "dictionary Init { long a; }; typedef long N; partial dictionary Init { long b; };".

(** Two sources and a module registered; and the same with a source whose
    path does not exist. *)
Definition registered : Transformer string string :=
  ((addSource (JSString "idl/A.idl") (JSString "impl") ;;;
    addSource (JSString "single.webidl") (JSString "impl") ;;;
    @addModule _ _ env (JSString "dep") JSUndefined)
     (Demo.transformer env false)).2.

Definition registered_missing : Transformer string string :=
  (addSource (JSString "nowhere") (JSString "impl") registered).2.

(** Collaborators for which no construct counts as imported and whose
    [path.relative] answers in the manner of Windows. *)
Definition backslashed (from to : string) : string := "..\" ++ to.

Definition env_all_emitted : Collaborators string string :=
  {| path_join := Demo.slash;
     path_posix_join := Demo.slash;
     path_resolve := Demo.slash;
     path_relative := backslashed;
     path_dirname := Demo.dirname;
     __dirname := "lib";
     require_resolve := fun request => Ok ("node_modules/" ++ request)%string;
     webidl_parse := Demo.lookup_table table;
     JSON_parse := Demo.lookup_table Demo.json_table;
     prettier_format := fun source => Ok source;
     Context_implSuffix := default EmptyString;
     Interface_imported := fun _ => false;
     Interface_toString := fun _ obj => ("class " ++ iface_name obj)%string;
     Dictionary_imported := fun _ => false;
     Dictionary_toString := fun _ obj => ("dictionary " ++ dict_name obj)%string |}.

(** The registry built from one document contributed by a module. *)
Definition from_module : World string string :=
  {| this := (@_parse _ _ env_all_emitted "out"
                [ {| idlContent := "interface Foo { long x; };";
                     content_impl := None;
                     content_genPath := Some "dep/generated" |} ]
                (set_utilPath (Some "out/utils.js")
                   (Demo.transformer env_all_emitted false))).2;
     disk := Demo.volume |}.

Definition unreachable_source : World string string :=
  {| this := (addSource (JSString "nowhere") (JSString "impl")
                (Demo.transformer env false)).2;
     disk := Demo.volume |}.

(** A bundle of two modules and a global object with an accessor ["Foo"]. *)
Definition on_window (entries : list (string * nat)) : binding.Export nat :=
  {| binding.expose :=
       Some (fun globalInterface =>
               if decide (globalInterface = "Window") then binding.ExposedObject entries
               else binding.NotAnObject) |}.

Definition allExports : list (string * binding.Export nat) :=
  [ ("Foo", on_window [("Foo", 1)]);
    ("Bar", on_window [("Bar", 2); ("Foo", 3)]) ].

Definition exposing_null : binding.Export nat :=
  {| binding.expose := Some (fun _ => binding.ExposedNull) |}.

Definition window : binding.Global nat :=
  {| binding.properties :=
       {[ "Foo" := binding.AccessorProperty true true;
          "self" := binding.DataProperty 0 false true false ]};
     binding.extensible := true |}.

End Samples.

(** * Properties *)

(** ** Strings *)

Lemma endsWith_spec (s suffix : string) :
  endsWith s suffix = true <-> exists prefix, s = (prefix ++ suffix)%string.
Proof.
  induction s as [|c s IH]; simpl.
  - case_decide as E.
    + split; [intros _; exists EmptyString; by subst | done].
    + split; [done | intros [p Hp]].
      destruct p; simpl in Hp; [by subst | discriminate].
  - case_decide as E.
    + split; [intros _; exists EmptyString; by subst | done].
    + rewrite IH. split.
      * intros [p ->]. by exists (String c p).
      * intros [p Hp]. destruct p as [|c' p]; simpl in Hp; [by subst |].
        injection Hp as -> ->. by exists p.
Qed.

(** ** Loops *)

Section Loops.
Context {S A : Type}.
Implicit Types (body : A -> M S unit) (l : list A) (s : S).

Lemma for_each_app body l1 l2 s :
    for_each body (l1 ++ l2) s = (for_each body l1 ;;; for_each body l2) s.
Proof.
    revert s. induction l1 as [|x l1 IH]; intros s; simpl; [done|].
    unfold bind in *. destruct (body x s) as [[[]|e] s']; [|done].
    apply IH.
Qed.

Lemma for_each_ext body body' l s :
    (forall x s, x ∈ l -> body x s = body' x s) ->
    for_each body l s = for_each body' l s.
Proof.
    revert s. induction l as [|x l IH]; intros s Hext; simpl; [done|].
    unfold bind. rewrite Hext by left.
    destruct (body' x s) as [[[]|e] s']; [|done].
    apply IH. intros y s'' Hy. apply Hext. by right.
Qed.

  (** A loop whose body keeps an invariant keeps it, whether it runs through
      or throws. *)
Lemma for_each_invariant (P : S -> Prop) body l s :
    (forall x s, x ∈ l -> P s -> P (body x s).2) ->
    P s -> P (for_each body l s).2.
Proof.
    revert s. induction l as [|x l IH]; intros s Hbody Hs; simpl; [done|].
    unfold bind. pose proof (Hbody x s ltac:(left) Hs) as Hx.
    destruct (body x s) as [[[]|e] s']; simpl in *; [|done].
    apply IH; [|done]. intros y s'' Hy. apply Hbody. by right.
Qed.

  (** A loop throws when, under an invariant of its body, one of its elements
      makes the body throw. *)
Lemma for_each_throws (P : S -> Prop) body l x s :
    (forall y s, y ∈ l -> P s -> P (body y s).2) ->
    (forall s, P s -> is_ok (body x s).1 = false) ->
    x ∈ l -> P s -> is_ok (for_each body l s).1 = false.
Proof.
    revert s. induction l as [|y l IH]; intros s Hinv Hx Hin Hs; simpl.
    - by apply elem_of_nil in Hin.
    - unfold bind. pose proof (Hinv y s ltac:(left) Hs) as Hy.
      apply elem_of_cons in Hin as [->|Hin].
      + specialize (Hx s Hs). destruct (body y s) as [[[]|e] s']; done.
      + destruct (body y s) as [[[]|e] s']; simpl in *; [|done].
        apply IH; try done. intros z s'' Hz. apply Hinv. by right.
Qed.

  (** A loop whose body never throws runs through. *)
Lemma for_each_ok body l s :
    (forall x s, x ∈ l -> is_ok (body x s).1 = true) ->
    is_ok (for_each body l s).1 = true.
Proof.
    revert s. induction l as [|x l IH]; intros s Hbody; simpl; [done|].
    unfold bind. pose proof (Hbody x s ltac:(left)) as Hx.
    destruct (body x s) as [[[]|e] s']; simpl in *; [|done].
    apply IH. intros y s'' Hy. apply Hbody. by right.
Qed.
(** A loop whose body never throws under an invariant it keeps runs
    through. *)
Lemma for_each_ok_invariant (P : S -> Prop) body l s :
  (forall x s, x ∈ l -> P s -> is_ok (body x s).1 = true /\ P (body x s).2) ->
  P s -> is_ok (for_each body l s).1 = true /\ P (for_each body l s).2.
Proof.
  revert s. induction l as [|x l IH]; intros s Hbody Hs; simpl; [done|].
  unfold bind. destruct (Hbody x s ltac:(left) Hs) as [Hok Hx].
  destruct (body x s) as [[[]|e] s']; simpl in *; [|done].
  apply IH; [|done]. intros y s'' Hy. apply Hbody. by right.
Qed.

(** An element at which the body does nothing can be left out. *)
Lemma for_each_skip (P : S -> Prop) body l1 x l2 s :
  (forall y s, P s -> P (body y s).2) ->
  (forall s, P s -> body x s = (Ok tt, s)) ->
  P s ->
  for_each body (l1 ++ x :: l2) s = for_each body (l1 ++ l2) s.
Proof.
  intros Hinv Hx Hs. rewrite !for_each_app. unfold bind.
  pose proof (for_each_invariant P body l1 s (fun y s _ => Hinv y s) Hs) as H1.
  destruct (for_each body l1 s) as [[[]|e] s1]; [|done]. simpl in *.
  unfold bind. by rewrite Hx.
Qed.
End Loops.

(** The same, for an element of an inner list of a nested loop. *)
Lemma for_each_inner_skip {S A B : Type} (P : S -> Prop) (g : A -> list B)
    (body : A -> B -> M S unit) (pre post : list A) (doc doc' : A)
    (a b : list B) (i : B) (s : S) :
  g doc = a ++ i :: b ->
  g doc' = a ++ b ->
  (forall x s, body doc' x s = body doc x s) ->
  (forall f x s, P s -> P (body f x s).2) ->
  (forall s, P s -> body doc i s = (Ok tt, s)) ->
  P s ->
  for_each (fun f => for_each (body f) (g f)) (pre ++ doc :: post) s
  = for_each (fun f => for_each (body f) (g f)) (pre ++ doc' :: post) s.
Proof.
  intros Hdoc Hdoc' Hsame Hinv Hi Hs. rewrite !for_each_app. unfold bind.
  assert (forall f s, P s -> P (for_each (body f) (g f) s).2) as Hinner.
  { intros f s' Hs'. apply for_each_invariant; [|done]. intros; by apply Hinv. }
  pose proof (for_each_invariant P (fun f => for_each (body f) (g f)) pre s
                (fun f s _ => Hinner f s) Hs) as H1.
  destruct (for_each _ pre s) as [[[]|e] s1]; [|done]. simpl in *.
  unfold bind. rewrite Hdoc, Hdoc'.
  rewrite (for_each_skip P (body doc) a i b s1) by auto.
  by rewrite (for_each_ext (body doc) (body doc') (a ++ b) s1).
Qed.

Lemma for_each_nested {S A B : Type} (g : A -> list B) (body : A -> B -> M S unit)
    (l : list A) (s : S) :
  for_each (fun a => for_each (body a) (g a)) l s
  = for_each (fun p => body p.1 p.2) (flat_map (fun a => map (pair a) (g a)) l) s.
Proof.
  revert s. induction l as [|a l IH]; intros s; simpl; [done|].
  rewrite for_each_app. unfold bind.
  assert (forall s, for_each (body a) (g a) s
                    = for_each (fun p => body p.1 p.2) (map (pair a) (g a)) s) as ->.
  { clear. induction (g a) as [|b bs IHb]; intros s; simpl; [done|].
    unfold bind. destruct (body a b s) as [[[]|e] s']; [|done]. apply IHb. }
  destruct (for_each _ (map (pair a) (g a)) s) as [[[]|e] s']; [|done].
  apply IH.
Qed.

(** ** Maps *)

Module JSMapFacts.
Section JSMapFacts.
Context {V : Type}.
Implicit Types (m : JSMap V) (k : string) (v : V).

Lemma has_get k m : JSMap.has k m = true <-> is_Some (JSMap.get k m).
Proof.
    unfold JSMap.has. destruct (JSMap.get k m); split; try done.
Qed.

Lemma has_false_get k m : JSMap.has k m = false <-> JSMap.get k m = None.
Proof. unfold JSMap.has. by destruct (JSMap.get k m). Qed.

Lemma get_set k k' v m :
    JSMap.get k (JSMap.set k' v m) = if decide (k = k') then Some v else JSMap.get k m.
Proof.
    induction m as [|[k0 v0] m IH]; simpl.
    - done.
    - destruct (decide (k' = k0)) as [->|Hne]; simpl.
      + by destruct (decide (k = k0)).
      + rewrite IH. destruct (decide (k = k0)) as [->|]; [|done].
        by rewrite decide_False.
Qed.

Lemma get_mutate k k' (f : V -> V) m :
    JSMap.get k (JSMap.mutate k' f m)
    = if decide (k = k') then f <$> JSMap.get k m else JSMap.get k m.
Proof.
    induction m as [|[k0 v0] m IH]; simpl.
    - by case_decide.
    - destruct (decide (k' = k0)) as [->|Hne]; simpl.
      + by destruct (decide (k = k0)).
      + rewrite IH. destruct (decide (k = k0)) as [->|]; [|done].
        by rewrite decide_False.
Qed.

Lemma has_set k k' v m :
    JSMap.has k (JSMap.set k' v m) = bool_decide (k = k') || JSMap.has k m.
Proof.
    unfold JSMap.has. rewrite get_set.
    case_decide; [by rewrite bool_decide_eq_true_2 | by rewrite bool_decide_eq_false_2].
Qed.

Lemma has_mutate k k' (f : V -> V) m :
    JSMap.has k (JSMap.mutate k' f m) = JSMap.has k m.
Proof.
    unfold JSMap.has. rewrite get_mutate.
    case_decide; by destruct (JSMap.get k m).
Qed.

Lemma keys_mutate k (f : V -> V) m :
    JSMap.keys (JSMap.mutate k f m) = JSMap.keys m.
Proof.
    induction m as [|[k0 v0] m IH]; simpl; [done|].
    case_decide; simpl; [done | by f_equal].
Qed.

Lemma has_keys k m : JSMap.has k m = true <-> k ∈ JSMap.keys m.
Proof.
    unfold JSMap.has. induction m as [|[k0 v0] m IH]; simpl.
    - split; [done | by intros ?%elem_of_nil].
    - rewrite elem_of_cons. case_decide as E.
      + subst. split; [by left | done].
      + rewrite IH. split; [by right | by intros [? | ?]].
Qed.

Lemma keys_set k v m :
    JSMap.keys (JSMap.set k v m)
    = if JSMap.has k m then JSMap.keys m else JSMap.keys m ++ [k].
Proof.
    unfold JSMap.has. induction m as [|[k0 v0] m IH]; simpl; [done|].
    case_decide; simpl; [done|].
    rewrite IH. by destruct (JSMap.get k m).
Qed.

  (** A key occurs once: [set] never duplicates. *)
Lemma NoDup_keys_set k v m :
    NoDup (JSMap.keys m) -> NoDup (JSMap.keys (JSMap.set k v m)).
Proof.
    intros Hnd. rewrite keys_set. destruct (JSMap.has k m) eqn:Hhas; [done|].
    apply NoDup_app. split_and!; [done| |apply NoDup_singleton].
    intros x Hx ->%list_elem_of_singleton.
    apply has_keys in Hx. congruence.
Qed.
End JSMapFacts.
End JSMapFacts.

(** ** Model builder *)

Section ModelBuilderFacts.
Context {Member ExtAttr : Type} `{!Collaborators Member ExtAttr}.
Local Abbreviation Instruction := (Instruction Member ExtAttr).
Local Abbreviation ParsedDocument := (ParsedDocument Member ExtAttr).
Local Abbreviation Interface := (Interface Member ExtAttr).
Local Abbreviation Dictionary := (Dictionary Member ExtAttr).
Local Abbreviation Context := (Context Member ExtAttr).
Local Abbreviation Transformer := (Transformer Member ExtAttr).
Variable suppress : bool.
Variable outputDir : string.
Implicit Types (p : ParsedDocument * Instruction) (c : Context) (n : string).

Local Abbreviation step1 :=
  (fun p : ParsedDocument * Instruction => pass1_instruction suppress outputDir p.1 p.2).
Local Abbreviation step2 :=
  (fun p : ParsedDocument * Instruction => pass2_instruction suppress p.2).

Lemma pass1_flat (parsed : list ParsedDocument) c :
  pass1 suppress outputDir parsed c = for_each step1 (instructions parsed) c.
Proof. apply for_each_nested. Qed.

Lemma pass2_flat (parsed : list ParsedDocument) c :
  pass2 suppress parsed c = for_each step2 (instructions parsed) c.
Proof.
  unfold pass2.
  apply (for_each_nested idl (fun _ i => pass2_instruction suppress i)).
Qed.

Ltac step1_cases p :=
  unfold pass1_instruction, full_decl, custom_decl, typedef_decl, unrecognized in *;
  destruct p as [file i]; simpl in *;
  repeat (case_decide; simpl in * );
  destruct (partial i) eqn:?; destruct suppress eqn:?; simpl in *;
  unfold bind, ret, throw, modify_state in *; simpl in *.

Ltac step1_done :=
  try rewrite JSMapFacts.get_set; repeat case_decide;
  unfold full_decl, custom_decl, typedef_decl, unrecognized in *; simpl in *;
  first [ done | f_equal; congruence | exfalso; intuition congruence ].

(** *** The first loop, one instruction *)

Lemma step1_interfaces p c n :
  JSMap.get n (interfaces (step1 p c).2)
  = if decide (full_decl "interface" n p)
    then Some (new_Interface p.2
                 (and_then (impl p.1) (path_resolve outputDir))
                 (and_then (genPath p.1) (fun g => path_join g (name p.2 ++ ".js"))))
    else JSMap.get n (interfaces c).
Proof.
  step1_cases p; step1_done.
Qed.

Lemma step1_dictionaries p c n :
  JSMap.get n (dictionaries (step1 p c).2)
  = if decide (full_decl "dictionary" n p)
    then Some (new_Dictionary p.2
                 (and_then (genPath p.1) (fun g => path_join g (name p.2 ++ ".js"))))
    else JSMap.get n (dictionaries c).
Proof.
  step1_cases p; step1_done.
Qed.

Lemma step1_typedefs p c n :
  JSMap.get n (typedefs (step1 p c).2)
  = if decide (typedef_decl n p) then Some (new_Typedef p.2)
    else JSMap.get n (typedefs c).
Proof.
  step1_cases p; step1_done.
Qed.

Lemma step1_customTypes p c n :
  JSMap.get n (customTypes (step1 p c).2)
  = if decide (custom_decl n p) then Some (type p.2)
    else JSMap.get n (customTypes c).
Proof.
  step1_cases p; step1_done.
Qed.

Lemma step1_implSuffix p c : implSuffix (step1 p c).2 = implSuffix c.
Proof. step1_cases p; done. Qed.

(** The first loop throws exactly on an unrecognized kind in strict mode. *)
Lemma step1_ok p c :
  is_ok (step1 p c).1 = bool_decide (suppress = true \/ ~ unrecognized p.2).
Proof.
  step1_cases p;
    first [ done
          | exfalso; intuition congruence
          | symmetry; apply bool_decide_eq_true_2; intuition congruence
          | symmetry; apply bool_decide_eq_false_2; intuition congruence ].
Qed.

(** *** The first loop *)

(** After a loop that ran through, a map that every step either overwrites
    at [n] or leaves alone at [n] holds at [n] the last value written. *)
Lemma for_each_last_write {S A V : Type} (body : A -> M S unit) (proj : S -> JSMap V)
    (P : A -> Prop) `{!forall x, Decision (P x)} (mk : A -> V) (l : list A) (s : S) n :
  (forall x s, JSMap.get n (proj (body x s).2)
               = if decide (P x) then Some (mk x) else JSMap.get n (proj s)) ->
  is_ok (for_each body l s).1 = true ->
  JSMap.get n (proj (for_each body l s).2)
  = match last (filter P l) with
    | Some x => Some (mk x)
    | None => JSMap.get n (proj s)
    end.
Proof.
  intros Hstep. revert s. induction l as [|x l IH]; intros s Hok; simpl in *; [done|].
  unfold bind in *. specialize (Hstep x s).
  destruct (body x s) as [[[]|e] s']; simpl in *; [|done].
  rewrite IH by done. rewrite filter_cons.
  destruct (decide (P x)); [|by rewrite Hstep].
  rewrite last_cons. destruct (last (filter P l)); [done|]. by rewrite Hstep.
Qed.

Lemma pass1_ok (l : list (ParsedDocument * Instruction)) c :
  is_ok (for_each step1 l c).1
  = bool_decide (suppress = true \/ Forall (fun p => ~ unrecognized p.2) l).
Proof.
  revert c. induction l as [|p l IH]; intros c; simpl.
  - symmetry. apply bool_decide_eq_true_2. by right.
  - unfold bind. pose proof (step1_ok p c) as Hp. simpl in Hp.
    destruct (pass1_instruction suppress outputDir p.1 p.2 c) as [[[]|e] c'];
      simpl in *.
    + rewrite IH. apply bool_decide_ext.
      symmetry in Hp. apply bool_decide_eq_true_1 in Hp.
      rewrite Forall_cons. tauto.
    + symmetry in Hp. apply bool_decide_eq_false_1 in Hp.
      symmetry. apply bool_decide_eq_false_2. rewrite Forall_cons. tauto.
Qed.

(** *** The second loop, one instruction *)

Ltac step2_cases p c :=
  unfold pass2_instruction, resolvable, merge_interface, merge_dictionary,
    partial_decl, implements_decl in *;
  destruct p as [file i]; simpl in *;
  repeat (case_decide; simpl in * );
  destruct (partial i) eqn:?; destruct suppress eqn:?; simpl in *;
  unfold bind, ret, throw, modify_state, get_state, JSMap.has in *; simpl in *;
  repeat match goal with
         | |- context [JSMap.get ?k (?m c)] =>
             let E := fresh "E" in destruct (JSMap.get k (m c)) eqn:E; simpl in *
         end.

Ltac step2_done :=
  repeat case_decide;
  unfold partial_decl, implements_decl in *; simpl in *; subst;
  repeat match goal with
         | H : JSMap.get ?k ?m = _ |- context [JSMap.get ?k ?m] => rewrite H
         end; simpl;
  first [ done | congruence | exfalso; intuition congruence ].

Lemma step2_interfaces p c n :
  JSMap.get n (interfaces (step2 p c).2)
  = merge_interface n p <$> JSMap.get n (interfaces c).
Proof.
  step2_cases p c; try rewrite JSMapFacts.get_mutate; step2_done.
Qed.

Lemma step2_dictionaries p c n :
  JSMap.get n (dictionaries (step2 p c).2)
  = merge_dictionary n p <$> JSMap.get n (dictionaries c).
Proof.
  step2_cases p c; try rewrite JSMapFacts.get_mutate; step2_done.
Qed.

Lemma step2_typedefs p c : typedefs (step2 p c).2 = typedefs c.
Proof. step2_cases p c; done. Qed.

Lemma step2_customTypes p c : customTypes (step2 p c).2 = customTypes c.
Proof. step2_cases p c; done. Qed.

Lemma step2_implSuffix p c : implSuffix (step2 p c).2 = implSuffix c.
Proof. step2_cases p c; done. Qed.

Lemma step2_has_interfaces p c n :
  JSMap.has n (interfaces (step2 p c).2) = JSMap.has n (interfaces c).
Proof.
  unfold JSMap.has. rewrite step2_interfaces.
  by destruct (JSMap.get n (interfaces c)).
Qed.

Lemma step2_has_dictionaries p c n :
  JSMap.has n (dictionaries (step2 p c).2) = JSMap.has n (dictionaries c).
Proof.
  unfold JSMap.has. rewrite step2_dictionaries.
  by destruct (JSMap.get n (dictionaries c)).
Qed.

(** The second loop throws exactly at an instruction the registry cannot
    resolve, in strict mode. *)
Lemma step2_ok p c :
  is_ok (step2 p c).1 = bool_decide (suppress = true \/ resolvable c p.2).
Proof.
  assert (is_ok (step2 p c).1 = true <-> suppress = true \/ resolvable c p.2) as Hiff.
  { step2_cases p c; first [ done | intuition congruence ]. }
  destruct (is_ok (step2 p c).1); symmetry.
  - apply bool_decide_eq_true_2. by apply Hiff.
  - apply bool_decide_eq_false_2. intros ?%Hiff. done.
Qed.

Lemma resolvable_same_names c c' (i : Instruction) :
  same_names c c' -> resolvable c' i <-> resolvable c i.
Proof. intros [Hi Hd]. unfold resolvable. by rewrite !Hi, !Hd. Qed.

Lemma step2_same_names p c c0 :
  same_names c0 c -> same_names c0 (step2 p c).2.
Proof.
  intros [Hi Hd]. split; intros n.
  - by rewrite step2_has_interfaces.
  - by rewrite step2_has_dictionaries.
Qed.

(** *** The second loop *)

Lemma pass2_same_names (l : list (ParsedDocument * Instruction)) c :
  same_names c (for_each step2 l c).2.
Proof.
  apply (for_each_invariant (same_names c)); [|by split].
  intros p s _. apply step2_same_names.
Qed.

Lemma pass2_typedefs (l : list (ParsedDocument * Instruction)) c :
  typedefs (for_each step2 l c).2 = typedefs c.
Proof.
  apply (for_each_invariant (fun s => typedefs s = typedefs c)); [|done].
  intros p s _ <-. apply step2_typedefs.
Qed.

Lemma pass2_customTypes (l : list (ParsedDocument * Instruction)) c :
  customTypes (for_each step2 l c).2 = customTypes c.
Proof.
  apply (for_each_invariant (fun s => customTypes s = customTypes c)); [|done].
  intros p s _ <-. apply step2_customTypes.
Qed.

Lemma pass2_ok (l : list (ParsedDocument * Instruction)) c :
  is_ok (for_each step2 l c).1
  = bool_decide (suppress = true \/ Forall (fun p => resolvable c p.2) l).
Proof.
  revert c. induction l as [|p l IH]; intros c; simpl.
  - symmetry. apply bool_decide_eq_true_2. by right.
  - unfold bind. pose proof (step2_ok p c) as Hp.
    pose proof (step2_same_names p c c ltac:(by split)) as Hsame.
    simpl in Hp, Hsame.
    destruct (pass2_instruction suppress p.2 c) as [[[]|e] c']; simpl in *.
    + rewrite IH. apply bool_decide_ext.
      symmetry in Hp. apply bool_decide_eq_true_1 in Hp.
      rewrite Forall_cons.
      assert (Forall (fun q => resolvable c' q.2) l
              <-> Forall (fun q => resolvable c q.2) l) as ->; [|tauto].
      apply Forall_iff. intros q. by apply resolvable_same_names.
    + symmetry in Hp. apply bool_decide_eq_false_1 in Hp.
      symmetry. apply bool_decide_eq_false_2. rewrite Forall_cons. tauto.
Qed.

(** After a second loop that ran through, the entry under [n] has received
    every merge aimed at [n], in processing order. *)
Lemma for_each_merge {S A V : Type} (body : A -> M S unit) (proj : S -> JSMap V)
    (merge : A -> V -> V) (l : list A) (s : S) n :
  (forall x s, JSMap.get n (proj (body x s).2) = merge x <$> JSMap.get n (proj s)) ->
  is_ok (for_each body l s).1 = true ->
  JSMap.get n (proj (for_each body l s).2)
  = (fun v => fold_left (fun v x => merge x v) l v) <$> JSMap.get n (proj s).
Proof.
  intros Hstep. revert s. induction l as [|x l IH]; intros s Hok; simpl in *.
  - by destruct (JSMap.get n (proj s)).
  - unfold bind in *. specialize (Hstep x s).
    destruct (body x s) as [[[]|e] s']; simpl in *; [|done].
    rewrite IH by done. rewrite Hstep.
    by destruct (JSMap.get n (proj s)).
Qed.

Lemma merged_interface n (l : list (ParsedDocument * Instruction)) (obj : Interface) :
  let obj' := fold_left (fun v p => merge_interface n p v) l obj in
  iface_name obj' = iface_name obj
  /\ implDir obj' = implDir obj
  /\ iface_path obj' = iface_path obj
  /\ members (iface_idl obj') = members (iface_idl obj) ++ partial_members "interface" n l
  /\ extAttrs (iface_idl obj') = extAttrs (iface_idl obj) ++ partial_extAttrs "interface" n l
  /\ mixins obj' = mixins obj ++ recorded_mixins n l.
Proof.
  revert obj. unfold partial_members, partial_extAttrs, recorded_mixins.
  induction l as [|p l IH]; intros obj; simpl.
  - by rewrite !app_nil_r.
  - destruct (IH (merge_interface n p obj)) as (-> & -> & -> & -> & -> & ->).
    rewrite !filter_cons. unfold merge_interface.
    destruct (decide (partial_decl "interface" n p)) as [Hp|Hp].
    + rewrite decide_False by (unfold partial_decl, implements_decl in *;
                               intuition congruence).
      simpl. by rewrite <- ?app_assoc.
    + destruct (decide (implements_decl n p)); simpl; [|done].
      by rewrite <- ?app_assoc.
Qed.

Lemma merged_dictionary n (l : list (ParsedDocument * Instruction)) (obj : Dictionary) :
  let obj' := fold_left (fun v p => merge_dictionary n p v) l obj in
  dict_name obj' = dict_name obj
  /\ dict_path obj' = dict_path obj
  /\ members (dict_idl obj') = members (dict_idl obj) ++ partial_members "dictionary" n l
  /\ extAttrs (dict_idl obj') = extAttrs (dict_idl obj) ++ partial_extAttrs "dictionary" n l.
Proof.
  revert obj. unfold partial_members, partial_extAttrs.
  induction l as [|p l IH]; intros obj; simpl.
  - by rewrite !app_nil_r.
  - destruct (IH (merge_dictionary n p obj)) as (-> & -> & -> & ->).
    rewrite !filter_cons. unfold merge_dictionary.
    destruct (decide (partial_decl "dictionary" n p)); simpl; [|done].
    by rewrite <- ?app_assoc.
Qed.

(** *** Both loops *)

Lemma last_filter_None {A} (P : A -> Prop) `{!forall x, Decision (P x)} (l : list A) :
  last (filter P l) = None <-> Forall (fun x => ~ P x) l.
Proof.
  rewrite last_None. induction l as [|x l IH]; [by rewrite filter_nil|].
  rewrite filter_cons, Forall_cons. destruct (decide (P x)); [|tauto].
  split; [done | tauto].
Qed.

Lemma pass1_has_interfaces (l : list (ParsedDocument * Instruction)) c n :
  is_ok (for_each step1 l c).1 = true ->
  JSMap.has n (interfaces (for_each step1 l c).2)
  = JSMap.has n (interfaces c) || bool_decide (Exists (full_decl "interface" n) l).
Proof.
  intros Hok. unfold JSMap.has.
  rewrite (for_each_last_write step1 interfaces (full_decl "interface" n) _ l c n
             (fun p s => step1_interfaces p s n) Hok).
  destruct (last (filter (full_decl "interface" n) l)) as [p|] eqn:Hlast.
  - rewrite bool_decide_eq_true_2; [by rewrite orb_true_r|].
    apply last_Some_elem_of, list_elem_of_filter in Hlast as [? ?].
    apply Exists_exists. eauto.
  - rewrite bool_decide_eq_false_2; [by rewrite orb_false_r|].
    apply last_filter_None in Hlast. by apply Forall_Exists_neg.
Qed.

Lemma pass1_has_dictionaries (l : list (ParsedDocument * Instruction)) c n :
  is_ok (for_each step1 l c).1 = true ->
  JSMap.has n (dictionaries (for_each step1 l c).2)
  = JSMap.has n (dictionaries c) || bool_decide (Exists (full_decl "dictionary" n) l).
Proof.
  intros Hok. unfold JSMap.has.
  rewrite (for_each_last_write step1 dictionaries (full_decl "dictionary" n) _ l c n
             (fun p s => step1_dictionaries p s n) Hok).
  destruct (last (filter (full_decl "dictionary" n) l)) as [p|] eqn:Hlast.
  - rewrite bool_decide_eq_true_2; [by rewrite orb_true_r|].
    apply last_Some_elem_of, list_elem_of_filter in Hlast as [? ?].
    apply Exists_exists. eauto.
  - rewrite bool_decide_eq_false_2; [by rewrite orb_false_r|].
    apply last_filter_None in Hlast. by apply Forall_Exists_neg.
Qed.

(** The two loops over the documents, as one run over the instructions. *)
Lemma resolve_flat (parsed : list ParsedDocument) c :
  (pass1 suppress outputDir parsed ;;; pass2 suppress parsed) c
  = (for_each step1 (instructions parsed) ;;; for_each step2 (instructions parsed)) c.
Proof.
  unfold bind. rewrite pass1_flat.
  destruct (for_each step1 (instructions parsed) c) as [[[]|e] c1]; [|done].
  apply pass2_flat.
Qed.

(** The two loops run through exactly when relaxed, or when no instruction
    is of an unrecognized kind and the registry left by the first loop
    resolves them all. *)
Lemma resolve_ok (l : list (ParsedDocument * Instruction)) c :
  is_ok ((for_each step1 l ;;; for_each step2 l) c).1
  = bool_decide (suppress = true
                 \/ (Forall (fun p => ~ unrecognized p.2) l
                     /\ Forall (fun p => resolvable (for_each step1 l c).2 p.2) l)).
Proof.
  unfold bind. pose proof (pass1_ok l c) as H1.
  destruct (for_each step1 l c) as [[[]|e] c1]; simpl in *.
  - rewrite pass2_ok. apply bool_decide_ext.
    symmetry in H1. apply bool_decide_eq_true_1 in H1. tauto.
  - symmetry in H1. apply bool_decide_eq_false_1 in H1.
    symmetry. apply bool_decide_eq_false_2. tauto.
Qed.

End ModelBuilderFacts.

(** ** [_parse] *)

Section ParseFacts.
Context {Member ExtAttr : Type} `{!Collaborators Member ExtAttr}.
Local Abbreviation Instruction := (Instruction Member ExtAttr).
Local Abbreviation ParsedDocument := (ParsedDocument Member ExtAttr).
Local Abbreviation Interface := (Interface Member ExtAttr).
Local Abbreviation Context := (Context Member ExtAttr).
Local Abbreviation Transformer := (Transformer Member ExtAttr).
Implicit Types (t : Transformer) (c : Context) (n : string).

Lemma _parse_run outputDir contents (parsed : list ParsedDocument) t :
  parse_contents contents = Ok parsed ->
  _parse outputDir contents t
  = let r := (for_each (fun p => pass1_instruction (suppressErrors (options t))
                                   outputDir p.1 p.2) (instructions parsed) ;;;
              for_each (fun p => pass2_instruction (suppressErrors (options t)) p.2)
                       (instructions parsed)) (ctx t) in
    (r.1, set_ctx (fun _ => r.2) t).
Proof.
  intros Hparse. unfold _parse, bind at 1, lift_result. rewrite Hparse.
  unfold bind at 1, get_state, on_ctx. rewrite resolve_flat.
  by destruct ((for_each _ (instructions parsed) ;;;
                for_each _ (instructions parsed)) (ctx t)).
Qed.

Lemma _parse_syntax_error outputDir contents e t :
  parse_contents contents = Throw e ->
  _parse outputDir contents t = (Throw e, t).
Proof.
  intros Hparse. unfold _parse, bind, lift_result. by rewrite Hparse.
Qed.

Lemma step1_NoDup_customTypes suppress outputDir (p : ParsedDocument * Instruction) c :
  NoDup (JSMap.keys (customTypes c)) ->
  NoDup (JSMap.keys (customTypes (pass1_instruction suppress outputDir p.1 p.2 c).2)).
Proof.
  intros Hnd. unfold pass1_instruction. destruct p as [file i]; simpl.
  repeat case_decide; destruct (partial i), suppress; simpl; try done;
    by apply JSMapFacts.NoDup_keys_set.
Qed.

Lemma bind_Ok_inv {S A B} (m : M S A) (k : A -> M S B) s b s2 :
  (x <- m ;; k x) s = (Ok b, s2) ->
  exists a s1, m s = (Ok a, s1) /\ k a s1 = (Ok b, s2).
Proof.
  unfold bind. destruct (m s) as [[a|e] s1]; [|done]. eauto.
Qed.

(** A successful [_parse], taken apart into its two loops. *)
Lemma _parse_Ok_inv outputDir contents (parsed : list ParsedDocument) t t' :
  parse_contents contents = Ok parsed ->
  _parse outputDir contents t = (Ok tt, t') ->
  exists c1,
    for_each (fun p => pass1_instruction (suppressErrors (options t)) outputDir p.1 p.2)
      (instructions parsed) (ctx t) = (Ok tt, c1)
    /\ for_each (fun p => pass2_instruction (suppressErrors (options t)) p.2)
         (instructions parsed) c1 = (Ok tt, ctx t')
    /\ t' = set_ctx (fun _ => ctx t') t.
Proof.
  intros Hparse Hrun. rewrite (_parse_run _ _ _ _ Hparse) in Hrun. simpl in Hrun.
  injection Hrun as Hr Ht.
  destruct ((_ ;;; _) (ctx t)) as [r c2] eqn:Hloops. simpl in *. subst r.
  apply bind_Ok_inv in Hloops as ([] & c1 & H1 & H2).
  exists c1. subst t'. simpl. done.
Qed.

(** C1 (amended): after [_parse] has run through on a freshly initialized
    registry, the combined index [customTypes] holds each name once; a name
    is in it exactly when the documents hold a non-partial interface or
    dictionary of that name, which is exactly when it is in the interfaces
    map or in the dictionaries map; and the kind it records is that of the
    last such declaration in processing order.  (A name may well be in
    several of the kind-specific maps.) *)
Theorem index_after_parse outputDir contents (parsed : list ParsedDocument) t t' :
  fresh_registry (ctx t) ->
  parse_contents contents = Ok parsed ->
  _parse outputDir contents t = (Ok tt, t') ->
  NoDup (JSMap.keys (customTypes (ctx t')))
  /\ forall n,
       JSMap.get n (customTypes (ctx t'))
       = (fun p => type p.2) <$> last (filter (custom_decl n) (instructions parsed))
       /\ (JSMap.has n (customTypes (ctx t')) = true
           <-> Exists (custom_decl n) (instructions parsed))
       /\ (JSMap.has n (customTypes (ctx t')) = true
           <-> JSMap.has n (interfaces (ctx t')) = true
               \/ JSMap.has n (dictionaries (ctx t')) = true).
Proof.
  intros (Hfi & Hfd & _ & Hfc) Hparse Hrun.
  destruct (_parse_Ok_inv _ _ _ _ _ Hparse Hrun) as (c1 & H1 & H2 & _).
  set (s := suppressErrors (options t)) in *.
  set (l := instructions parsed) in *.
  assert (is_ok (for_each (fun p => pass1_instruction s outputDir p.1 p.2) l (ctx t)).1
          = true) as Hok1 by (by rewrite H1).
  assert (customTypes (ctx t') = customTypes c1) as Hct.
  { rewrite <- (pass2_customTypes s l c1). by rewrite H2. }
  pose proof (pass2_same_names s l c1) as [Hsi Hsd]. rewrite H2 in Hsi, Hsd.
  simpl in Hsi, Hsd.
  assert (forall n, JSMap.get n (customTypes c1)
                    = (fun p => type p.2) <$> last (filter (custom_decl n) l)) as Hget.
  { intros n.
    pose proof (for_each_last_write
                  (fun p => pass1_instruction s outputDir p.1 p.2)
                  customTypes (custom_decl n)
                  (fun p => type p.2) l (ctx t) n
                  (fun p c => step1_customTypes s outputDir p c n) Hok1) as Hlw.
    rewrite H1 in Hlw. simpl in Hlw. rewrite Hlw, Hfc. simpl.
    by destruct (last (filter (custom_decl n) l)). }
  assert (forall n, JSMap.has n (customTypes c1) = true <-> Exists (custom_decl n) l)
    as Hhas.
  { intros n. unfold JSMap.has. rewrite Hget.
    destruct (last (filter (custom_decl n) l)) as [p|] eqn:Hlast; simpl.
    - split; [intros _ | done].
      apply last_Some_elem_of, list_elem_of_filter in Hlast as [? ?].
      apply Exists_exists. eauto.
    - split; [done | intros Hex].
      apply last_filter_None in Hlast. by apply Forall_Exists_neg in Hlast. }
  split.
  - rewrite Hct.
    pose proof (for_each_invariant (fun c => NoDup (JSMap.keys (customTypes c)))
                  (fun p => pass1_instruction s outputDir p.1 p.2) l (ctx t)) as Hnd.
    rewrite H1 in Hnd. apply Hnd.
    + intros p c _. apply step1_NoDup_customTypes.
    + rewrite Hfc. simpl. constructor.
  - intros n. rewrite Hct. split_and!; [apply Hget | apply Hhas |].
    rewrite Hhas, Hsi, Hsd.
    pose proof (pass1_has_interfaces s outputDir l (ctx t) n Hok1) as Hi.
    pose proof (pass1_has_dictionaries s outputDir l (ctx t) n Hok1) as Hd.
    rewrite H1 in Hi, Hd. simpl in Hi, Hd. rewrite Hi, Hd, Hfi, Hfd. simpl.
    rewrite !bool_decide_eq_true. unfold custom_decl.
    rewrite !Exists_exists. split.
    + intros (p & Hin & [Hp | Hp]); [left | right]; eauto.
    + intros [(p & Hin & Hp) | (p & Hin & Hp)]; exists p; eauto.
Qed.

(** The interface registered under [n] after a successful [_parse] on a
    fresh registry: the entry built from the last full declaration of [n],
    with every partial declaration and mixin aimed at [n] merged in. *)
Lemma interface_after_parse outputDir contents (parsed : list ParsedDocument) t t' n :
  fresh_registry (ctx t) ->
  parse_contents contents = Ok parsed ->
  _parse outputDir contents t = (Ok tt, t') ->
  JSMap.get n (interfaces (ctx t'))
  = (fun p =>
       fold_left (fun v q => merge_interface n q v) (instructions parsed)
         (new_Interface p.2
            (and_then (impl p.1) (path_resolve outputDir))
            (and_then (genPath p.1) (fun g => path_join g (name p.2 ++ ".js")))))
    <$> last (filter (full_decl "interface" n) (instructions parsed)).
Proof.
  intros (Hfi & Hfd & _ & Hfc) Hparse Hrun.
  destruct (_parse_Ok_inv _ _ _ _ _ Hparse Hrun) as (c1 & H1 & H2 & _).
  set (s := suppressErrors (options t)) in *.
  set (l := instructions parsed) in *.
  pose proof (for_each_merge (fun p => pass2_instruction s p.2) interfaces
                (merge_interface n) l c1 n
                (fun p c => step2_interfaces s p c n)) as Hm.
  rewrite H2 in Hm. simpl in Hm. rewrite Hm by done.
  pose proof (for_each_last_write
                (fun p => pass1_instruction s outputDir p.1 p.2)
                interfaces (full_decl "interface" n) _ l (ctx t) n
                (fun p c => step1_interfaces s outputDir p c n)) as Hlw.
  rewrite H1 in Hlw. simpl in Hlw. rewrite Hlw by done.
  rewrite Hfi. simpl.
  by destruct (last (filter (full_decl "interface" n) l)).
Qed.

(** Whether the two loops run through does not depend on the order of the
    instructions. *)
Lemma resolve_ok_Permutation suppress outputDir
    (l l' : list (ParsedDocument * Instruction)) c :
  l ≡ₚ l' ->
  is_ok ((for_each (fun p => pass1_instruction suppress outputDir p.1 p.2) l ;;;
          for_each (fun p => pass2_instruction suppress p.2) l) c).1 = true ->
  is_ok ((for_each (fun p => pass1_instruction suppress outputDir p.1 p.2) l' ;;;
          for_each (fun p => pass2_instruction suppress p.2) l') c).1 = true.
Proof.
  intros Hperm. rewrite !resolve_ok, !bool_decide_eq_true.
  intros [Hs | [Hunrec Hres]]; [by left | right].
  assert (Forall (fun p => ¬ unrecognized p.2) l') as Hunrec'
    by (by rewrite <- Hperm).
  split; [done|]. rewrite <- Hperm.
  assert (forall k, Forall (fun p => ¬ unrecognized p.2) k ->
            is_ok (for_each (fun p => pass1_instruction suppress outputDir p.1 p.2)
                     k c).1 = true) as Hok.
  { intros k Hk. rewrite pass1_ok. apply bool_decide_eq_true_2. by right. }
  eapply Forall_impl; [exact Hres|]. intros p Hp. simpl in *.
  eapply resolvable_same_names; [|exact Hp].
  split; intros n.
  - rewrite !pass1_has_interfaces by auto. f_equal. apply bool_decide_ext.
    by rewrite Hperm.
  - rewrite !pass1_has_dictionaries by auto. f_equal. apply bool_decide_ext.
    by rewrite Hperm.
Qed.

Lemma parse_contents_swap (d1 d2 : LoadedDocument) (p1 p2 : ParsedDocument) :
  parse_contents [d1; d2] = Ok [p1; p2] -> parse_contents [d2; d1] = Ok [p2; p1].
Proof.
  unfold parse_contents. simpl.
  destruct (webidl_parse (idlContent d1)); simpl; [|done].
  destruct (webidl_parse (idlContent d2)); simpl; [|done].
  by intros [= <- <-].
Qed.

Lemma instructions_app (l1 l2 : list ParsedDocument) :
  instructions (l1 ++ l2) = instructions l1 ++ instructions l2.
Proof. unfold instructions. by rewrite flat_map_app. Qed.

Lemma partial_members_app kind n (l1 l2 : list (ParsedDocument * Instruction)) :
  partial_members kind n (l1 ++ l2)
  = partial_members kind n l1 ++ partial_members kind n l2.
Proof. unfold partial_members. by rewrite filter_app, flat_map_app. Qed.

(** C2: two documents, the first holding a full interface [n] (the last of
    them being [f] if there are several) and the second holding none.  If
    [_parse] runs through on them in one order, it runs through in the other
    order too, and in both the entry of [n] lists the members of [f] followed
    by the members of the partial declarations of [n], in the order in which
    the documents are processed; when only the second document holds
    partial declarations of [n], the two member lists are the same. *)
Theorem partial_merge_either_order outputDir (d1 d2 : LoadedDocument)
    (p1 p2 : ParsedDocument) (f : ParsedDocument * Instruction) t t12 n :
  fresh_registry (ctx t) ->
  parse_contents [d1; d2] = Ok [p1; p2] ->
  last (filter (full_decl "interface" n) (instructions [p1])) = Some f ->
  Forall (fun p => ~ full_decl "interface" n p) (instructions [p2]) ->
  _parse outputDir [d1; d2] t = (Ok tt, t12) ->
  exists t21 e12 e21,
    _parse outputDir [d2; d1] t = (Ok tt, t21)
    /\ JSMap.get n (interfaces (ctx t12)) = Some e12
    /\ JSMap.get n (interfaces (ctx t21)) = Some e21
    /\ members (iface_idl e12)
       = members f.2 ++ partial_members "interface" n (instructions [p1])
                     ++ partial_members "interface" n (instructions [p2])
    /\ members (iface_idl e21)
       = members f.2 ++ partial_members "interface" n (instructions [p2])
                     ++ partial_members "interface" n (instructions [p1])
    /\ (partial_members "interface" n (instructions [p1]) = [] ->
        members (iface_idl e12) = members (iface_idl e21)).
Proof.
  intros Hinit Hparse Hfull Hnone Hrun.
  pose proof (parse_contents_swap _ _ _ _ Hparse) as Hparse'.
  change [p1; p2] with ([p1] ++ [p2]) in *.
  change [p2; p1] with ([p2] ++ [p1]) in *.
  set (i1 := instructions [p1]) in *. set (i2 := instructions [p2]) in *.
  assert (filter (full_decl "interface" n) i2 = []) as Hnil.
  { apply last_None. by apply last_filter_None. }
  (* the other order runs through as well *)
  assert (is_ok (_parse outputDir [d2; d1] t).1 = true) as Hok.
  { rewrite (_parse_run _ _ _ _ Hparse'). cbv zeta. cbn [fst snd].
    apply (resolve_ok_Permutation _ _ (instructions ([p1] ++ [p2]))).
    - rewrite !instructions_app. apply Permutation_app_comm.
    - pose proof (_parse_run outputDir _ _ t Hparse) as Hr.
      rewrite Hrun in Hr. cbv zeta in Hr.
      apply (f_equal fst) in Hr. cbn [fst] in Hr. by rewrite <- Hr. }
  destruct (_parse outputDir [d2; d1] t) as [[[]|e] t21] eqn:Hrun'; [|done].
  pose proof (interface_after_parse _ _ _ _ _ n Hinit Hparse Hrun) as H12.
  pose proof (interface_after_parse _ _ _ _ _ n Hinit Hparse' Hrun') as H21.
  rewrite instructions_app in H12, H21. fold i1 i2 in H12, H21.
  rewrite filter_app, Hnil in H12, H21.
  rewrite app_nil_r in H12. rewrite app_nil_l in H21.
  rewrite Hfull in H12, H21. simpl in H12, H21.
  eexists t21, _, _. split_and!; [done | exact H12 | exact H21 | | |].
  - destruct (merged_interface n (i1 ++ i2)
                (new_Interface f.2
                   (and_then (impl f.1) (path_resolve outputDir))
                   (and_then (genPath f.1)
                      (fun g => path_join g (name f.2 ++ ".js")))))
      as (_ & _ & _ & -> & _).
    by rewrite partial_members_app.
  - destruct (merged_interface n (i2 ++ i1)
                (new_Interface f.2
                   (and_then (impl f.1) (path_resolve outputDir))
                   (and_then (genPath f.1)
                      (fun g => path_join g (name f.2 ++ ".js")))))
      as (_ & _ & _ & -> & _).
    by rewrite partial_members_app.
  - intros Hnop.
    destruct (merged_interface n (i1 ++ i2)
                (new_Interface f.2
                   (and_then (impl f.1) (path_resolve outputDir))
                   (and_then (genPath f.1)
                      (fun g => path_join g (name f.2 ++ ".js")))))
      as (_ & _ & _ & -> & _).
    destruct (merged_interface n (i2 ++ i1)
                (new_Interface f.2
                   (and_then (impl f.1) (path_resolve outputDir))
                   (and_then (genPath f.1)
                      (fun g => path_join g (name f.2 ++ ".js")))))
      as (_ & _ & _ & -> & _).
    rewrite !partial_members_app, Hnop. by rewrite app_nil_r.
Qed.

End ParseFacts.

Lemma index_after_parse_witness :
  let env := Demo.collaborators Demo.scenario_table [] in
  let contents :=
    [ Demo.document "interface Foo { long x; };";
      Demo.document
        "partial interface Foo { long y; }; interface Bar { }; Bar implements Foo;" ] in
  let t' := (@_parse _ _ env "out" contents (Demo.transformer env false)).2 in
  JSMap.keys (customTypes (ctx t')) = ["Foo"; "Bar"]
  /\ JSMap.get "Foo" (customTypes (ctx t')) = Some "interface"
  /\ (JSMap.has "Foo" (customTypes (ctx t')) = true
      <-> JSMap.has "Foo" (interfaces (ctx t')) = true
          \/ JSMap.has "Foo" (dictionaries (ctx t')) = true).
Proof.
  intros env contents t'.
  destruct (@index_after_parse _ _ env "out" contents
              [ {| idl := [ Demo.interface_ false "Foo" ["x"] ];
                   impl := Some "impl"; genPath := None |};
                {| idl := [ Demo.interface_ true "Foo" ["y"];
                            Demo.interface_ false "Bar" [];
                            Demo.implements_ "Bar" "Foo" ];
                   impl := Some "impl"; genPath := None |} ]
              (Demo.transformer env false) t')
    as [_ Hn]; [repeat split | reflexivity | reflexivity |].
  destruct (Hn "Foo") as (Hget & _ & Hiff).
  split_and!; [reflexivity | reflexivity | exact Hiff].
Defined.

(** C1 (counterexample): one document declaring an interface [Foo], a
    dictionary [Foo] and a typedef [Foo].  [_parse] runs through on the fresh
    registry, all three kind-specific maps hold [Foo], and the index records
    [Foo] as a dictionary only. *)
Lemma name_shared_across_kinds :
  let env := Demo.collaborators Demo.collision_table [] in
  let r := @_parse _ _ env "out"
             [ Demo.document "interface Foo {}; dictionary Foo {}; typedef long Foo;" ]
             (Demo.transformer env false) in
  r.1 = Ok tt
  /\ JSMap.has "Foo" (interfaces (ctx r.2)) = true
  /\ JSMap.has "Foo" (dictionaries (ctx r.2)) = true
  /\ JSMap.has "Foo" (typedefs (ctx r.2)) = true
  /\ customTypes (ctx r.2) = [("Foo", "dictionary")]
  /\ ~ kinds_disjoint (ctx r.2)
  /\ ~ index_consistent (ctx r.2).
Proof.
  intros env r. split_and!; try reflexivity.
  - intros Hdisjoint. destruct (Hdisjoint "Foo") as [H _].
    specialize (H eq_refl). discriminate H.
  - intros Hconsistent. destruct (Hconsistent "Foo") as [[_ H] _].
    specialize (H eq_refl). discriminate H.
Qed.

(** The end-to-end scenario: [A.idl] declares [Foo] with member [x]; [B.idl]
    holds a partial [Foo] with member [y], an interface [Bar], and
    [Bar implements Foo]. *)
Example end_to_end_scenario :
  let env := Demo.collaborators Demo.scenario_table [] in
  let r := @_parse _ _ env "out"
             [ Demo.document "interface Foo { long x; };";
               Demo.document
                 "partial interface Foo { long y; }; interface Bar { }; Bar implements Foo;" ]
             (Demo.transformer env false) in
  r.1 = Ok tt
  /\ (members ∘ iface_idl <$> JSMap.get "Foo" (interfaces (ctx r.2))) = Some ["x"; "y"]
  /\ (mixins <$> JSMap.get "Bar" (interfaces (ctx r.2))) = Some ["Foo"]
  /\ customTypes (ctx r.2) = [("Foo", "interface"); ("Bar", "interface")].
Proof. intros env r. split_and!; reflexivity. Qed.

Lemma partial_merge_either_order_witness :
  let env := Demo.collaborators Demo.scenario_table [] in
  let d1 := Demo.document "interface Foo { long x; };" in
  let d2 := Demo.document
    "partial interface Foo { long y; }; interface Bar { }; Bar implements Foo;" in
  let t := Demo.transformer env false in
  exists t21 e12 e21,
    @_parse _ _ env "out" [d2; d1] t = (Ok tt, t21)
    /\ JSMap.get "Foo" (interfaces (ctx (@_parse _ _ env "out" [d1; d2] t).2)) = Some e12
    /\ JSMap.get "Foo" (interfaces (ctx t21)) = Some e21
    /\ members (iface_idl e12) = ["x"; "y"]
    /\ members (iface_idl e21) = ["x"; "y"].
Proof.
  intros env d1 d2 t.
  pose (p1 := {| idl := [ Demo.interface_ false "Foo" ["x"] ];
                 impl := Some "impl"; genPath := None |}
              : ParsedDocument string string).
  pose (p2 := {| idl := [ Demo.interface_ true "Foo" ["y"];
                          Demo.interface_ false "Bar" [];
                          Demo.implements_ "Bar" "Foo" ];
                 impl := Some "impl"; genPath := None |}
              : ParsedDocument string string).
  destruct (@partial_merge_either_order _ _ env "out" d1 d2 p1 p2
              (p1, Demo.interface_ false "Foo" ["x"]) t
              (@_parse _ _ env "out" [d1; d2] t).2 "Foo")
    as (t21 & e12 & e21 & Hrun & H12 & H21 & Hm12 & Hm21 & _).
  - repeat split.
  - reflexivity.
  - reflexivity.
  - compute_done.
  - reflexivity.
  - exists t21, e12, e21. split_and!; [exact Hrun | exact H12 | exact H21 | exact Hm12 | exact Hm21].
Defined.

(** ** Error policy of the model builder *)

Section ErrorPolicy.
Context {Member ExtAttr : Type} `{!Collaborators Member ExtAttr}.
Local Abbreviation Instruction := (Instruction Member ExtAttr).
Local Abbreviation ParsedDocument := (ParsedDocument Member ExtAttr).
Local Abbreviation Interface := (Interface Member ExtAttr).
Local Abbreviation Context := (Context Member ExtAttr).
Local Abbreviation Transformer := (Transformer Member ExtAttr).
Implicit Types (t : Transformer) (c : Context) (n : string) (i : Instruction).

Lemma _parse_run_nested outputDir contents (parsed : list ParsedDocument) t :
  parse_contents contents = Ok parsed ->
  _parse outputDir contents t
  = let r := (pass1 (suppressErrors (options t)) outputDir parsed ;;;
              pass2 (suppressErrors (options t)) parsed) (ctx t) in
    (r.1, set_ctx (fun _ => r.2) t).
Proof.
  intros Hparse. unfold _parse, bind at 1, lift_result. rewrite Hparse.
  unfold bind at 1, get_state, on_ctx.
  by destruct ((pass1 _ _ _ ;;; pass2 _ _) (ctx t)).
Qed.

Lemma instructions_lookup (parsed : list ParsedDocument) d k doc i :
  parsed !! d = Some doc -> idl doc !! k = Some i ->
  (doc, i) ∈ instructions parsed.
Proof.
  intros Hd Hk. unfold instructions. apply list_elem_of_In, in_flat_map.
  exists doc. split; apply list_elem_of_In.
  - by eapply list_elem_of_lookup_2.
  - apply list_elem_of_fmap_2. by eapply list_elem_of_lookup_2.
Qed.

Lemma omit_instruction_split (parsed : list ParsedDocument) d k doc i :
  parsed !! d = Some doc -> idl doc !! k = Some i ->
  exists pre post a b,
    parsed = pre ++ doc :: post
    /\ idl doc = a ++ i :: b
    /\ omit_instruction d k parsed
       = pre ++ {| idl := a ++ b; impl := impl doc; genPath := genPath doc |} :: post.
Proof.
  intros Hd Hk.
  exists (take d parsed), (drop (S d) parsed), (take k (idl doc)), (drop (S k) (idl doc)).
  split_and!.
  - by rewrite take_drop_middle.
  - by rewrite take_drop_middle.
  - unfold omit_instruction.
    rewrite <- (take_drop_middle parsed d doc Hd) at 1.
    apply lookup_lt_Some in Hd.
    rewrite alter_app_r_alt by (rewrite length_take; lia).
    rewrite length_take_le by lia. rewrite Nat.sub_diag. simpl.
    by rewrite delete_take_drop.
Qed.

(** In relaxed mode the first loop does nothing at an offending
    instruction. *)
Lemma pass1_skips outputDir file i c0 (parsed : list ParsedDocument) c :
  offending c0 parsed i ->
  pass1_instruction true outputDir file i c = (Ok tt, c).
Proof.
  unfold offending, unrecognized, pass1_instruction.
  intros [(? & ? & ? & ?) | [(-> & -> & _) | [(Hd & -> & _) | (Hi & _)]]];
    repeat case_decide; try done; congruence.
Qed.

(** In relaxed mode the second loop does nothing at an instruction that a
    registry does not resolve, nor at one of an unrecognized kind. *)
Lemma pass2_skips i c :
  unrecognized i \/ ~ resolvable c i ->
  pass2_instruction true i c = (Ok tt, c).
Proof.
  unfold unrecognized, resolvable, pass2_instruction, bind, get_state, ret.
  intros Hoff. simpl.
  repeat case_decide; try done.
  - destruct (partial i); simpl; [|done].
    destruct (JSMap.has (name i) (interfaces c)) eqn:Hhas; simpl; [|done].
    exfalso. intuition congruence.
  - destruct (partial i); simpl; [|done].
    destruct (JSMap.has (name i) (dictionaries c)) eqn:Hhas; simpl; [|done].
    exfalso. intuition congruence.
  - destruct (JSMap.has (target i) (interfaces c)) eqn:Hhas; simpl; [|done].
    exfalso. intuition congruence.
Qed.

(** The registry left by a first loop that ran through does not resolve an
    offending instruction. *)
Lemma offending_unresolved suppress outputDir (parsed : list ParsedDocument) c i :
  let run := for_each (fun p => pass1_instruction suppress outputDir p.1 p.2)
               (instructions parsed) c in
  is_ok run.1 = true ->
  offending c parsed i ->
  unrecognized i \/ ~ resolvable run.2 i.
Proof.
  intros run Hok [Hu | Hoff]; [by left | right].
  unfold resolvable. subst run.
  rewrite !pass1_has_interfaces, !pass1_has_dictionaries by done.
  destruct Hoff as [(Ht & Hp & Hc & Hall) | [(Ht & Hp & Hc & Hall) | (Ht & Hc & Hall)]];
    rewrite Hc; simpl; apply Forall_Exists_neg in Hall;
    intros (H1 & H2 & H3).
  - specialize (H1 Ht Hp). by apply bool_decide_eq_true_1 in H1.
  - specialize (H2 Ht Hp). by apply bool_decide_eq_true_1 in H2.
  - specialize (H3 Ht). by apply bool_decide_eq_true_1 in H3.
Qed.

(** C3: an instruction of an unrecognized kind, a partial interface or
    dictionary without a matching full definition, or an [implements]
    statement whose target interface is not registered.  Without
    [suppressErrors], [_parse] throws; with it, [_parse] runs through and
    leaves the transformer exactly as it does on the input without that
    instruction. *)
Theorem offending_instruction outputDir contents (parsed : list ParsedDocument)
    t d k doc i :
  parse_contents contents = Ok parsed ->
  parsed !! d = Some doc ->
  idl doc !! k = Some i ->
  offending (ctx t) parsed i ->
  (suppressErrors (options t) = false ->
     exists e t', _parse outputDir contents t = (Throw e, t'))
  /\ (suppressErrors (options t) = true ->
        forall contents',
          parse_contents contents' = Ok (omit_instruction d k parsed) ->
          (_parse outputDir contents t).1 = Ok tt
          /\ _parse outputDir contents' t = _parse outputDir contents t).
Proof.
  intros Hparse Hd Hk Hoff. split; intros Hs.
  - (* strict *)
    assert (is_ok (_parse outputDir contents t).1 = false) as Hfail.
    { rewrite (_parse_run _ _ _ _ Hparse). cbv zeta. cbn [fst].
      rewrite resolve_ok, Hs. apply bool_decide_eq_false_2.
      intros [? | [Hunrec Hres]]; [done|].
      pose proof (instructions_lookup _ _ _ _ _ Hd Hk) as Hin.
      pose proof (proj1 (Forall_forall _ _) Hunrec _ Hin) as Hi1.
      pose proof (proj1 (Forall_forall _ _) Hres _ Hin) as Hi2. simpl in *.
      destruct (offending_unresolved false outputDir parsed (ctx t) i); try done.
      rewrite pass1_ok. apply bool_decide_eq_true_2. by right. }
    destruct (_parse outputDir contents t) as [[[]|e] t']; [done | eauto].
  - (* relaxed *)
    intros contents' Hparse'.
    destruct (omit_instruction_split _ _ _ _ _ Hd Hk)
      as (pre & post & a & b & Hsplit & Hidl & Homit).
    rewrite (_parse_run_nested _ _ _ _ Hparse).
    rewrite (_parse_run_nested _ _ _ _ Hparse'). rewrite Hs. cbv zeta.
    set (doc' := {| idl := a ++ b; impl := impl doc; genPath := genPath doc |}) in *.
    (* the first loop *)
    assert (forall c, pass1 true outputDir (omit_instruction d k parsed) c
                      = pass1 true outputDir parsed c) as Hpass1.
    { intros c. rewrite Homit, Hsplit. symmetry. unfold pass1.
      apply (for_each_inner_skip (fun _ => True) idl
               (pass1_instruction true outputDir) pre post doc doc' a b i);
        try done.
      intros c' _. by eapply pass1_skips. }
    assert (is_ok (pass1 true outputDir parsed (ctx t)).1 = true) as Hok1.
    { rewrite pass1_flat, pass1_ok. by apply bool_decide_eq_true_2; left. }
    unfold bind. rewrite Hpass1.
    destruct (pass1 true outputDir parsed (ctx t)) as [[[]|e] c1] eqn:H1; [|done].
    (* the second loop *)
    assert (unrecognized i \/ ~ resolvable c1 i) as Hun.
    { pose proof (offending_unresolved true outputDir parsed (ctx t) i) as Hu.
      rewrite <- pass1_flat, H1 in Hu. by apply Hu. }
    assert (pass2 true (omit_instruction d k parsed) c1 = pass2 true parsed c1)
      as Hpass2.
    { rewrite Homit, Hsplit. symmetry. unfold pass2.
      apply (for_each_inner_skip (same_names c1) idl
               (fun _ => pass2_instruction true) pre post doc doc' a b i);
        try done.
      - intros _ x c' Hc'. by apply (step2_same_names true (doc, x)).
      - intros c' Hc'. apply pass2_skips.
        destruct Hun as [? | Hun]; [by left | right].
        by rewrite resolvable_same_names. }
    rewrite Hpass2. split; [|done].
    assert (is_ok (pass2 true parsed c1).1 = true) as Hok2.
    { rewrite pass2_flat, pass2_ok. by apply bool_decide_eq_true_2; left. }
    by destruct (pass2 true parsed c1) as [[[]|e] c2].
Qed.

(** C10: at an [implements] statement whose target is a registered
    interface, the second loop does not throw, in strict and in relaxed mode
    alike, and appends the name of the mixin source to the mixins recorded
    on the target.  The source name is not looked up: the statement holds
    for every registry, whether or not it has an interface of that name. *)
Theorem implements_checks_target_only suppress i c (obj : Interface) :
  type i = "implements" ->
  JSMap.get (target i) (interfaces c) = Some obj ->
  exists c',
    pass2_instruction suppress i c = (Ok tt, c')
    /\ JSMap.get (target i) (interfaces c')
       = Some (Interface_implements (implements i) obj)
    /\ mixins (Interface_implements (implements i) obj) = mixins obj ++ [implements i]
    /\ (forall n, n <> target i ->
          JSMap.get n (interfaces c') = JSMap.get n (interfaces c))
    /\ dictionaries c' = dictionaries c
    /\ typedefs c' = typedefs c
    /\ customTypes c' = customTypes c.
Proof.
  intros Ht Hget. unfold pass2_instruction.
  rewrite decide_False by (rewrite Ht; discriminate).
  rewrite decide_False by (rewrite Ht; discriminate).
  rewrite decide_True by done.
  unfold bind, get_state, JSMap.has. rewrite Hget.
  rewrite andb_false_r. unfold modify_state.
  eexists. split_and!; [reflexivity | | done | | done | done | done]; simpl.
  - rewrite JSMapFacts.get_mutate, decide_True by done. by rewrite Hget.
  - intros n Hn. by rewrite JSMapFacts.get_mutate, decide_False.
Qed.

End ErrorPolicy.

Lemma offending_instruction_witness :
  let env := Demo.collaborators Demo.scenario_table [] in
  let contents := [ Demo.document "interface Foo { long x; }; enum E { };" ] in
  let contents' := [ Demo.document "interface Foo { long x; };;" ] in
  (exists e t', @_parse _ _ env "out" contents (Demo.transformer env false) = (Throw e, t'))
  /\ (@_parse _ _ env "out" contents (Demo.transformer env true)).1 = Ok tt
  /\ @_parse _ _ env "out" contents' (Demo.transformer env true)
     = @_parse _ _ env "out" contents (Demo.transformer env true).
Proof.
  intros env contents contents'.
  pose (doc := {| idl := [ Demo.interface_ false "Foo" ["x"]; Demo.other_ "enum" "E" ];
                  impl := Some "impl"; genPath := None |}
               : ParsedDocument string string).
  assert (forall c, offending c [doc] (Demo.other_ "enum" "E")) as Hoff.
  { intros c. left. unfold unrecognized. simpl. split_and!; discriminate. }
  split.
  - apply (proj1 (@offending_instruction _ _ env "out" contents [doc]
                    (Demo.transformer env false) 0 1 doc (Demo.other_ "enum" "E")
                    eq_refl eq_refl eq_refl (Hoff _))).
    reflexivity.
  - apply (proj2 (@offending_instruction _ _ env "out" contents [doc]
                    (Demo.transformer env true) 0 1 doc (Demo.other_ "enum" "E")
                    eq_refl eq_refl eq_refl (Hoff _))).
    + reflexivity.
    + reflexivity.
Defined.

Lemma implements_checks_target_only_witness :
  let env := Demo.collaborators Demo.scenario_table [] in
  let t := (@_parse _ _ env "out" [ Demo.document "interface Foo { long x; };" ]
              (Demo.transformer env false)).2 in
  JSMap.has "Missing" (interfaces (ctx t)) = false
  /\ exists c',
       pass2_instruction false (Demo.implements_ "Foo" "Missing") (ctx t) = (Ok tt, c')
       /\ (mixins <$> JSMap.get "Foo" (interfaces c')) = Some ["Missing"].
Proof.
  intros env t. split; [reflexivity|].
  destruct (@implements_checks_target_only _ _ false
              (Demo.implements_ "Foo" "Missing") (ctx t)
              (new_Interface (Demo.interface_ false "Foo" ["x"])
                 (Some "out/impl") None)
              eq_refl eq_refl)
    as (c' & Hrun & Hget & _).
  exists c'. split; [exact Hrun|].
  change (JSMap.get "Foo" (interfaces c'))
    with (JSMap.get (target (Demo.implements_ "Foo" "Missing")) (interfaces c')).
  rewrite Hget. reflexivity.
Defined.

(** ** Registration of sources *)

Section Registration.
Context {Member ExtAttr : Type} `{!Collaborators Member ExtAttr}.
Local Abbreviation Transformer := (Transformer Member ExtAttr).
Implicit Types (t : Transformer).

(** C4 (amended): [addSource] with a string [idl] succeeds exactly when
    [impl] is a string too, and then appends the pair to [this.sources] and
    changes nothing else; when [impl] is left out or is no string it throws
    a TypeError and leaves the transformer as it was. *)
Theorem addSource_requires_impl (idl : string) (impl : JSValue) t :
  addSource (JSString idl) impl t
  = match impl with
    | JSString impl =>
        (Ok tt, {| ctx := ctx t; options := options t;
                   sources := sources t ++ [ {| src_idlPath := idl; src_impl := impl |} ];
                   modules := modules t |})
    | _ => (Throw (TypeError "impl path has to be a string"), t)
    end.
Proof. by destruct impl. Qed.

End Registration.

(** C4 (counterexample): [addSource("idl")] without the second argument
    throws. *)
Lemma addSource_without_impl_throws :
  let env := Demo.collaborators [] [] in
  @addSource string string (JSString "idl") JSUndefined (Demo.transformer env false)
  = (Throw (TypeError "impl path has to be a string"), Demo.transformer env false).
Proof. reflexivity. Qed.

(** ** Source collector *)

Section Collection.
Context {Member ExtAttr : Type} `{!Collaborators Member ExtAttr}.
Local Abbreviation Transformer := (Transformer Member ExtAttr).
Implicit Types (t : Transformer) (fs : FS) (src : Source).

Lemma filter_ext_elem_of {A} (P Q : A -> Prop) `{!forall x, Decision (P x)}
    `{!forall x, Decision (Q x)} (l : list A) :
  (forall x, x ∈ l -> P x <-> Q x) -> filter P l = filter Q l.
Proof.
  induction l as [|x l IH]; intros Hext; [done|].
  rewrite !filter_cons.
  rewrite IH by (intros y Hy; apply Hext; by right).
  destruct (decide (P x)) as [HP|HP], (decide (Q x)) as [HQ|HQ]; try done.
  - by apply (Hext x ltac:(left)) in HP.
  - by apply (Hext x ltac:(left)) in HQ.
Qed.

(** C5 (amended): a source whose path is a directory yields one entry per
    name in the listing of the directory that ends in [.idl], in the order
    of the listing, whether the name is that of a file or of a subdirectory
    (the entries of the directory are not inspected); names without the
    extension yield nothing and nothing below the directory is listed.  So
    when no subdirectory has a name ending in [.idl], the entries are those
    of the directly-contained files with the extension.  A source whose path
    is a file yields exactly one entry, whatever its name. *)
Theorem collect_source_entries fs src :
  (fs_stat fs (src_idlPath src) = Ok true ->
     exists folderContents entries,
       fs_readdir fs (src_idlPath src) = Ok folderContents
       /\ collect_source fs src = Ok entries
       /\ entries
          = map (fun file => {| idlPath := path_join (src_idlPath src) file;
                                file_impl := Some (src_impl src);
                                file_genPath := None |})
              (filter (fun file => endsWith file ".idl" = true) folderContents)
       /\ (forall e, e ∈ entries <->
             exists file, file ∈ folderContents
               /\ (exists prefix, file = (prefix ++ ".idl")%string)
               /\ e = {| idlPath := path_join (src_idlPath src) file;
                         file_impl := Some (src_impl src);
                         file_genPath := None |})
       /\ ((forall file, file ∈ folderContents -> endsWith file ".idl" = true ->
              fs_stat fs (path_join (src_idlPath src) file) = Ok false) ->
           entries = directory_entries_of_files fs src folderContents))
  /\ (fs_stat fs (src_idlPath src) = Ok false ->
        collect_source fs src
        = Ok [ {| idlPath := src_idlPath src;
                  file_impl := Some (src_impl src);
                  file_genPath := None |} ]).
Proof.
  unfold collect_source, fs_stat, fs_readdir. split.
  - destruct (fs_dirs fs !! fs_locate fs (src_idlPath src)) as [listing|] eqn:Hdir.
    + intros _. simpl. eexists listing, _. split_and!; [reflexivity.. | |].
      * intros e. rewrite list_elem_of_fmap. split.
        -- intros (file & -> & [Hends Hin]%list_elem_of_filter).
           exists file. by rewrite <- endsWith_spec.
        -- intros (file & Hin & Hends%endsWith_spec & ->).
           exists file. by rewrite list_elem_of_filter.
      * intros Hfiles. unfold directory_entries_of_files. f_equal.
        apply filter_ext_elem_of. intros file Hin. split; [|by intros [? _]].
        intros Hends. split; [done | by apply Hfiles].
    + by destruct (fs_files fs !! fs_locate fs (src_idlPath src)).
  - destruct (fs_dirs fs !! fs_locate fs (src_idlPath src)); [done|].
    by destruct (fs_files fs !! fs_locate fs (src_idlPath src)).
Qed.

(** C6: a module whose descriptor is read and parsed.  Without the
    [webidl2js] section the module contributes no entry and raises no error;
    with it, the module contributes one entry per listed IDL path, in order,
    resolved against the directory of the descriptor and carrying the output
    subpath of the module in place of an implementation directory. *)
Theorem collect_module_entries fs (modName packageJSON text : string) pkg :
  fs_readFile fs packageJSON = Ok text ->
  JSON_parse text = Ok pkg ->
  (webidl2js pkg = None -> collect_module fs (modName, packageJSON) = Ok [])
  /\ (forall section, webidl2js pkg = Some section ->
        exists entries,
          collect_module fs (modName, packageJSON) = Ok entries
          /\ length entries = length (pkg_idl section)
          /\ forall k file, pkg_idl section !! k = Some file ->
               entries !! k
               = Some {| idlPath := path_resolve (path_dirname packageJSON) file;
                         file_impl := None;
                         file_genPath :=
                           Some (path_posix_join modName (pkg_interface section)) |}).
Proof.
  intros Hread Hjson. unfold collect_module. rewrite Hread. simpl.
  rewrite Hjson. simpl. split.
  - by intros ->.
  - intros section ->. eexists. split_and!; [reflexivity | apply length_map |].
    intros k file Hk. by rewrite list_lookup_fmap, Hk.
Qed.

(** *** The whole collection *)

Lemma settle_all_ok (order : list nat) (contributions : list (list FileEntry))
    (files : list FileEntry) :
  settle order (Ok <$> contributions) files
  = Ok (files ++ concat (omap (settled (Ok <$> contributions)) order)).
Proof.
  revert files. induction order as [|i order IH]; intros files; simpl.
  - by rewrite app_nil_r.
  - assert (settled (Ok <$> contributions) i = contributions !! i) as ->.
    { unfold settled. rewrite list_lookup_fmap. by destruct (contributions !! i). }
    rewrite list_lookup_fmap.
    destruct (contributions !! i) as [pushed|]; simpl; [|apply IH].
    rewrite IH. by rewrite <- app_assoc.
Qed.

Lemma omap_settled_seq (contributions : list (list FileEntry)) :
  omap (settled (Ok <$> contributions)) (seq 0 (length contributions)) = contributions.
Proof.
  induction contributions as [|c cs IH] using rev_ind; [done|].
  rewrite length_app. simpl. rewrite Nat.add_1_r, seq_S, omap_app. simpl.
  assert (settled (Ok <$> cs ++ [c]) (length cs) = Some c) as ->.
  { unfold settled. by rewrite list_lookup_fmap, list_lookup_middle. }
  f_equal. etrans; [|exact IH].
  apply list_omap_ext, Forall2_same_length_lookup_2; [done|].
  intros i x y Hx Hy. rewrite Hx in Hy. injection Hy as <-.
  apply lookup_seq in Hx as [-> Hlt]. unfold settled.
  by rewrite fmap_app, lookup_app_l by (by rewrite length_fmap).
Qed.

(** When every coroutine runs through, the collected files are the
    contributions of the sources and of the modules, each contribution
    contiguous, in the order of completion. *)
Lemma _collectSources_Permutation (order : list nat) t fs
    (contributions : list (list FileEntry)) :
  order ≡ₚ seq 0 (length contributions) ->
  map (collect_source fs) (sources t) ++ map (collect_module fs) (modules t)
  = Ok <$> contributions ->
  exists files, _collectSources order t fs = Ok files /\ files ≡ₚ concat contributions.
Proof.
  intros Horder Hall. unfold _collectSources. rewrite Hall, settle_all_ok.
  eexists. split; [done|]. simpl.
  rewrite Horder, omap_settled_seq. done.
Qed.

(** When a coroutine throws, so does the collection. *)
Lemma settle_throws (order : list nat) (promises : list (Result (list FileEntry)))
    (files : list FileEntry) i e :
  i ∈ order -> promises !! i = Some (Throw e) ->
  is_ok (settle order promises files) = false.
Proof.
  revert files. induction order as [|j order IH]; intros files Hin Hi; simpl.
  - by apply elem_of_nil in Hin.
  - apply elem_of_cons in Hin as [<- | Hin]; [by rewrite Hi|].
    destruct (promises !! j) as [[pushed|e']|]; simpl; auto.
Qed.

End Collection.

Lemma collect_source_entries_witness :
  let env := Demo.collaborators [] [] in
  (exists entries,
     @collect_source _ _ env Demo.volume {| src_idlPath := "idl"; src_impl := "impl" |}
     = Ok entries
     /\ idlPath <$> entries = ["idl/A.idl"; "idl/B.idl"; "idl/sub.idl"])
  /\ @collect_source _ _ env Demo.volume
       {| src_idlPath := "single.webidl"; src_impl := "impl" |}
     = Ok [ {| idlPath := "single.webidl"; file_impl := Some "impl";
               file_genPath := None |} ].
Proof.
  intros env. split.
  - destruct (proj1 (@collect_source_entries _ _ env Demo.volume
                       {| src_idlPath := "idl"; src_impl := "impl" |}) eq_refl)
      as (listing & entries & Hlist & Hrun & -> & _ & _).
    injection Hlist as <-.
    eexists. split; [exact Hrun | reflexivity].
  - exact (proj2 (@collect_source_entries _ _ env Demo.volume
                    {| src_idlPath := "single.webidl"; src_impl := "impl" |}) eq_refl).
Defined.

(** C5 (counterexample): the directory [idl] holds the files [A.idl],
    [notes.txt] and [B.idl] and the subdirectory [sub.idl].  The
    subdirectory yields an entry, so the entries are not those of the
    directly-contained files with the extension. *)
Lemma subdirectory_named_idl_collected :
  let env := Demo.collaborators [] [] in
  let src := {| src_idlPath := "idl"; src_impl := "impl" |} in
  fs_readdir Demo.volume "idl" = Ok ["A.idl"; "notes.txt"; "B.idl"; "sub.idl"]
  /\ fs_stat Demo.volume "idl/sub.idl" = Ok true
  /\ (exists entries,
        @collect_source _ _ env Demo.volume src = Ok entries
        /\ idlPath <$> entries = ["idl/A.idl"; "idl/B.idl"; "idl/sub.idl"])
  /\ @collect_source _ _ env Demo.volume src
     <> Ok (@directory_entries_of_files _ _ env Demo.volume src
              ["A.idl"; "notes.txt"; "B.idl"; "sub.idl"]).
Proof.
  intros env src. split_and!; [reflexivity | reflexivity | | ].
  - eexists. split; reflexivity.
  - vm_compute. discriminate.
Qed.

(** A directory source holding such a subdirectory makes the build fail in
    the document loader, which cannot read a directory. *)
Example directory_with_subdirectory_fails :
  let env := Demo.collaborators Demo.scenario_table [] in
  let w := {| this := (addSource (JSString "idl") (JSString "impl")
                         (Demo.transformer env false)).2;
              disk := Demo.volume |} in
  (@generate _ _ env "out" [0] w).1 = Throw (IOError "idl/sub.idl").
Proof. reflexivity. Qed.

Lemma collect_module_entries_witness :
  let env := Demo.collaborators [] Demo.json_table in
  @collect_module _ _ env Demo.volume ("plain", "node_modules/plain/package.json") = Ok []
  /\ exists entries,
       @collect_module _ _ env Demo.volume ("dep", "node_modules/dep/package.json")
       = Ok entries
       /\ length entries = 2
       /\ entries !! 1
          = Some {| idlPath := "node_modules/dep/y.idl";
                    file_impl := None;
                    file_genPath := Some "dep/generated" |}.
Proof.
  intros env. split.
  - apply (proj1 (@collect_module_entries _ _ env Demo.volume "plain"
                    "node_modules/plain/package.json" "{ }"
                    {| webidl2js := None |} eq_refl eq_refl)).
    reflexivity.
  - destruct (proj2 (@collect_module_entries _ _ env Demo.volume "dep"
                       "node_modules/dep/package.json" "{ webidl2js: ... }"
                       {| webidl2js := Some {| pkg_interface := "generated";
                                               pkg_idl := ["x.idl"; "y.idl"] |} |}
                       eq_refl eq_refl) _ eq_refl)
      as (entries & Hrun & Hlen & Hk).
    exists entries. split_and!; [exact Hrun | exact Hlen |].
    apply (Hk 1 "y.idl" eq_refl).
Defined.

(** ** Document loader *)

Section Loading.
Implicit Types (fs : FS) (files : list FileEntry).

Lemma map_result_Ok {A B} (f : A -> Result B) (l : list A) (ys : list B) :
  map_result f l = Ok ys <-> Forall2 (fun x y => f x = Ok y) l ys.
Proof.
  revert ys. induction l as [|x l IH]; intros ys; simpl.
  - split; [intros [= <-]; constructor | by intros ->%Forall2_nil_inv_l].
  - destruct (f x) as [y|e] eqn:Hx.
    + destruct (map_result f l) as [ys'|e] eqn:Hl.
      * split.
        -- intros [= <-]. constructor; [done | by apply IH].
        -- intros (y' & ys'' & Hy & Hys & ->)%Forall2_cons_inv_l.
           apply IH in Hys. congruence.
      * split; [done|].
        intros (y' & ys'' & Hy & Hys & ->)%Forall2_cons_inv_l.
        by apply IH in Hys.
    + split; [done|].
      intros (y' & ys'' & Hy & Hys & ->)%Forall2_cons_inv_l. congruence.
Qed.

Lemma map_result_throws {A B} (f : A -> Result B) (l : list A) x :
  x ∈ l -> is_ok (f x) = false -> is_ok (map_result f l) = false.
Proof.
  induction l as [|y l IH]; intros Hin Hx; simpl.
  - by apply elem_of_nil in Hin.
  - apply elem_of_cons in Hin as [<- | Hin].
    + by destruct (f x).
    + destruct (f y); [|done]. specialize (IH Hin Hx).
      by destruct (map_result f l).
Qed.

Lemma map_result_all_ok {A B} (f : A -> Result B) (l : list A) :
  Forall (fun x => is_ok (f x) = true) l -> exists ys, map_result f l = Ok ys.
Proof.
  induction 1 as [|x l Hx _ [ys IH]]; simpl; [by eexists|].
  destruct (f x); [|done]. rewrite IH. by eexists.
Qed.

(** The index loop of [_readFiles] over two arrays of the same length is
    their positional zip. *)
Lemma index_loop_zip {A B C} (mk : A -> B -> C) (pa : list A) (pb : list B)
    (xs : list A) (ys : list B) :
  length pa = length pb -> length xs = length ys ->
  omap (fun i => match (pa ++ xs) !! i, (pb ++ ys) !! i with
                 | Some x, Some y => Some (mk x y)
                 | _, _ => None
                 end)
       (seq (length pb) (length ys))
  = zip_with mk xs ys.
Proof.
  revert pa pb xs. induction ys as [|y ys IH]; intros pa pb xs Hp Hlen.
  - by destruct xs.
  - destruct xs as [|x xs]; [done|]. simpl.
    rewrite <- Hp at 1. rewrite !list_lookup_middle by done. f_equal.
    specialize (IH (pa ++ [x]) (pb ++ [y]) xs).
    rewrite !length_app in IH. simpl in IH. rewrite !Nat.add_1_r in IH.
    rewrite <- !app_assoc in IH. simpl in IH.
    apply IH; [by rewrite Hp | by injection Hlen].
Qed.

(** C7: when every file can be read, [_readFiles] returns as many documents
    as there are entries, the [i]-th pairing the text of the [i]-th entry's
    path with the [i]-th entry's [impl] and [genPath]; when some file cannot
    be read, [_readFiles] throws and returns no document at all. *)
Theorem readFiles_zip files fs :
  (Forall (fun f => is_ok (fs_readFile fs (idlPath f)) = true) files ->
     exists docs,
       _readFiles files fs = Ok docs
       /\ length docs = length files
       /\ forall i f, files !! i = Some f ->
            exists text,
              fs_readFile fs (idlPath f) = Ok text
              /\ docs !! i = Some {| idlContent := text;
                                     content_impl := file_impl f;
                                     content_genPath := file_genPath f |})
  /\ (Exists (fun f => is_ok (fs_readFile fs (idlPath f)) = false) files ->
        exists e, _readFiles files fs = Throw e).
Proof.
  unfold _readFiles. split.
  - intros Hall.
    destruct (map_result_all_ok (fun f => fs_readFile fs (idlPath f)) files Hall)
      as [texts Htexts].
    rewrite Htexts. simpl. apply map_result_Ok in Htexts.
    pose proof (Forall2_length _ _ _ Htexts) as Hlen.
    pose proof (index_loop_zip
                  (fun content f => {| idlContent := content;
                                       content_impl := file_impl f;
                                       content_genPath := file_genPath f |})
                  [] [] texts files eq_refl (eq_sym Hlen)) as Hzip.
    simpl in Hzip. rewrite Hzip.
    eexists. split_and!; [reflexivity | by rewrite length_zip_with_r_eq |].
    intros i f Hf.
    destruct (Forall2_lookup_l _ _ _ _ _ Htexts Hf) as (text & Htext & Hread).
    exists text. split; [done|].
    rewrite lookup_zip_with, Htext. simpl. by rewrite Hf.
  - intros (f & Hin & Hf)%Exists_exists.
    pose proof (map_result_throws (fun f => fs_readFile fs (idlPath f)) files f Hin Hf)
      as Hthrow.
    destruct (map_result _ files) as [?|e]; [done|]. by exists e.
Qed.

End Loading.

Lemma readFiles_zip_witness :
  let files :=
    [ {| idlPath := "idl/B.idl"; file_impl := Some "impl"; file_genPath := None |};
      {| idlPath := "idl/A.idl"; file_impl := None; file_genPath := Some "dep/generated" |} ] in
  (exists docs,
     _readFiles files Demo.volume = Ok docs
     /\ length docs = 2
     /\ docs !! 1 = Some {| idlContent := "interface Foo { long x; };";
                            content_impl := None;
                            content_genPath := Some "dep/generated" |})
  /\ exists e,
       _readFiles (files ++ [ {| idlPath := "idl/missing.idl"; file_impl := None;
                                 file_genPath := None |} ]) Demo.volume
       = Throw e.
Proof.
  intros files. split.
  - destruct (proj1 (readFiles_zip files Demo.volume)) as (docs & Hrun & Hlen & Hi).
    { repeat constructor. }
    exists docs. split_and!; [exact Hrun | exact Hlen |].
    destruct (Hi 1 _ eq_refl) as (text & Htext & ->).
    injection Htext as <-. reflexivity.
  - apply (proj2 (readFiles_zip _ Demo.volume)).
    apply Exists_exists.
    exists {| idlPath := "idl/missing.idl"; file_impl := None; file_genPath := None |}.
    split; [|reflexivity].
    apply elem_of_app. right. apply list_elem_of_singleton. reflexivity.
Defined.

(** ** Emission driver *)

Section Emission.
Context {Member ExtAttr : Type} `{!Collaborators Member ExtAttr}.
Local Abbreviation Interface := (Interface Member ExtAttr).
Local Abbreviation Dictionary := (Dictionary Member ExtAttr).
Local Abbreviation Transformer := (Transformer Member ExtAttr).
Local Abbreviation World := (World Member ExtAttr).
Implicit Types (t : Transformer) (w : World) (fs : FS).

Lemma fs_writeFile_Ok p content fs fs' :
  fs_writeFile p content fs = (Ok tt, fs') ->
  fs_writes fs' = fs_writes fs ++ [(p, content)].
Proof.
  unfold fs_writeFile. cbv zeta. case_decide; [done|].
  destruct (fs_denied fs p); [done|].
  destruct (fs_dirs fs !! fs_locate fs p); [done|].
  destruct (fs_dirs fs !! fs_parent fs (fs_locate fs p)); [|done].
  by intros [= <-].
Qed.

Lemma write_interface_Ok outputDir (obj : Interface) w w' :
  write_interface outputDir obj w = (Ok tt, w') ->
  this w' = this w
  /\ if Interface_imported obj
     then fs_writes (disk w') = fs_writes (disk w)
     else exists source,
            interface_source outputDir (this w) obj = Ok source
            /\ fs_writes (disk w')
               = fs_writes (disk w)
                 ++ [(path_join outputDir (iface_name obj ++ ".js"), source)].
Proof.
  unfold write_interface. destruct (Interface_imported obj).
  { by intros [= <-]. }
  unfold bind, get_state, lift_result, on_disk.
  destruct (interface_source outputDir (this w) obj) as [source|e]; [|done].
  destruct (fs_writeFile _ source (disk w)) as [[[]|e] fs'] eqn:Hwrite; [|done].
  intros [= <-]. simpl. apply fs_writeFile_Ok in Hwrite. eauto.
Qed.

Lemma write_dictionary_Ok outputDir (obj : Dictionary) w w' :
  write_dictionary outputDir obj w = (Ok tt, w') ->
  this w' = this w
  /\ if Dictionary_imported obj
     then fs_writes (disk w') = fs_writes (disk w)
     else exists source,
            dictionary_source outputDir (this w) obj = Ok source
            /\ fs_writes (disk w')
               = fs_writes (disk w)
                 ++ [(path_join outputDir (dict_name obj ++ ".js"), source)].
Proof.
  unfold write_dictionary. destruct (Dictionary_imported obj).
  { by intros [= <-]. }
  unfold bind, get_state, lift_result, on_disk.
  destruct (dictionary_source outputDir (this w) obj) as [source|e]; [|done].
  destruct (fs_writeFile _ source (disk w)) as [[[]|e] fs'] eqn:Hwrite; [|done].
  intros [= <-]. simpl. apply fs_writeFile_Ok in Hwrite. eauto.
Qed.

(** A loop of writers that ran through has written, in order, one file for
    each element it does not skip. *)
Lemma for_each_writes {A} (body : A -> M World unit) (skip : A -> bool)
    (path : A -> string) (text : Transformer -> A -> Result string)
    (objs : list A) w w' :
  (forall obj w w', body obj w = (Ok tt, w') ->
     this w' = this w
     /\ if skip obj then fs_writes (disk w') = fs_writes (disk w)
        else exists source,
               text (this w) obj = Ok source
               /\ fs_writes (disk w') = fs_writes (disk w) ++ [(path obj, source)]) ->
  for_each body objs w = (Ok tt, w') ->
  this w' = this w
  /\ exists writes,
       fs_writes (disk w') = fs_writes (disk w) ++ writes
       /\ Forall2 (fun obj wr => wr.1 = path obj /\ text (this w) obj = Ok wr.2)
            (filter (fun obj => skip obj = false) objs) writes.
Proof.
  intros Hbody. revert w. induction objs as [|obj objs IH]; intros w; simpl.
  - intros [= <-]. split; [done|]. exists []. by rewrite app_nil_r.
  - intros ([] & w1 & H1 & Hrest)%bind_Ok_inv.
    apply Hbody in H1 as (Ht1 & H1).
    apply IH in Hrest as (Ht & writes & Hw & Hall).
    rewrite Ht, Ht1. split; [done|].
    rewrite filter_cons. rewrite Ht1 in Hall.
    destruct (skip obj) eqn:Hskip.
    + rewrite decide_False by done. exists writes. by rewrite Hw, H1.
    + rewrite decide_True by done. destruct H1 as (source & Hsrc & H1).
      exists ((path obj, source) :: writes). split.
      * rewrite Hw, H1. by rewrite <- app_assoc.
      * by constructor.
Qed.

(** A successful [_writeFiles] wrote the utility module at [utilPath], then
    one file per interface that is not imported, then one file per
    dictionary that is not imported, and nothing else. *)
Lemma _writeFiles_Ok outputDir w w' :
  _writeFiles outputDir w = (Ok tt, w') ->
  this w' = this w
  /\ exists p utilsText iw dw,
       utilPath (options (this w)) = Some p
       /\ fs_readFile (disk w) (path_resolve __dirname "output/utils.js") = Ok utilsText
       /\ fs_writes (disk w') = fs_writes (disk w) ++ (p, utilsText) :: iw ++ dw
       /\ interface_files outputDir (this w)
            (JSMap.values (interfaces (ctx (this w)))) iw
       /\ dictionary_files outputDir (this w)
            (JSMap.values (dictionaries (ctx (this w)))) dw.
Proof.
  unfold _writeFiles. unfold bind at 1, get_state. unfold bind at 1, lift_result.
  destruct (fs_readFile (disk w) _) as [utilsText|e] eqn:Hread; [|done].
  intros ([] & w1 & Hutil & ([] & w2 & Hifaces & Hdicts)%bind_Ok_inv)%bind_Ok_inv.
  destruct (utilPath (options (this w))) as [p|] eqn:Hp; [|done].
  unfold on_disk in Hutil.
  destruct (fs_writeFile p utilsText (disk w)) as [[[]|e] fs1] eqn:Hwrite; [|done].
  injection Hutil as <-. apply fs_writeFile_Ok in Hwrite as Hw1.
  apply (for_each_writes _ Interface_imported
           (fun obj => path_join outputDir (iface_name obj ++ ".js"))
           (interface_source outputDir)) in Hifaces
    as (Ht2 & iw & Hw2 & Hiw); [|apply write_interface_Ok].
  apply (for_each_writes _ Dictionary_imported
           (fun obj => path_join outputDir (dict_name obj ++ ".js"))
           (dictionary_source outputDir)) in Hdicts
    as (Ht' & dw & Hw' & Hdw); [|apply write_dictionary_Ok].
  simpl in *. rewrite Ht', Ht2. split; [done|].
  exists p, utilsText, iw, dw. split_and!; [done | done | | done |].
  - rewrite Hw', Hw2, Hw1. by rewrite <- !app_assoc.
  - by rewrite Ht2 in Hdw.
Qed.

(** *** [_writeFiles] never touches the transformer *)

Lemma write_interface_this outputDir (obj : Interface) w :
  this (write_interface outputDir obj w).2 = this w.
Proof.
  unfold write_interface. destruct (Interface_imported obj); [done|].
  unfold bind, get_state, lift_result, on_disk.
  destruct (interface_source outputDir (this w) obj); [|done].
  by destruct (fs_writeFile _ _ (disk w)) as [[[]|e] fs'].
Qed.

Lemma write_dictionary_this outputDir (obj : Dictionary) w :
  this (write_dictionary outputDir obj w).2 = this w.
Proof.
  unfold write_dictionary. destruct (Dictionary_imported obj); [done|].
  unfold bind, get_state, lift_result, on_disk.
  destruct (dictionary_source outputDir (this w) obj); [|done].
  by destruct (fs_writeFile _ _ (disk w)) as [[[]|e] fs'].
Qed.

Lemma _writeFiles_this outputDir w : this (_writeFiles outputDir w).2 = this w.
Proof.
  unfold _writeFiles. unfold bind at 1, get_state. unfold bind at 1, lift_result.
  destruct (fs_readFile (disk w) _) as [utilsText|e]; [|done].
  unfold bind at 1.
  assert (this (match utilPath (options (this w)) with
                | Some p => on_disk (fs_writeFile p utilsText)
                | None => throw (TypeError "path must be a string or Buffer")
                end w).2 = this w) as Hutil.
  { destruct (utilPath (options (this w))); [|done]. unfold on_disk.
    by destruct (fs_writeFile _ _ (disk w)). }
  destruct (match utilPath (options (this w)) with
            | Some p => on_disk (fs_writeFile p utilsText)
            | None => throw (TypeError "path must be a string or Buffer")
            end w) as [[[]|e] w1]; [|done]. simpl in Hutil.
  unfold bind.
  assert (forall {A} (body : A -> M World unit) l s,
            (forall x s, this (body x s).2 = this s) ->
            this s = this w -> this (for_each body l s).2 = this w) as Hloop.
  { intros A body l s Hbody Hs.
    apply (for_each_invariant (fun s => this s = this w)); [|done].
    intros x s' _ <-. apply Hbody. }
  pose proof (Hloop _ (write_interface outputDir)
                (JSMap.values (interfaces (ctx (this w)))) w1
                (write_interface_this outputDir) Hutil) as Hi.
  destruct (for_each (write_interface outputDir) _ w1) as [[[]|e] w2]; simpl in *;
    [|done].
  apply Hloop; [apply write_dictionary_this | done].
Qed.

(** *** [generate] *)

Lemma set_utilPath_id p t : utilPath (options t) = Some p -> set_utilPath (Some p) t = t.
Proof. destruct t as [c [s u i] srcs mods]. simpl. by intros ->. Qed.

Lemma falsy_effective outputDir t :
  (if falsy (utilPath (options t))
   then set_utilPath (Some (path_join outputDir "utils.js")) t
   else t)
  = set_utilPath (Some (effective_utilPath outputDir t)) t.
Proof.
  unfold falsy, effective_utilPath.
  destruct (utilPath (options t)) as [p|] eqn:Hp; [|done].
  case_bool_decide; [by rewrite decide_True | rewrite decide_False by done].
  by rewrite set_utilPath_id.
Qed.

Lemma _parse_options outputDir contents t :
  options (_parse outputDir contents t).2 = options t.
Proof.
  unfold _parse, bind, lift_result, get_state, on_ctx.
  destruct (parse_contents contents) as [parsed|]; [|done].
  destruct (pass1 (suppressErrors (options t)) outputDir parsed (ctx t))
    as [[[]|e] c1]; [|done].
  by destruct (pass2 (suppressErrors (options t)) parsed c1) as [[[]|e] c2].
Qed.

Lemma entered_fresh outputDir t : fresh_registry (ctx (entered outputDir t)).
Proof. by repeat split. Qed.

(** [generate], phase by phase. *)
Lemma generate_run outputDir order w :
  generate outputDir order w
  = let t0 := entered outputDir (this w) in
    match _collectSources order t0 (disk w) with
    | Throw e => (Throw e, {| this := t0; disk := disk w |})
    | Ok files =>
        match _readFiles files (disk w) with
        | Throw e => (Throw e, {| this := t0; disk := disk w |})
        | Ok contents =>
            match _parse outputDir contents t0 with
            | (Ok _, t1) => _writeFiles outputDir {| this := t1; disk := disk w |}
            | (Throw e, t1) => (Throw e, {| this := t1; disk := disk w |})
            end
        end
    end.
Proof.
  unfold generate, entered. unfold bind at 1, on_this at 1. simpl.
  unfold bind at 1, get_state at 1.
  assert ((if falsy (utilPath (options (this w)))
           then modify_state (set_utilPath (Some (path_join outputDir "utils.js")))
           else ret tt) (this w)
          = (Ok tt, set_utilPath (Some (effective_utilPath outputDir (this w))) (this w)))
    as ->.
  { rewrite <- falsy_effective. by destruct (falsy _). }
  unfold bind at 1, on_this at 1, modify_state. simpl.
  unfold bind at 1, get_state. unfold bind at 1, lift_result. simpl.
  destruct (_collectSources order _ (disk w)) as [files|e]; [|done].
  unfold bind at 1. destruct (_readFiles files (disk w)) as [contents|e]; [|done].
  unfold bind at 1, on_this. simpl.
  by destruct (_parse outputDir contents _) as [[[]|e] t1].
Qed.

(** Whatever its outcome, [generate] leaves [utilPath] at the path it
    worked with and changes no other option. *)
Lemma generate_options outputDir order w :
  options (this (generate outputDir order w).2)
  = options (set_utilPath (Some (effective_utilPath outputDir (this w))) (this w)).
Proof.
  rewrite generate_run. cbv zeta.
  destruct (_collectSources order _ (disk w)) as [files|e]; [|done].
  destruct (_readFiles files (disk w)) as [contents|e]; [|done].
  pose proof (_parse_options outputDir contents (entered outputDir (this w))) as Hp.
  destruct (_parse outputDir contents _) as [[[]|e] t1]; simpl in *; [|done].
  by rewrite _writeFiles_this.
Qed.

(** A [generate] that ran through: the option it leaves, and the files it
    wrote. *)
Lemma generate_Ok outputDir order w w' :
  generate outputDir order w = (Ok tt, w') ->
  exists utilsText iw dw,
    utilPath (options (this w')) = Some (effective_utilPath outputDir (this w))
    /\ fs_readFile (disk w) (path_resolve __dirname "output/utils.js") = Ok utilsText
    /\ fs_writes (disk w')
       = fs_writes (disk w)
         ++ (effective_utilPath outputDir (this w), utilsText) :: iw ++ dw
    /\ interface_files outputDir (this w')
         (JSMap.values (interfaces (ctx (this w')))) iw
    /\ dictionary_files outputDir (this w')
         (JSMap.values (dictionaries (ctx (this w')))) dw.
Proof.
  intros Hrun. rewrite generate_run in Hrun. cbv zeta in Hrun.
  destruct (_collectSources order _ (disk w)) as [files|e]; [|done].
  destruct (_readFiles files (disk w)) as [contents|e]; [|done].
  pose proof (_parse_options outputDir contents (entered outputDir (this w))) as Hopts.
  destruct (_parse outputDir contents _) as [[[]|e] t1]; [|done]. simpl in Hopts.
  apply _writeFiles_Ok in Hrun
    as (Hthis & p & utilsText & iw & dw & Hp & Hread & Hw & Hi & Hd).
  simpl in *. rewrite Hopts in Hp. simpl in Hp. injection Hp as <-.
  exists utilsText, iw, dw. rewrite Hthis. rewrite Hopts. simpl.
  by split_and!.
Qed.

(** C8: a [generate] that ran through has written exactly these files, in
    this order: the utility module at [utilPath] -- which is
    [<outputDir>/utils.js] unless the option was set -- then one file
    [<outputDir>/<name>.js] for each interface of the registry that is not
    imported, then one for each dictionary that is not imported. *)
Theorem generate_emits outputDir order w :
  forall w', generate outputDir order w = (Ok tt, w') ->
     exists utilsText iw dw,
       utilPath (options (this w')) = Some (effective_utilPath outputDir (this w))
       /\ (falsy (utilPath (options (this w))) = true ->
             effective_utilPath outputDir (this w) = path_join outputDir "utils.js")
       /\ fs_readFile (disk w) (path_resolve __dirname "output/utils.js") = Ok utilsText
       /\ fs_writes (disk w')
          = fs_writes (disk w)
            ++ (effective_utilPath outputDir (this w), utilsText) :: iw ++ dw
       /\ interface_files outputDir (this w')
            (JSMap.values (interfaces (ctx (this w')))) iw
       /\ dictionary_files outputDir (this w')
            (JSMap.values (dictionaries (ctx (this w')))) dw.
Proof.
  intros w' Hrun.
  destruct (generate_Ok _ _ _ _ Hrun) as (utilsText & iw & dw & Hu & Hr & Hw & Hi & Hd).
  exists utilsText, iw, dw. split_and!; try done.
  unfold falsy, effective_utilPath.
  destruct (utilPath (options (this w))) as [p|]; [|done].
  intros Hf%bool_decide_eq_true_1. by rewrite decide_True.
Qed.

Lemma effective_utilPath_falsy outputDir t :
  falsy (utilPath (options t)) = true ->
  effective_utilPath outputDir t = path_join outputDir "utils.js".
Proof.
  unfold falsy, effective_utilPath. destruct (utilPath (options t)); [|done].
  intros Hf%bool_decide_eq_true_1. by rewrite decide_True.
Qed.

Lemma effective_utilPath_set outputDir t :
  falsy (utilPath (options t)) = false ->
  utilPath (options t) = Some (effective_utilPath outputDir t).
Proof.
  unfold falsy, effective_utilPath. destruct (utilPath (options t)); [|done].
  intros Hf%bool_decide_eq_false_1. by rewrite decide_False.
Qed.

Lemma generate_utilPath outputDir order w :
  utilPath (options (this (generate outputDir order w).2))
  = Some (effective_utilPath outputDir (this w)).
Proof. by rewrite generate_options. Qed.

Lemma addModule_options (moduleName packageJSONPath : JSValue) t :
  options (addModule moduleName packageJSONPath t).2 = options t.
Proof.
  unfold addModule, bind, lift_result, ret, throw, modify_state.
  destruct packageJSONPath as [|p|], moduleName as [|m|]; simpl; try done.
  by destruct (require_resolve _).
Qed.

(** C9: an option [utilPath] that is set (to a non-empty path) is left
    alone by [addSource], [addModule] and [generate], whatever their
    outcome.  A first [generate(out1)] with the option unset sets it to
    [<out1>/utils.js]; a second [generate(out2)] on the same transformer
    leaves it there, and when it runs through it has written the utility
    module to [<out1>/utils.js] and made the text of every file with the
    utility import taken relative from [out2] to [<out1>/utils.js].
    ([path.join] never returns the empty string.) *)
Theorem utilPath_fixed_by_first_generate out1 order1 out2 order2 w :
  falsy (utilPath (options (this w))) = true ->
  path_join out1 "utils.js" <> EmptyString ->
  let first := path_join out1 "utils.js" in
  let relativeUtils :=
    force_relative (replace_backslashes (path_relative out2 first)) in
  let w1 := (generate out1 order1 w).2 in
  let r2 := generate out2 order2 w1 in
  utilPath (options (this w1)) = Some first
  /\ utilPath (options (this r2.2)) = Some first
  /\ (r2.1 = Ok tt ->
        exists utilsText iw dw,
          fs_writes (disk r2.2) = fs_writes (disk w1) ++ (first, utilsText) :: iw ++ dw
          /\ interface_files out2 (this r2.2)
               (JSMap.values (interfaces (ctx (this r2.2)))) iw
          /\ dictionary_files out2 (this r2.2)
               (JSMap.values (dictionaries (ctx (this r2.2)))) dw
          /\ (forall obj : Interface,
                interface_source out2 (this r2.2) obj
                = result_bind (relative_slashes out2 (implDir obj)) (fun implDir =>
                    _prettify
                      (interface_module relativeUtils
                         (Interface_toString (ctx (this r2.2)) obj)
                         (force_relative
                            (implDir ++ "/" ++ iface_name obj
                               ++ implSuffix (ctx (this r2.2)))))))
          /\ (forall obj : Dictionary,
                dictionary_source out2 (this r2.2) obj
                = _prettify
                    (dictionary_module relativeUtils
                       (Dictionary_toString (ctx (this r2.2)) obj))))
  /\ (forall (idl impl : JSValue) t,
        options (addSource idl impl t).2 = options t)
  /\ (forall (moduleName packageJSONPath : JSValue) t,
        options (addModule moduleName packageJSONPath t).2 = options t)
  /\ (forall outputDir order w0,
        falsy (utilPath (options (this w0))) = false ->
        utilPath (options (this (generate outputDir order w0).2))
        = utilPath (options (this w0))).
Proof.
  intros Hunset Hne first relativeUtils w1 r2.
  assert (utilPath (options (this w1)) = Some first) as H1.
  { unfold w1. rewrite generate_utilPath. by rewrite effective_utilPath_falsy. }
  assert (falsy (utilPath (options (this w1))) = false) as Hset.
  { rewrite H1. simpl. by apply bool_decide_eq_false_2. }
  assert (effective_utilPath out2 (this w1) = first) as Heff.
  { pose proof (effective_utilPath_set out2 (this w1) Hset) as H. congruence. }
  assert (utilPath (options (this r2.2)) = Some first) as H2.
  { unfold r2. rewrite generate_utilPath. by rewrite Heff. }
  split_and!; [done | done | | | apply addModule_options |].
  - intros Hok.
    destruct (generate_Ok out2 order2 w1 r2.2)
      as (utilsText & iw & dw & _ & _ & Hw & Hi & Hd).
    { fold r2. by destruct r2 as [[[]|e] w2]. }
    rewrite Heff in Hw. exists utilsText, iw, dw. split_and!; try done.
    + intros obj. unfold interface_source. rewrite H2. simpl.
      by destruct (relative_slashes out2 (implDir obj)).
    + intros obj. unfold dictionary_source. rewrite H2. done.
  - intros idl impl t. unfold addSource.
    destruct idl as [|idl|]; try done. by destruct impl.
  - intros outputDir order w0 Hset0. rewrite generate_utilPath.
    by rewrite <- effective_utilPath_set.
Qed.

End Emission.

Lemma generate_emits_witness :
  let env := Demo.collaborators Demo.scenario_table Demo.json_table in
  let w' := (@generate _ _ env "out" [0; 1] (Demo.world env)).2 in
  @generate _ _ env "out" [0; 1] (Demo.world env) = (Ok tt, w')
  /\ fst <$> fs_writes (disk w') = ["out/utils.js"; "out/Foo.js"; "out/Bar.js"]
  /\ exists utilsText iw dw,
       utilPath (options (this w')) = Some "out/utils.js"
       /\ fs_writes (disk w') = ("out/utils.js", utilsText) :: iw ++ dw
       /\ @interface_files _ _ env "out" (this w')
            (JSMap.values (interfaces (ctx (this w')))) iw
       /\ @dictionary_files _ _ env "out" (this w')
            (JSMap.values (dictionaries (ctx (this w')))) dw.
Proof.
  intros env w'.
  assert (@generate _ _ env "out" [0; 1] (Demo.world env) = (Ok tt, w')) as Hrun.
  { vm_compute. reflexivity. }
  split_and!; [exact Hrun | vm_compute; reflexivity |].
  destruct (@generate_emits _ _ env "out" [0; 1] (Demo.world env) w' Hrun)
    as (utilsText & iw & dw & Hu & _ & _ & Hw & Hi & Hd).
  exists utilsText, iw, dw.
  split_and!; [exact Hu | exact Hw | exact Hi | exact Hd].
Defined.

(** Generating into a directory that does not exist fails at the first
    write and leaves nothing written. *)
Example generate_into_missing_directory_throws :
  let env := Demo.collaborators Demo.scenario_table Demo.json_table in
  let r := @generate _ _ env "nodir" [0; 1] (Demo.world env) in
  is_ok r.1 = false /\ fs_writes (disk r.2) = [].
Proof. split; vm_compute; reflexivity. Qed.

(** A file written under one spelling is read under another, and is listed
    in its directory. *)
Example spellings_share_a_file :
  let fs := (fs_writeFile "./out/utils.js" "module.exports = {};" Demo.volume).2 in
  fs_readFile fs "out/utils.js" = Ok "module.exports = {};"
  /\ fs_readdir fs "out" = Ok ["utils.js"]
  /\ fs_writes fs = [("./out/utils.js", "module.exports = {};")].
Proof. split_and!; vm_compute; reflexivity. Qed.

Lemma utilPath_fixed_by_first_generate_witness :
  let env := Demo.collaborators Demo.scenario_table Demo.json_table in
  let w1 := (@generate _ _ env "out" [0; 1] (Demo.world env)).2 in
  let r2 := @generate _ _ env "dist" [1; 0] w1 in
  utilPath (options (this w1)) = Some "out/utils.js"
  /\ utilPath (options (this r2.2)) = Some "out/utils.js"
  /\ r2.1 = Ok tt
  /\ fst <$> fs_writes (disk r2.2)
     = ["out/utils.js"; "out/Foo.js"; "out/Bar.js";
        "out/utils.js"; "dist/Bar.js"; "dist/Foo.js"].
Proof.
  intros env w1 r2.
  destruct (@utilPath_fixed_by_first_generate _ _ env "out" [0; 1] "dist" [1; 0]
              (Demo.world env) eq_refl ltac:(discriminate))
    as (H1 & H2 & _).
  split_and!; [exact H1 | exact H2 | vm_compute; reflexivity | vm_compute; reflexivity].
Defined.

(** * Further properties *)

(** ** Model builder: outcome of [_parse] *)

Section ParseOutcome.
Context {Member ExtAttr : Type} `{!Collaborators Member ExtAttr}.
Local Abbreviation Instruction := (Instruction Member ExtAttr).
Local Abbreviation ParsedDocument := (ParsedDocument Member ExtAttr).
Local Abbreviation Interface := (Interface Member ExtAttr).
Local Abbreviation Dictionary := (Dictionary Member ExtAttr).
Local Abbreviation Context := (Context Member ExtAttr).
Local Abbreviation Transformer := (Transformer Member ExtAttr).
Implicit Types (t : Transformer) (c : Context) (n : string) (i : Instruction).

(** X1: all documents are parsed before anything is registered: when the
    parser rejects one of them, [_parse] throws and the transformer, its
    registry included, is as before. *)
Theorem parse_error_leaves_registry outputDir (contents : list LoadedDocument) t :
  Exists (fun d => is_ok (webidl_parse (idlContent d)) = false) contents ->
  exists e, _parse outputDir contents t = (Throw e, t).
Proof.
  intros (d & Hin & Hd)%Exists_exists.
  assert (is_ok (parse_contents contents) = false) as Hfail.
  { unfold parse_contents. apply (map_result_throws _ _ d Hin).
    by destruct (webidl_parse (idlContent d)). }
  destruct (parse_contents contents) as [parsed|e] eqn:Hparse; [done|].
  exists e. by apply _parse_syntax_error.
Qed.

Lemma fresh_resolvable suppress outputDir (l : list (ParsedDocument * Instruction)) c :
  fresh_registry c ->
  Forall (fun p => ~ unrecognized p.2) l ->
  forall i,
    resolvable (for_each (fun p => pass1_instruction suppress outputDir p.1 p.2) l c).2 i
    <-> (type i = "interface" -> partial i = true ->
           Exists (full_decl "interface" (name i)) l)
        /\ (type i = "dictionary" -> partial i = true ->
              Exists (full_decl "dictionary" (name i)) l)
        /\ (type i = "implements" -> Exists (full_decl "interface" (target i)) l).
Proof.
  intros (Hfi & Hfd & _) Hrec i.
  assert (is_ok (for_each (fun p => pass1_instruction suppress outputDir p.1 p.2)
                   l c).1 = true) as Hok.
  { rewrite pass1_ok. apply bool_decide_eq_true_2. by right. }
  unfold resolvable.
  rewrite !pass1_has_interfaces, !pass1_has_dictionaries by done.
  rewrite Hfi, Hfd. simpl. by rewrite !bool_decide_eq_true.
Qed.

(** X2: on a fresh registry and documents that parse, [_parse] runs through
    exactly when [suppressErrors] is on, or every instruction is of a known
    kind, every partial interface or dictionary has a full declaration of
    its kind and name somewhere in the input, and every [implements]
    statement targets an interface declared in full somewhere in the
    input. *)
Theorem parse_runs_iff outputDir contents (parsed : list ParsedDocument) t :
  fresh_registry (ctx t) ->
  parse_contents contents = Ok parsed ->
  is_ok (_parse outputDir contents t).1 = true
  <-> suppressErrors (options t) = true
      \/ Forall (fun p => well_resolved (instructions parsed) p.2) (instructions parsed).
Proof.
  intros Hfresh Hparse. rewrite (_parse_run _ _ _ _ Hparse). cbv zeta. cbn [fst].
  rewrite resolve_ok, bool_decide_eq_true.
  set (l := instructions parsed). unfold well_resolved.
  split; (intros [Hs | H]; [by left | right]).
  - destruct H as [Hrec Hres]. rewrite Forall_forall in Hres.
    apply Forall_forall. intros p Hp. split.
    + by apply (proj1 (Forall_forall _ _) Hrec).
    + apply (fresh_resolvable (suppressErrors (options t)) outputDir l (ctx t)
               Hfresh Hrec). by apply Hres.
  - assert (Forall (fun p => ~ unrecognized p.2) l) as Hrec.
    { eapply Forall_impl; [exact H|]. by intros p [? _]. }
    split; [done|]. rewrite Forall_forall in H.
    apply Forall_forall. intros p Hp.
    apply (fresh_resolvable (suppressErrors (options t)) outputDir l (ctx t)
             Hfresh Hrec).
    by destruct (H p Hp) as [_ ?].
Qed.

End ParseOutcome.

Lemma parse_error_leaves_registry_witness :
  let env := Demo.collaborators Demo.scenario_table [] in
  exists e,
    @_parse _ _ env "out"
      [ Demo.document "interface Foo { long x; };"; Demo.document "interface {" ]
      (Demo.transformer env false)
    = (Throw e, Demo.transformer env false).
Proof.
  intros env.
  apply (@parse_error_leaves_registry _ _ env).
  apply Exists_cons_tl, Exists_cons_hd. reflexivity.
Defined.

Lemma parse_runs_iff_witness :
  let env := Demo.collaborators Demo.scenario_table [] in
  let contents := [ Demo.document "interface Bar { }; Bar implements Missing;" ] in
  is_ok (@_parse _ _ env "out" contents (Demo.transformer env false)).1 = true
  <-> false = true
      \/ Forall (fun p => well_resolved
                   (instructions
                      [ {| idl := [ Demo.interface_ false "Bar" [];
                                    Demo.implements_ "Bar" "Missing" ];
                           impl := Some "impl"; genPath := None |} ]) p.2)
           (instructions
              [ {| idl := [ Demo.interface_ false "Bar" [];
                            Demo.implements_ "Bar" "Missing" ];
                   impl := Some "impl"; genPath := None |} ]).
Proof.
  intros env contents.
  apply (@parse_runs_iff _ _ env "out" contents); [repeat split | reflexivity].
Defined.

(** ** Model builder: the entries of the registry *)

Section RegistryEntries.
Context {Member ExtAttr : Type} `{!Collaborators Member ExtAttr}.
Local Abbreviation Instruction := (Instruction Member ExtAttr).
Local Abbreviation ParsedDocument := (ParsedDocument Member ExtAttr).
Local Abbreviation Interface := (Interface Member ExtAttr).
Local Abbreviation Dictionary := (Dictionary Member ExtAttr).
Local Abbreviation Context := (Context Member ExtAttr).
Local Abbreviation Transformer := (Transformer Member ExtAttr).
Implicit Types (t : Transformer) (c : Context) (n : string) (i : Instruction).

(** X3: the interface registered under [n] after a successful [_parse] on a
    fresh registry.  There is one exactly when the input holds a full
    interface [n]; it is built from the last of them, [f]: bound to the
    implementation directory of [f]'s document resolved against the output
    directory (left alone when absent or empty) and to the path hint of
    that document's [genPath]; its members and extended attributes are
    those of [f] followed by those of every partial interface [n] of the
    input, and its mixins are the sources of every [implements] statement
    targeting [n], all in processing order. *)
Theorem interface_entry outputDir contents (parsed : list ParsedDocument) t t' n :
  fresh_registry (ctx t) ->
  parse_contents contents = Ok parsed ->
  _parse outputDir contents t = (Ok tt, t') ->
  match last (filter (full_decl "interface" n) (instructions parsed)) with
  | None => JSMap.get n (interfaces (ctx t')) = None
  | Some f =>
      exists obj,
        JSMap.get n (interfaces (ctx t')) = Some obj
        /\ iface_name obj = n
        /\ implDir obj = and_then (impl f.1) (path_resolve outputDir)
        /\ iface_path obj
           = and_then (genPath f.1) (fun g => path_join g (n ++ ".js"))
        /\ members (iface_idl obj)
           = members f.2 ++ partial_members "interface" n (instructions parsed)
        /\ extAttrs (iface_idl obj)
           = extAttrs f.2 ++ partial_extAttrs "interface" n (instructions parsed)
        /\ mixins obj = recorded_mixins n (instructions parsed)
  end.
Proof.
  intros Hfresh Hparse Hrun.
  rewrite (interface_after_parse _ _ _ _ _ n Hfresh Hparse Hrun).
  destruct (last (filter (full_decl "interface" n) (instructions parsed)))
    as [f|] eqn:Hlast; [|done].
  apply last_Some_elem_of, list_elem_of_filter in Hlast as [(_ & _ & Hn) _].
  simpl. eexists. split; [reflexivity|].
  destruct (merged_interface n (instructions parsed)
              (new_Interface f.2
                 (and_then (impl f.1) (path_resolve outputDir))
                 (and_then (genPath f.1) (fun g => path_join g (name f.2 ++ ".js")))))
    as (-> & -> & -> & -> & -> & ->).
  simpl. by rewrite Hn.
Qed.

Lemma fold_left_id {A B} (f : A -> B -> A) (l : list B) (a : A) :
  Forall (fun b => forall a, f a b = a) l -> fold_left f l a = a.
Proof.
  intros Hall. revert a. induction Hall as [|b l Hb _ IH]; intros a; simpl; [done|].
  by rewrite Hb.
Qed.

(** X4: an interface [n] that no partial interface and no [implements]
    statement of the input aims at is registered just as its last full
    declaration stands in the input: the instruction itself, unchanged, and
    no mixin. *)
Theorem interface_round_trip outputDir contents (parsed : list ParsedDocument)
    t t' n (f : ParsedDocument * Instruction) :
  fresh_registry (ctx t) ->
  parse_contents contents = Ok parsed ->
  _parse outputDir contents t = (Ok tt, t') ->
  last (filter (full_decl "interface" n) (instructions parsed)) = Some f ->
  Forall (fun p => ~ partial_decl "interface" n p) (instructions parsed) ->
  Forall (fun p => ~ implements_decl n p) (instructions parsed) ->
  exists obj,
    JSMap.get n (interfaces (ctx t')) = Some obj
    /\ iface_idl obj = f.2
    /\ mixins obj = [].
Proof.
  intros Hfresh Hparse Hrun Hlast Hnp Hni.
  rewrite (interface_after_parse _ _ _ _ _ n Hfresh Hparse Hrun), Hlast. simpl.
  rewrite fold_left_id; [by eexists|].
  rewrite Forall_forall in Hnp, Hni. apply Forall_forall. intros p Hp obj.
  unfold merge_interface.
  rewrite decide_False by (by apply Hnp). by rewrite decide_False by (by apply Hni).
Qed.

Lemma dictionary_after_parse outputDir contents (parsed : list ParsedDocument) t t' n :
  fresh_registry (ctx t) ->
  parse_contents contents = Ok parsed ->
  _parse outputDir contents t = (Ok tt, t') ->
  JSMap.get n (dictionaries (ctx t'))
  = (fun p =>
       fold_left (fun v q => merge_dictionary n q v) (instructions parsed)
         (new_Dictionary p.2
            (and_then (genPath p.1) (fun g => path_join g (name p.2 ++ ".js")))))
    <$> last (filter (full_decl "dictionary" n) (instructions parsed)).
Proof.
  intros (_ & Hfd & _) Hparse Hrun.
  destruct (_parse_Ok_inv _ _ _ _ _ Hparse Hrun) as (c1 & H1 & H2 & _).
  set (s := suppressErrors (options t)) in *.
  set (l := instructions parsed) in *.
  pose proof (for_each_merge (fun p => pass2_instruction s p.2) dictionaries
                (merge_dictionary n) l c1 n
                (fun p c => step2_dictionaries s p c n)) as Hm.
  rewrite H2 in Hm. simpl in Hm. rewrite Hm by done.
  pose proof (for_each_last_write
                (fun p => pass1_instruction s outputDir p.1 p.2)
                dictionaries (full_decl "dictionary" n) _ l (ctx t) n
                (fun p c => step1_dictionaries s outputDir p c n)) as Hlw.
  rewrite H1 in Hlw. simpl in Hlw. rewrite Hlw by done.
  rewrite Hfd. simpl.
  by destruct (last (filter (full_decl "dictionary" n) l)).
Qed.

(** X5: the dictionary registered under [n] after a successful [_parse] on
    a fresh registry: none unless the input holds a full dictionary [n];
    otherwise the entry of the last of them, with the path hint of its
    document, and with the members and extended attributes of every partial
    dictionary [n] appended in processing order.  Partial interfaces and
    [implements] statements of that name do not touch it. *)
Theorem dictionary_entry outputDir contents (parsed : list ParsedDocument) t t' n :
  fresh_registry (ctx t) ->
  parse_contents contents = Ok parsed ->
  _parse outputDir contents t = (Ok tt, t') ->
  match last (filter (full_decl "dictionary" n) (instructions parsed)) with
  | None => JSMap.get n (dictionaries (ctx t')) = None
  | Some f =>
      exists obj,
        JSMap.get n (dictionaries (ctx t')) = Some obj
        /\ dict_name obj = n
        /\ dict_path obj
           = and_then (genPath f.1) (fun g => path_join g (n ++ ".js"))
        /\ members (dict_idl obj)
           = members f.2 ++ partial_members "dictionary" n (instructions parsed)
        /\ extAttrs (dict_idl obj)
           = extAttrs f.2 ++ partial_extAttrs "dictionary" n (instructions parsed)
  end.
Proof.
  intros Hfresh Hparse Hrun.
  rewrite (dictionary_after_parse _ _ _ _ _ n Hfresh Hparse Hrun).
  destruct (last (filter (full_decl "dictionary" n) (instructions parsed)))
    as [f|] eqn:Hlast; [|done].
  apply last_Some_elem_of, list_elem_of_filter in Hlast as [(_ & _ & Hn) _].
  simpl. eexists. split; [reflexivity|].
  destruct (merged_dictionary n (instructions parsed)
              (new_Dictionary f.2
                 (and_then (genPath f.1) (fun g => path_join g (name f.2 ++ ".js")))))
    as (-> & -> & -> & ->).
  simpl. by rewrite Hn.
Qed.

(** X6: the typedef registered under [n] after a successful [_parse] on a
    fresh registry is the last [typedef] instruction named [n] of the input,
    whatever partial declarations, mixins or declarations of other kinds
    share the name; without such an instruction there is none. *)
Theorem typedef_entry outputDir contents (parsed : list ParsedDocument) t t' n :
  fresh_registry (ctx t) ->
  parse_contents contents = Ok parsed ->
  _parse outputDir contents t = (Ok tt, t') ->
  JSMap.get n (typedefs (ctx t'))
  = (fun p => new_Typedef p.2)
    <$> last (filter (typedef_decl n) (instructions parsed)).
Proof.
  intros (_ & _ & Hft & _) Hparse Hrun.
  destruct (_parse_Ok_inv _ _ _ _ _ Hparse Hrun) as (c1 & H1 & H2 & _).
  set (s := suppressErrors (options t)) in *.
  set (l := instructions parsed) in *.
  assert (typedefs (ctx t') = typedefs c1) as ->.
  { rewrite <- (pass2_typedefs s l c1). by rewrite H2. }
  pose proof (for_each_last_write
                (fun p => pass1_instruction s outputDir p.1 p.2)
                typedefs (typedef_decl n) (fun p => new_Typedef p.2) l (ctx t) n
                (fun p c => step1_typedefs s outputDir p c n)) as Hlw.
  rewrite H1 in Hlw. simpl in Hlw. rewrite Hlw by done.
  rewrite Hft. simpl. by destruct (last (filter (typedef_decl n) l)).
Qed.

End RegistryEntries.

Lemma interface_entry_witness :
  let env := Demo.collaborators Demo.scenario_table [] in
  let contents :=
    [ Demo.document "interface Foo { long x; };";
      Demo.document
        "partial interface Foo { long y; }; interface Bar { }; Bar implements Foo;" ] in
  let t' := (@_parse _ _ env "out" contents (Demo.transformer env false)).2 in
  (exists obj,
     JSMap.get "Foo" (interfaces (ctx t')) = Some obj
     /\ implDir obj = Some "out/impl"
     /\ members (iface_idl obj) = ["x"; "y"]
     /\ mixins obj = [])
  /\ JSMap.get "Qux" (interfaces (ctx t')) = None.
Proof.
  intros env contents t'.
  pose (parsed := [ {| idl := [ Demo.interface_ false "Foo" ["x"] ];
                       impl := Some "impl"; genPath := None |};
                    {| idl := [ Demo.interface_ true "Foo" ["y"];
                                Demo.interface_ false "Bar" [];
                                Demo.implements_ "Bar" "Foo" ];
                       impl := Some "impl"; genPath := None |} ]
                  : list (ParsedDocument string string)).
  split.
  - pose proof (@interface_entry _ _ env "out" contents parsed
                  (Demo.transformer env false) t' "Foo"
                  ltac:(repeat split) eq_refl eq_refl) as H.
    vm_compute in H. destruct H as (obj & Hget & _ & Himpl & _ & Hm & _ & Hmix).
    exists obj. split_and!; [exact Hget | exact Himpl | exact Hm | exact Hmix].
  - exact (@interface_entry _ _ env "out" contents parsed
             (Demo.transformer env false) t' "Qux"
             ltac:(repeat split) eq_refl eq_refl).
Defined.

Lemma interface_round_trip_witness :
  let env := Demo.collaborators Demo.scenario_table [] in
  let contents :=
    [ Demo.document "interface Foo { long x; };";
      Demo.document "interface Bar { }; Bar implements Missing;" ] in
  let t' := (@_parse _ _ env "out" contents (Demo.transformer env false)).2 in
  exists obj,
    JSMap.get "Foo" (interfaces (ctx t')) = Some obj
    /\ iface_idl obj = Demo.interface_ false "Foo" ["x"]
    /\ mixins obj = [].
Proof.
  intros env contents t'.
  pose (p1 := {| idl := [ Demo.interface_ false "Foo" ["x"] ];
                 impl := Some "impl"; genPath := None |}
              : ParsedDocument string string).
  pose (p2 := {| idl := [ Demo.interface_ false "Bar" [];
                          Demo.implements_ "Bar" "Missing" ];
                 impl := Some "impl"; genPath := None |}
              : ParsedDocument string string).
  apply (@interface_round_trip _ _ env "out" contents [p1; p2]
           (Demo.transformer env false) t' "Foo"
           (p1, Demo.interface_ false "Foo" ["x"])).
  - repeat split.
  - reflexivity.
  - reflexivity.
  - reflexivity.
  - compute_done.
  - compute_done.
Defined.

Lemma dictionary_entry_witness :
  let t' := (@_parse _ _ Samples.env "out" [ Demo.document Samples.init_text ]
               (Demo.transformer Samples.env false)).2 in
  exists obj,
    JSMap.get "Init" (dictionaries (ctx t')) = Some obj
    /\ members (dict_idl obj) = ["a"; "b"]
    /\ dict_path obj = None.
Proof.
  intros t'.
  pose proof (@dictionary_entry _ _ Samples.env "out"
                [ Demo.document Samples.init_text ] [ Samples.parsed_init ]
                (Demo.transformer Samples.env false) t' "Init"
                ltac:(repeat split) eq_refl eq_refl) as H.
  vm_compute in H. destruct H as (obj & Hget & _ & Hpath & Hm & _).
  exists obj. split_and!; [exact Hget | exact Hm | exact Hpath].
Defined.

Lemma typedef_entry_witness :
  let t' := (@_parse _ _ Samples.env "out" [ Demo.document Samples.init_text ]
               (Demo.transformer Samples.env false)).2 in
  JSMap.get "N" (typedefs (ctx t')) = Some (new_Typedef (Demo.typedef_ "N"))
  /\ JSMap.get "Init" (typedefs (ctx t')) = None.
Proof.
  intros t'. split.
  - exact (@typedef_entry _ _ Samples.env "out"
             [ Demo.document Samples.init_text ] [ Samples.parsed_init ]
             (Demo.transformer Samples.env false) t' "N"
             ltac:(repeat split) eq_refl eq_refl).
  - exact (@typedef_entry _ _ Samples.env "out"
             [ Demo.document Samples.init_text ] [ Samples.parsed_init ]
             (Demo.transformer Samples.env false) t' "Init"
             ltac:(repeat split) eq_refl eq_refl).
Defined.

(** ** Model builder: order of the documents and failure part-way *)

Section ParseOrder.
Context {Member ExtAttr : Type} `{!Collaborators Member ExtAttr}.
Local Abbreviation Instruction := (Instruction Member ExtAttr).
Local Abbreviation ParsedDocument := (ParsedDocument Member ExtAttr).
Local Abbreviation Context := (Context Member ExtAttr).
Local Abbreviation Transformer := (Transformer Member ExtAttr).
Implicit Types (t : Transformer) (c : Context) (n : string) (i : Instruction).

Lemma last_filter_is_Some {A} (P : A -> Prop) `{!forall x, Decision (P x)} (l : list A) :
  is_Some (last (filter P l)) <-> Exists P l.
Proof.
  destruct (last (filter P l)) as [x|] eqn:Hlast.
  - split; [intros _ | by eexists].
    apply last_Some_elem_of, list_elem_of_filter in Hlast as [? ?].
    apply Exists_exists. eauto.
  - split; [by intros [? ?] | intros Hex].
    apply last_filter_None in Hlast. by apply Forall_Exists_neg in Hlast.
Qed.

Lemma has_last_filter {A V} (P : A -> Prop) `{!forall x, Decision (P x)}
    (mk : A -> V) (l : list A) (m : JSMap V) n :
  JSMap.get n m = mk <$> last (filter P l) ->
  JSMap.has n m = bool_decide (Exists P l).
Proof.
  intros Hget. unfold JSMap.has. rewrite Hget.
  destruct (last (filter P l)) as [x|] eqn:Hlast; simpl; symmetry.
  - apply bool_decide_eq_true_2. apply (proj1 (last_filter_is_Some P l)).
    by rewrite Hlast.
  - apply bool_decide_eq_false_2. intros Hex. apply (proj2 (last_filter_is_Some P l)) in Hex.
    rewrite Hlast in Hex. by destruct Hex.
Qed.

(** The names in the four maps after a successful [_parse] on a fresh
    registry. *)
Lemma names_after_parse outputDir contents (parsed : list ParsedDocument) t t' n :
  fresh_registry (ctx t) ->
  parse_contents contents = Ok parsed ->
  _parse outputDir contents t = (Ok tt, t') ->
  JSMap.has n (interfaces (ctx t'))
  = bool_decide (Exists (full_decl "interface" n) (instructions parsed))
  /\ JSMap.has n (dictionaries (ctx t'))
     = bool_decide (Exists (full_decl "dictionary" n) (instructions parsed))
  /\ JSMap.has n (typedefs (ctx t'))
     = bool_decide (Exists (typedef_decl n) (instructions parsed))
  /\ JSMap.has n (customTypes (ctx t'))
     = bool_decide (Exists (custom_decl n) (instructions parsed)).
Proof.
  intros Hfresh Hparse Hrun.
  pose proof Hfresh as (Hfi & Hfd & Hft & Hfc).
  destruct (_parse_Ok_inv _ _ _ _ _ Hparse Hrun) as (c1 & H1 & H2 & _).
  set (s := suppressErrors (options t)) in *.
  set (l := instructions parsed) in *.
  assert (is_ok (for_each (fun p => pass1_instruction s outputDir p.1 p.2) l (ctx t)).1
          = true) as Hok1 by (by rewrite H1).
  pose proof (pass2_same_names s l c1) as [Hsi Hsd]. rewrite H2 in Hsi, Hsd.
  simpl in Hsi, Hsd.
  pose proof (pass1_has_interfaces s outputDir l (ctx t) n Hok1) as Hi.
  pose proof (pass1_has_dictionaries s outputDir l (ctx t) n Hok1) as Hd.
  rewrite H1 in Hi, Hd. simpl in Hi, Hd.
  rewrite Hsi, Hsd, Hi, Hd, Hfi, Hfd. simpl. split_and!; [done | done | |].
  - assert (typedefs (ctx t') = typedefs c1) as ->.
    { rewrite <- (pass2_typedefs s l c1). by rewrite H2. }
    apply (has_last_filter _ (fun p => new_Typedef p.2)).
    pose proof (for_each_last_write
                  (fun p => pass1_instruction s outputDir p.1 p.2)
                  typedefs (typedef_decl n) (fun p => new_Typedef p.2) l (ctx t) n
                  (fun p c => step1_typedefs s outputDir p c n) Hok1) as Hlw.
    rewrite H1 in Hlw. simpl in Hlw. rewrite Hlw, Hft. simpl.
    by destruct (last (filter (typedef_decl n) l)).
  - assert (customTypes (ctx t') = customTypes c1) as ->.
    { rewrite <- (pass2_customTypes s l c1). by rewrite H2. }
    apply (has_last_filter _ (fun p => type p.2)).
    pose proof (for_each_last_write
                  (fun p => pass1_instruction s outputDir p.1 p.2)
                  customTypes (custom_decl n) (fun p => type p.2) l (ctx t) n
                  (fun p c => step1_customTypes s outputDir p c n) Hok1) as Hlw.
    rewrite H1 in Hlw. simpl in Hlw. rewrite Hlw, Hfc. simpl.
    by destruct (last (filter (custom_decl n) l)).
Qed.

Lemma instructions_Permutation (parsed parsed' : list ParsedDocument) :
  parsed ≡ₚ parsed' -> instructions parsed ≡ₚ instructions parsed'.
Proof. intros Hperm. unfold instructions. by apply Permutation_flat_map. Qed.

(** X7: the order in which the documents are processed changes neither
    whether [_parse] runs through (on a fresh registry) nor, when it does,
    which names end up in the interfaces, dictionaries and typedefs maps and
    in the combined index. *)
Theorem document_order_irrelevant outputDir contents contents'
    (parsed parsed' : list ParsedDocument) t :
  fresh_registry (ctx t) ->
  parse_contents contents = Ok parsed ->
  parse_contents contents' = Ok parsed' ->
  parsed ≡ₚ parsed' ->
  let r := _parse outputDir contents t in
  let r' := _parse outputDir contents' t in
  is_ok r.1 = is_ok r'.1
  /\ (is_ok r.1 = true ->
      forall n,
        JSMap.has n (interfaces (ctx r.2)) = JSMap.has n (interfaces (ctx r'.2))
        /\ JSMap.has n (dictionaries (ctx r.2)) = JSMap.has n (dictionaries (ctx r'.2))
        /\ JSMap.has n (typedefs (ctx r.2)) = JSMap.has n (typedefs (ctx r'.2))
        /\ JSMap.has n (customTypes (ctx r.2)) = JSMap.has n (customTypes (ctx r'.2))).
Proof.
  intros Hfresh Hparse Hparse' Hperm r r'.
  pose proof (instructions_Permutation _ _ Hperm) as Hp.
  assert (is_ok r.1 = is_ok r'.1) as Hsame.
  { unfold r, r'.
    rewrite (_parse_run _ _ _ _ Hparse), (_parse_run _ _ _ _ Hparse').
    cbv zeta. cbn [fst].
    apply eq_true_iff_eq. split.
    - by apply resolve_ok_Permutation.
    - by apply resolve_ok_Permutation. }
  split; [done|]. intros Hok n.
  assert (is_ok r'.1 = true) as Hok' by (by rewrite <- Hsame).
  destruct r as [[[]|e] t1] eqn:Hr; [|done].
  destruct r' as [[[]|e] t2] eqn:Hr'; [|done]. simpl.
  destruct (names_after_parse _ _ _ _ _ n Hfresh Hparse Hr) as (-> & -> & -> & ->).
  destruct (names_after_parse _ _ _ _ _ n Hfresh Hparse' Hr') as (-> & -> & -> & ->).
  split_and!; apply bool_decide_ext; by rewrite Hp.
Qed.

(** X8: in strict mode, an instruction of an unrecognized kind that no
    other such instruction precedes makes [_parse] throw
    "Can't convert type '<kind>'", and the registry is left holding what
    the first loop had registered up to there.  In each of its four maps --
    interfaces, dictionaries, typedefs and the combined index -- a name
    stands for the last full declaration of it that precedes the
    instruction, as the first loop built it: nothing that follows the
    instruction is registered, and no partial declaration or mixin is
    merged. *)
Theorem unrecognized_stops_first_loop outputDir contents (parsed : list ParsedDocument)
    t (before after : list (ParsedDocument * Instruction))
    (file : ParsedDocument) i :
  fresh_registry (ctx t) ->
  suppressErrors (options t) = false ->
  parse_contents contents = Ok parsed ->
  instructions parsed = before ++ (file, i) :: after ->
  Forall (fun p => ~ unrecognized p.2) before ->
  unrecognized i ->
  let r := _parse outputDir contents t in
  r.1 = Throw (GenericError ("Can't convert type '" ++ type i ++ "'"))
  /\ forall n,
       JSMap.get n (interfaces (ctx r.2))
       = (fun p => new_Interface p.2
                     (and_then (impl p.1) (path_resolve outputDir))
                     (and_then (genPath p.1)
                        (fun g => path_join g (name p.2 ++ ".js"))))
         <$> last (filter (full_decl "interface" n) before)
       /\ JSMap.get n (dictionaries (ctx r.2))
          = (fun p => new_Dictionary p.2
                        (and_then (genPath p.1)
                           (fun g => path_join g (name p.2 ++ ".js"))))
            <$> last (filter (full_decl "dictionary" n) before)
       /\ JSMap.get n (typedefs (ctx r.2))
          = (fun p => new_Typedef p.2) <$> last (filter (typedef_decl n) before)
       /\ JSMap.get n (customTypes (ctx r.2))
          = (fun p => type p.2) <$> last (filter (custom_decl n) before).
Proof.
  intros (Hfi & Hfd & Hft & Hfc) Hstrict Hparse Hsplit Hbefore Hi r.
  assert (is_ok (for_each (fun p => pass1_instruction false outputDir p.1 p.2)
                   before (ctx t)).1 = true) as Hok.
  { rewrite pass1_ok. apply bool_decide_eq_true_2. by right. }
  pose proof (fun n => for_each_last_write
                (fun p => pass1_instruction false outputDir p.1 p.2)
                interfaces (full_decl "interface" n) _ before (ctx t) n
                (fun p c => step1_interfaces false outputDir p c n) Hok) as Hifaces.
  pose proof (fun n => for_each_last_write
                (fun p => pass1_instruction false outputDir p.1 p.2)
                dictionaries (full_decl "dictionary" n) _ before (ctx t) n
                (fun p c => step1_dictionaries false outputDir p c n) Hok) as Hdicts.
  pose proof (fun n => for_each_last_write
                (fun p => pass1_instruction false outputDir p.1 p.2)
                typedefs (typedef_decl n) (fun p => new_Typedef p.2) before (ctx t) n
                (fun p c => step1_typedefs false outputDir p c n) Hok) as Htypedefs.
  pose proof (fun n => for_each_last_write
                (fun p => pass1_instruction false outputDir p.1 p.2)
                customTypes (custom_decl n) (fun p => type p.2) before (ctx t) n
                (fun p c => step1_customTypes false outputDir p c n) Hok) as Hindex.
  assert ((for_each (fun p => pass1_instruction false outputDir p.1 p.2)
             (instructions parsed) ;;;
           for_each (fun p => pass2_instruction false p.2) (instructions parsed))
            (ctx t)
          = (Throw (GenericError ("Can't convert type '" ++ type i ++ "'")),
             (for_each (fun p => pass1_instruction false outputDir p.1 p.2)
                before (ctx t)).2)) as Hloops.
  { rewrite Hsplit. unfold bind. rewrite for_each_app. unfold bind.
    destruct (for_each _ before (ctx t)) as [[[]|e] c1]; [|done]. simpl.
    unfold bind.
    assert (pass1_instruction false outputDir file i c1
            = (Throw (GenericError ("Can't convert type '" ++ type i ++ "'")), c1)) as ->.
    { destruct Hi as (? & ? & ? & ?). unfold pass1_instruction.
      by rewrite !decide_False by done. }
    done. }
  unfold r. rewrite (_parse_run _ _ _ _ Hparse). cbv zeta. rewrite Hstrict, Hloops.
  simpl. split; [done|]. intros n.
  rewrite Hifaces, Hdicts, Htypedefs, Hindex, Hfi, Hfd, Hft, Hfc. simpl.
  by destruct (last (filter (full_decl "interface" n) before)),
              (last (filter (full_decl "dictionary" n) before)),
              (last (filter (typedef_decl n) before)),
              (last (filter (custom_decl n) before)).
Qed.

End ParseOrder.

Lemma document_order_irrelevant_witness :
  let contents := [ Demo.document Samples.init_text;
                    Demo.document "interface Foo { long x; };" ] in
  let contents' := [ Demo.document "interface Foo { long x; };";
                     Demo.document Samples.init_text ] in
  let r := @_parse _ _ Samples.env "out" contents (Demo.transformer Samples.env false) in
  let r' := @_parse _ _ Samples.env "out" contents' (Demo.transformer Samples.env false) in
  is_ok r.1 = true
  /\ is_ok r'.1 = true
  /\ JSMap.keys (customTypes (ctx r.2)) = ["Init"; "Foo"]
  /\ JSMap.keys (customTypes (ctx r'.2)) = ["Foo"; "Init"]
  /\ forall n,
       JSMap.has n (customTypes (ctx r.2)) = JSMap.has n (customTypes (ctx r'.2)).
Proof.
  intros contents contents' r r'.
  destruct (@document_order_irrelevant _ _ Samples.env "out" contents contents'
              [ Samples.parsed_init; Samples.parsed_foo ]
              [ Samples.parsed_foo; Samples.parsed_init ]
              (Demo.transformer Samples.env false)
              ltac:(repeat split) eq_refl eq_refl ltac:(apply perm_swap))
    as [_ Hnames].
  split_and!; [reflexivity | reflexivity | reflexivity | reflexivity |].
  intros n. by destruct (Hnames eq_refl n) as (_ & _ & _ & ?).
Defined.

Lemma unrecognized_stops_first_loop_witness :
  let r := @_parse _ _ Samples.env "out"
             [ Demo.document "interface Bar { }; enum E { }; interface Baz { };" ]
             (Demo.transformer Samples.env false) in
  r.1 = Throw (GenericError "Can't convert type 'enum'")
  /\ JSMap.keys (interfaces (ctx r.2)) = ["Bar"]
  /\ JSMap.get "Baz" (interfaces (ctx r.2)) = None
  /\ JSMap.get "Baz" (dictionaries (ctx r.2)) = None
  /\ JSMap.get "Baz" (typedefs (ctx r.2)) = None
  /\ JSMap.get "Baz" (customTypes (ctx r.2)) = None.
Proof.
  intros r.
  destruct (@unrecognized_stops_first_loop _ _ Samples.env "out"
              [ Demo.document "interface Bar { }; enum E { }; interface Baz { };" ]
              [ Samples.parsed_enum ] (Demo.transformer Samples.env false)
              [ (Samples.parsed_enum, Demo.interface_ false "Bar" []) ]
              [ (Samples.parsed_enum, Demo.interface_ false "Baz" []) ]
              Samples.parsed_enum (Demo.other_ "enum" "E")
              ltac:(repeat split) eq_refl eq_refl eq_refl
              ltac:(compute_done) ltac:(compute_done))
    as [Herr Hreg].
  destruct (Hreg "Baz") as (Hi & Hd & Ht & Hc).
  split_and!; [exact Herr | reflexivity | exact Hi | exact Hd | exact Ht | exact Hc].
Defined.

(** ** Source collector: the whole collection *)

Section WholeCollection.
Context {Member ExtAttr : Type} `{!Collaborators Member ExtAttr}.
Local Abbreviation Transformer := (Transformer Member ExtAttr).
Implicit Types (t : Transformer) (fs : FS).

Lemma omap_settled_order (contributions : list (list FileEntry)) (order : list nat) :
  Forall (fun i => i < length contributions) order ->
  Forall2 (fun i batch => contributions !! i = Some batch)
          order (omap (settled (Ok <$> contributions)) order).
Proof.
  induction order as [|i order IH]; intros Hall; [constructor|].
  apply Forall_cons in Hall as [Hi Hall]. simpl.
  assert (settled (Ok <$> contributions) i = contributions !! i) as ->.
  { unfold settled. rewrite list_lookup_fmap. by destruct (contributions !! i). }
  destruct (lookup_lt_is_Some_2 contributions i Hi) as [batch Hbatch].
  rewrite Hbatch. constructor; [done | by apply IH].
Qed.

(** X9: when the coroutines of all sources and modules run through, in
    whatever order they complete, [_collectSources] returns their
    contributions batch by batch -- the entries of one source or module stay
    together and keep their order -- the batches standing in the order of
    completion: the [k]-th batch is the contribution of the coroutine that
    completed [k]-th.  So every contribution is there once; and when the
    coroutines complete in the order they were started, the result is the
    contributions of the sources in registration order followed by those of
    the modules. *)
Theorem collection_in_batches (order : list nat) t fs
    (contributions : list (list FileEntry)) :
  order ≡ₚ seq 0 (length contributions) ->
  map (collect_source fs) (sources t) ++ map (collect_module fs) (modules t)
  = Ok <$> contributions ->
  exists batches,
    _collectSources order t fs = Ok (concat batches)
    /\ Forall2 (fun i batch => contributions !! i = Some batch) order batches
    /\ batches ≡ₚ contributions
    /\ (order = seq 0 (length contributions) -> batches = contributions).
Proof.
  intros Horder Hall. unfold _collectSources. rewrite Hall, settle_all_ok.
  exists (omap (settled (Ok <$> contributions)) order). split_and!.
  - done.
  - apply omap_settled_order, Forall_forall. intros i Hi.
    rewrite Horder in Hi. by apply elem_of_seq in Hi as [_ Hi].
  - by rewrite Horder, omap_settled_seq.
  - intros ->. apply omap_settled_seq.
Qed.

(** X10: when the coroutine of some source or module throws -- a path that
    cannot be stat'ed or listed, a descriptor that cannot be read or
    parsed -- the collection throws, whatever the order of completion and
    whatever the other coroutines have pushed. *)
Theorem collection_rejects (order : list nat) t fs :
  let promises := map (collect_source fs) (sources t)
                  ++ map (collect_module fs) (modules t) in
  order ≡ₚ seq 0 (length promises) ->
  Exists (fun r => is_ok r = false) promises ->
  exists e, _collectSources order t fs = Throw e.
Proof.
  intros promises Horder (r & Hin & Hr)%Exists_exists.
  apply list_elem_of_lookup in Hin as [k Hk].
  destruct r as [?|e]; [done|].
  assert (k ∈ order) as Hko.
  { rewrite Horder. apply list_elem_of_lookup. exists k.
    apply lookup_seq. split; [done|]. by eapply lookup_lt_Some. }
  pose proof (settle_throws order promises [] k e Hko Hk) as Hfail.
  unfold _collectSources. fold promises.
  destruct (settle order promises []) as [?|e']; [done | by exists e'].
Qed.

End WholeCollection.

Lemma collection_in_batches_witness :
  let from_A := [ {| idlPath := "idl/A.idl"; file_impl := Some "impl";
                     file_genPath := None |} ] in
  let from_single := [ {| idlPath := "single.webidl"; file_impl := Some "impl";
                          file_genPath := None |} ] in
  let from_dep := [ {| idlPath := "node_modules/dep/x.idl"; file_impl := None;
                       file_genPath := Some "dep/generated" |};
                    {| idlPath := "node_modules/dep/y.idl"; file_impl := None;
                       file_genPath := Some "dep/generated" |} ] in
  exists batches,
    @_collectSources _ _ Samples.env [2; 0; 1] Samples.registered Demo.volume
    = Ok (concat batches)
    /\ Forall2 (fun i batch => [from_A; from_single; from_dep] !! i = Some batch)
               [2; 0; 1] batches
    /\ idlPath <$> concat batches
       = ["node_modules/dep/x.idl"; "node_modules/dep/y.idl"; "idl/A.idl";
          "single.webidl"].
Proof.
  intros from_A from_single from_dep.
  destruct (@collection_in_batches _ _ Samples.env [2; 0; 1] Samples.registered
              Demo.volume [from_A; from_single; from_dep])
    as (batches & Hrun & Horder & _).
  - compute_done.
  - reflexivity.
  - exists batches. split_and!; [exact Hrun | exact Horder |].
    assert (exists files,
              @_collectSources _ _ Samples.env [2; 0; 1] Samples.registered Demo.volume
              = Ok files
              /\ idlPath <$> files
                 = ["node_modules/dep/x.idl"; "node_modules/dep/y.idl"; "idl/A.idl";
                    "single.webidl"]) as (files & Hfiles & Hpaths).
    { eexists. split; reflexivity. }
    rewrite Hrun in Hfiles. injection Hfiles as <-. exact Hpaths.
Defined.

Lemma collection_rejects_witness :
  exists e,
    @_collectSources _ _ Samples.env [3; 2; 0; 1] Samples.registered_missing Demo.volume
    = Throw e.
Proof.
  apply (@collection_rejects _ _ Samples.env [3; 2; 0; 1] Samples.registered_missing
           Demo.volume).
  - compute_done.
  - apply Exists_exists. exists (Throw (IOError "nowhere")). split; [|reflexivity].
    apply list_elem_of_lookup. by exists 2.
Defined.

(** ** Emission driver: what is written and what is not *)

Section Writes.
Context {Member ExtAttr : Type} `{!Collaborators Member ExtAttr}.
Local Abbreviation Interface := (Interface Member ExtAttr).
Local Abbreviation Dictionary := (Dictionary Member ExtAttr).
Local Abbreviation Transformer := (Transformer Member ExtAttr).
Local Abbreviation World := (World Member ExtAttr).
Implicit Types (t : Transformer) (w : World) (fs : FS).

(** X12: [generate] writes nothing at all -- the file system is as before --
    when a source cannot be collected, a collected file cannot be read, the
    documents do not parse or resolve, or the template of the utility module
    cannot be read; and in each of these cases it throws. *)
Theorem generate_fails_before_writing outputDir order w :
  let t0 := entered outputDir (this w) in
  is_ok (_collectSources order t0 (disk w)) = false
  \/ (exists files,
        _collectSources order t0 (disk w) = Ok files
        /\ (is_ok (_readFiles files (disk w)) = false
            \/ exists contents,
                 _readFiles files (disk w) = Ok contents
                 /\ is_ok (_parse outputDir contents t0).1 = false))
  \/ is_ok (fs_readFile (disk w) (path_resolve __dirname "output/utils.js")) = false ->
  is_ok (generate outputDir order w).1 = false
  /\ disk (generate outputDir order w).2 = disk w.
Proof.
  intros t0 Hcause. rewrite generate_run. cbv zeta. fold t0.
  destruct (_collectSources order t0 (disk w)) as [files|e] eqn:Hc; [|done].
  destruct (_readFiles files (disk w)) as [contents|e] eqn:Hr; [|done].
  destruct (_parse outputDir contents t0) as [[[]|e] t1] eqn:Hp; [|done].
  assert (is_ok (fs_readFile (disk w) (path_resolve __dirname "output/utils.js"))
          = false) as Hread.
  { destruct Hcause as [? | [(files' & [= <-] & [Hf | (contents' & Hc' & Hf)]) | ?]];
      try done.
    - by rewrite Hr in Hf.
    - rewrite Hr in Hc'. injection Hc' as <-. by rewrite Hp in Hf. }
  unfold _writeFiles, bind, get_state, lift_result. simpl.
  by destruct (fs_readFile (disk w) _).
Qed.

(** X13: an interface of the registry that is not imported and has no
    implementation directory -- as one declared in a document that came
    without [impl] -- makes [_writeFiles] throw: [path.relative] does not
    take [undefined]. *)
Theorem interface_without_implDir_throws outputDir w :
  Exists (fun obj => Interface_imported obj = false /\ implDir obj = None)
    (JSMap.values (interfaces (ctx (this w)))) ->
  is_ok (_writeFiles outputDir w).1 = false.
Proof.
  intros (obj & Hin & Himp & Hdir)%Exists_exists.
  unfold _writeFiles. unfold bind at 1, get_state. unfold bind at 1, lift_result.
  destruct (fs_readFile (disk w) _) as [utilsText|e]; [|done].
  unfold bind at 1.
  destruct (match utilPath (options (this w)) with
            | Some p => on_disk (fs_writeFile p utilsText)
            | None => throw (TypeError "path must be a string or Buffer")
            end w) as [[[]|e] w1]; [|done].
  unfold bind.
  pose proof (for_each_throws (fun _ => True) (write_interface outputDir)
                (JSMap.values (interfaces (ctx (this w)))) obj w1
                (fun _ _ _ _ => I)) as Hthrow.
  destruct (for_each (write_interface outputDir) _ w1) as [[[]|e] w2]; [|done].
  simpl in Hthrow. exfalso. enough (true = false) by done.
  apply Hthrow; [|done..].
  intros s _. unfold write_interface. rewrite Himp.
  unfold bind, get_state, lift_result, interface_source. by rewrite Hdir.
Qed.

Lemma force_relative_dot p : starts_with_dot (force_relative p).
Proof.
  unfold starts_with_dot, force_relative.
  destruct p as [|c p]; [by eexists|].
  destruct (decide (c = "."%char)) as [->|Hne]; [by eexists|].
  destruct c as [[] [] [] [] [] [] [] []]; by eexists.
Qed.

Lemma replace_backslashes_none p : no_backslash (replace_backslashes p).
Proof.
  induction p as [|c p IH]; simpl; [done|]. split; [|done].
  by case_decide.
Qed.

Lemma force_relative_no_backslash p :
  no_backslash p -> no_backslash (force_relative p).
Proof.
  intros Hp. unfold force_relative.
  destruct p as [|c p]; [simpl; by split_and!|].
  destruct (decide (c = "."%char)) as [->|Hne]; [done|].
  assert (force_relative (String c p) = String "." (String "/" (String c p))) as Heq.
  { unfold force_relative.
    destruct c as [[] [] [] [] [] [] [] []]; try reflexivity. by destruct Hne. }
  unfold force_relative in Heq. rewrite Heq. simpl. simpl in Hp.
  destruct Hp. by split_and!.
Qed.

(** X14: the paths put into the [require] calls of an emitted interface file
    look relative: the path of the utility module begins with a dot and
    holds no backslash, and the path of the implementation file begins with
    a dot. *)
Theorem emitted_requires_look_relative outputDir t (obj : Interface) source :
  interface_source outputDir t obj = Ok source ->
  exists relativeUtils implFile,
    _prettify (interface_module relativeUtils (Interface_toString (ctx t) obj) implFile)
    = Ok source
    /\ starts_with_dot relativeUtils
    /\ no_backslash relativeUtils
    /\ starts_with_dot implFile.
Proof.
  unfold interface_source, relative_slashes.
  destruct (implDir obj) as [d|]; [|done]. simpl.
  destruct (utilPath (options t)) as [u|]; [|done]. simpl.
  intros Hsource. eexists _, _. split; [exact Hsource|]. split_and!.
  - apply force_relative_dot.
  - apply force_relative_no_backslash, replace_backslashes_none.
  - apply force_relative_dot.
Qed.

End Writes.

Lemma generate_fails_before_writing_witness :
  is_ok (@generate _ _ Samples.env "out" [0] Samples.unreachable_source).1 = false
  /\ disk (@generate _ _ Samples.env "out" [0] Samples.unreachable_source).2
     = Demo.volume.
Proof.
  apply (@generate_fails_before_writing _ _ Samples.env "out" [0]
           Samples.unreachable_source).
  left. reflexivity.
Defined.

Lemma interface_without_implDir_throws_witness :
  JSMap.keys (interfaces (ctx (this Samples.from_module))) = ["Foo"]
  /\ is_ok (@_writeFiles _ _ Samples.env_all_emitted "out" Samples.from_module).1 = false.
Proof.
  split; [reflexivity|].
  apply (@interface_without_implDir_throws _ _ Samples.env_all_emitted "out"
           Samples.from_module).
  apply Exists_cons_hd. split; reflexivity.
Defined.

Lemma emitted_requires_look_relative_witness :
  let t := set_utilPath (Some "out/utils.js")
             (Demo.transformer Samples.env_all_emitted false) in
  let obj := new_Interface (Demo.interface_ false "Foo" ["x"]) (Some "out/impl") None in
  exists relativeUtils implFile,
    @_prettify _ _ Samples.env_all_emitted
      (interface_module relativeUtils "class Foo" implFile)
    = Ok (interface_module "../out/utils.js" "class Foo" "../out/impl/Foo")
    /\ starts_with_dot relativeUtils
    /\ no_backslash relativeUtils
    /\ starts_with_dot implFile.
Proof.
  intros t obj.
  apply (@emitted_requires_look_relative _ _ Samples.env_all_emitted "lib" t obj).
  reflexivity.
Defined.

(** ** Registering modules (lines 39-48) *)

Section ModuleRegistration.
Context {Member ExtAttr : Type} `{!Collaborators Member ExtAttr}.
Local Abbreviation Transformer := (Transformer Member ExtAttr).
Implicit Types (t : Transformer).

(** X15: [addModule] with a string name and a string path always succeeds.
    Afterwards the module is registered with that path; a module that was
    registered before keeps its place in the iteration order and loses its
    former path, a new module comes last; every other module, the sources,
    the options and the registry are untouched. *)
Theorem addModule_replaces_in_place (moduleName packageJSONPath : string) t :
  let run := addModule (JSString moduleName) (JSString packageJSONPath) t in
  run.1 = Ok tt
  /\ JSMap.get moduleName (modules run.2) = Some packageJSONPath
  /\ (forall other, other <> moduleName ->
        JSMap.get other (modules run.2) = JSMap.get other (modules t))
  /\ JSMap.keys (modules run.2)
     = (if JSMap.has moduleName (modules t) then JSMap.keys (modules t)
        else JSMap.keys (modules t) ++ [moduleName])
  /\ sources run.2 = sources t
  /\ ctx run.2 = ctx t
  /\ options run.2 = options t.
Proof.
  cbv zeta. unfold addModule, bind, ret, modify_state. simpl.
  split_and!; try done.
  - rewrite JSMapFacts.get_set. by rewrite decide_True.
  - intros other Hne. rewrite JSMapFacts.get_set. by rewrite decide_False.
  - apply JSMapFacts.keys_set.
Qed.

(** X16: [addModule] succeeds exactly when the module name is a string and
    the path is either a string or left out with
    [require.resolve(<name>/package.json)] finding the package; the
    resolution is not attempted when a path is given. *)
Theorem addModule_accepts_iff (moduleName packageJSONPath : JSValue) t :
  is_ok (addModule moduleName packageJSONPath t).1 = true
  <-> exists m, moduleName = JSString m
        /\ ((exists p, packageJSONPath = JSString p)
            \/ (packageJSONPath = JSUndefined
                /\ is_ok (require_resolve (path_posix_join m "package.json")) = true)).
Proof.
  unfold addModule, bind, ret, throw, lift_result, modify_state.
  destruct packageJSONPath as [|p|], moduleName as [|m|]; simpl;
    try (split; [done | by intros (? & [=] & _)]).
  - destruct (require_resolve _) as [p|e] eqn:Hresolve; simpl.
    + split; [|done]. intros _. exists m. split; [done|]. right.
      by rewrite Hresolve.
    + split; [done|]. intros (m' & [= <-] & [[? [=]] | [_ Hok]]).
      by rewrite Hresolve in Hok.
  - split; [|done]. intros _. exists m. split; [done|]. left. by exists p.
  - split; [done|]. by intros (m' & _ & [[? [=]] | [[=] _]]).
Qed.

(** X17: a call of [addModule] that throws has registered nothing: the
    transformer is as it was before the call. *)
Theorem addModule_rejected_changes_nothing (moduleName packageJSONPath : JSValue) t :
  is_ok (addModule moduleName packageJSONPath t).1 = false ->
  (addModule moduleName packageJSONPath t).2 = t.
Proof.
  unfold addModule, bind, ret, throw, lift_result, modify_state.
  destruct packageJSONPath as [|p|], moduleName as [|m|]; simpl; try done.
  by destruct (require_resolve _).
Qed.

End ModuleRegistration.

Lemma addModule_rejected_changes_nothing_witness :
  (@addModule _ _ Samples.env (JSString "dep") JSOther
     (Demo.transformer Samples.env false)).2
  = Demo.transformer Samples.env false.
Proof.
  apply (@addModule_rejected_changes_nothing _ _ Samples.env).
  reflexivity.
Defined.

(** ** The entry of a bundle ([src/unnamed/part_000]) *)

Section Bootstrap.
Context {Value : Type}.
Import binding.
Implicit Types (global : Global Value) (obj : Export Value)
  (allExports : list (string * Export Value)) (entries : list (string * Value)).

Lemma defined_app entries1 entries2 global :
  defined (entries1 ++ entries2) global = defined entries2 (defined entries1 global).
Proof. apply foldl_app. Qed.

Lemma definable_define exposed value global name :
  definable global exposed = true ->
  definable (define exposed value global) name = definable global name.
Proof.
  unfold definable, define. simpl. intros Hd.
  destruct (decide (exposed = name)) as [->|Hne].
  - by rewrite lookup_insert_eq.
  - by rewrite lookup_insert_ne.
Qed.

Lemma definable_defined entries global name :
  Forall (fun entry => definable global entry.1 = true) entries ->
  definable (defined entries global) name = definable global name.
Proof.
  revert global. induction entries as [|[k v] entries IH]; intros global Hall; [done|].
  apply Forall_cons in Hall as [Hk Hall]. simpl in *.
  rewrite IH; [by apply definable_define|].
  eapply Forall_impl; [done|]. intros entry. simpl. by rewrite definable_define.
Qed.

Lemma define_loop_ok entries global :
  Forall (fun entry => definable global entry.1 = true) entries ->
  for_each (fun entry => defineProperty entry.1 entry.2) entries global
  = (Ok tt, defined entries global).
Proof.
  revert global. induction entries as [|[k v] entries IH]; intros global Hall; [done|].
  apply Forall_cons in Hall as [Hk Hall]. simpl in *.
  unfold bind, defineProperty at 1. rewrite Hk. apply IH.
  eapply Forall_impl; [done|]. intros entry. simpl. by rewrite definable_define.
Qed.

Lemma define_loop_inv entries global :
  is_ok (for_each (fun entry => defineProperty entry.1 entry.2) entries global).1 = true ->
  Forall (fun entry => definable global entry.1 = true) entries.
Proof.
  revert global. induction entries as [|[k v] entries IH]; intros global Hok; [done|].
  simpl in Hok. unfold bind, defineProperty at 1 in Hok.
  destruct (definable global k) eqn:Hk; [|done].
  apply Forall_cons. split; [done|].
  eapply Forall_impl; [by apply IH|].
  intros entry. simpl. by rewrite definable_define.
Qed.

Lemma exposures_cons name obj allExports globalInterface :
  exposures ((name, obj) :: allExports) globalInterface
  = match expose obj with
    | Some e =>
        match e globalInterface with
        | ExposedObject entries => entries
        | _ => []
        end
    | None => []
    end ++ exposures allExports globalInterface.
Proof. reflexivity. Qed.

Lemma bootstrap_ok allExports globalInterface global :
  Forall (fun export => exposable globalInterface export.2 = true) allExports ->
  Forall (fun entry => definable global entry.1 = true)
         (exposures allExports globalInterface) ->
  bootstrap allExports globalInterface global
  = (Ok tt, defined (exposures allExports globalInterface) global).
Proof.
  unfold bootstrap.
  revert global. induction allExports as [|[name obj] allExports IH];
    intros global Hexp Hdef; [done|].
  apply Forall_cons in Hexp as [Hobj Hexp].
  rewrite exposures_cons in *.
  apply Forall_app in Hdef as [Hhere Hdef].
  rewrite defined_app. simpl in *.
  unfold bind, bootstrap_export, exposable in *.
  destruct (expose obj) as [e|]; [|done].
  destruct (e globalInterface) as [entries| |]; [|done|].
  - rewrite define_loop_ok by done.
    apply IH; [done|].
    eapply Forall_impl; [done|]. intros entry. simpl. by rewrite definable_defined.
  - simpl. by apply IH.
Qed.

Lemma bootstrap_ok_inv allExports globalInterface global :
  is_ok (bootstrap allExports globalInterface global).1 = true ->
  Forall (fun export => exposable globalInterface export.2 = true) allExports
  /\ Forall (fun entry => definable global entry.1 = true)
            (exposures allExports globalInterface).
Proof.
  unfold bootstrap.
  revert global. induction allExports as [|[name obj] allExports IH];
    intros global Hok; [done|].
  rewrite exposures_cons.
  rewrite Forall_cons, Forall_app. simpl in *.
  unfold bind, bootstrap_export, exposable in *.
  destruct (expose obj) as [e|]; [|done].
  destruct (e globalInterface) as [entries| |]; [|done|].
  - destruct (for_each _ entries global) as [[[]|err] global1] eqn:Hloop; [|done].
    assert (Forall (fun entry => definable global entry.1 = true) entries) as Hhere.
    { apply define_loop_inv. by rewrite Hloop. }
    rewrite define_loop_ok in Hloop by done. injection Hloop as <-.
    destruct (IH _ Hok) as [Hexp Hdef]. split_and!; try done.
    eapply Forall_impl; [done|]. intros entry. simpl. by rewrite definable_defined.
  - simpl in *. destruct (IH _ Hok) as [Hexp Hdef]. by split_and!.
Qed.

Lemma defined_extensible entries global :
  extensible (defined entries global) = extensible global.
Proof.
  revert global. induction entries as [|[k v] entries IH]; intros global; [done|].
  simpl. by rewrite IH.
Qed.

Lemma defined_lookup entries global name :
  properties (defined entries global) !! name
  = match last (filter (fun entry => entry.1 = name) entries) with
    | Some entry => Some (DataProperty entry.2 true false true)
    | None => properties global !! name
    end.
Proof.
  revert global. induction entries as [|[k v] entries IH]; intros global; [done|].
  simpl. rewrite IH, filter_cons. simpl.
  destruct (decide (k = name)) as [->|Hne].
  - rewrite last_cons. destruct (last (filter _ entries)); [done|].
    by rewrite lookup_insert_eq.
  - destruct (last (filter _ entries)); [done|]. by rewrite lookup_insert_ne.
Qed.

Lemma defined_twice entries global :
  defined entries (defined entries global) = defined entries global.
Proof.
  assert (forall g1 g2 : Global Value,
            properties g1 = properties g2 -> extensible g1 = extensible g2 -> g1 = g2)
    as Heq.
  { intros [] []. simpl. by intros -> ->. }
  apply Heq.
  - apply map_eq. intros name. rewrite !defined_lookup.
    by destruct (last (filter _ entries)).
  - by rewrite !defined_extensible.
Qed.

(** X18: [bootstrap] returns normally exactly when every exported module has
    an [expose] object whose entry for the global interface is not [null],
    and every name exposed there can be defined on the global object as it
    is before the call: it is a configurable property, or it is missing and
    the global object is extensible. *)
Theorem bootstrap_accepts_iff allExports globalInterface global :
  is_ok (bootstrap allExports globalInterface global).1 = true
  <-> Forall (fun export => exposable globalInterface export.2 = true) allExports
      /\ Forall (fun entry => definable global entry.1 = true)
                (exposures allExports globalInterface).
Proof.
  split.
  - apply bootstrap_ok_inv.
  - intros [Hexp Hdef]. by rewrite bootstrap_ok.
Qed.

(** X19: after a [bootstrap] that returned, a name exposed on the global
    interface is a writable, non-enumerable, configurable data property of
    the global object holding the value exposed last (in the order of the
    modules, then of the names within a module); every other property of the
    global object is as before, and so is its extensibility. *)
Theorem bootstrap_defines allExports globalInterface global global' :
  bootstrap allExports globalInterface global = (Ok tt, global') ->
  extensible global' = extensible global
  /\ forall name,
       properties global' !! name
       = match last (filter (fun entry => entry.1 = name)
                            (exposures allExports globalInterface)) with
         | Some entry => Some (DataProperty entry.2 true false true)
         | None => properties global !! name
         end.
Proof.
  intros Hrun.
  destruct (bootstrap_ok_inv allExports globalInterface global) as [Hexp Hdef].
  { by rewrite Hrun. }
  rewrite bootstrap_ok in Hrun by done. injection Hrun as <-.
  split; [apply defined_extensible|]. intros name. apply defined_lookup.
Qed.

(** X20: [bootstrap] can be repeated: a second call on the global object
    left by a call that returned returns as well and changes nothing. *)
Theorem bootstrap_idempotent allExports globalInterface global global' :
  bootstrap allExports globalInterface global = (Ok tt, global') ->
  bootstrap allExports globalInterface global' = (Ok tt, global').
Proof.
  intros Hrun.
  destruct (bootstrap_ok_inv allExports globalInterface global) as [Hexp Hdef].
  { by rewrite Hrun. }
  rewrite bootstrap_ok in Hrun by done. injection Hrun as <-.
  rewrite bootstrap_ok; [by rewrite defined_twice | done |].
  eapply Forall_impl; [done|]. intros entry. simpl. by rewrite definable_defined.
Qed.

(** X21: a module without [expose], or whose entry for the global interface
    is [null], makes [bootstrap] throw a TypeError; what the modules before
    it exposed stays defined on the global object, and the modules after it
    are not looked at. *)
Theorem bootstrap_stops_at_unreadable before name obj after globalInterface global global1 :
  bootstrap before globalInterface global = (Ok tt, global1) ->
  exposable globalInterface obj = false ->
  exists message,
    bootstrap (before ++ (name, obj) :: after) globalInterface global
    = (Throw (TypeError message), global1).
Proof.
  unfold bootstrap. intros Hbefore Hobj.
  rewrite for_each_app. unfold bind at 1. rewrite Hbefore. simpl.
  unfold bind, bootstrap_export, exposable in *.
  destruct (expose obj) as [e|]; [|by eexists].
  destruct (e globalInterface); try done. by eexists.
Qed.

End Bootstrap.

Lemma bootstrap_defines_witness :
  binding.extensible (binding.bootstrap Samples.allExports "Window" Samples.window).2 = true
  /\ forall name,
       binding.properties (binding.bootstrap Samples.allExports "Window" Samples.window).2
         !! name
       = match last (filter (fun entry => entry.1 = name) [("Foo", 1); ("Bar", 2); ("Foo", 3)]) with
         | Some entry => Some (binding.DataProperty entry.2 true false true)
         | None => binding.properties Samples.window !! name
         end.
Proof.
  apply (bootstrap_defines Samples.allExports "Window" Samples.window).
  reflexivity.
Defined.

Lemma bootstrap_idempotent_witness :
  let global' := (binding.bootstrap Samples.allExports "Window" Samples.window).2 in
  binding.bootstrap Samples.allExports "Window" global' = (Ok tt, global').
Proof.
  apply (bootstrap_idempotent Samples.allExports "Window" Samples.window).
  reflexivity.
Defined.

Lemma bootstrap_stops_at_unreadable_witness :
  exists message,
    binding.bootstrap
      (Samples.allExports ++ ("Broken", Samples.exposing_null) :: Samples.allExports)
      "Window" Samples.window
    = (Throw (TypeError message),
       (binding.bootstrap Samples.allExports "Window" Samples.window).2).
Proof.
  apply (bootstrap_stops_at_unreadable Samples.allExports "Broken" Samples.exposing_null
           Samples.allExports "Window" Samples.window).
  - reflexivity.
  - reflexivity.
Defined.
